(** * Columnar transposition: cipher, scoring, dictionary and attacks

    A shallow embedding of [cipher.py], [scoring.py], [dictionary.py] and
    [attack.py], followed by the properties of the specification.

    Modelling conventions.
    - A Python [str] is a [list ascii], and the model is one of ASCII
      text: [isdigit], [isalpha], [upper] and [split] are Python's on the
      characters below 128 and treat the others as unclassified.  A
      property that depends on the class or the case of characters is
      stated for the strings that [isascii] accepts.
    - A Python exception is a value [Raise e] of the result type [res].
    - A Python [float] is a rational of [Q].  The scores are computed in
      exact arithmetic: rounding is not modelled there, and the one
      infinite value the code produces ([chi_squared]) has its own
      constructor.  The key-length analysis, whose result is decided by
      the order of nearly equal numbers, is written over a [rounding]
      applied to the result of every float operation: [binary64] for the
      arithmetic of Python, [exact] for none.
    - The [random] module is an explicit tape of draws, threaded through
      the code; every call decodes one entry into one of the outcomes the
      Python call can produce. *)

From Stdlib Require Import Ascii String QArith Qabs Qminmax Qround Qpower Lqa DecimalString.
From Stdlib Require Qcanon.
From stdpp Require Import gmap strings list sorting.

Local Open Scope nat_scope.

(** ** Python primitives *)

Module py.

Inductive exn : Set := ValueError | IndexError | ZeroDivisionError | KeyError.

Inductive res (A : Type) : Type :=
| Ok (a : A)
| Raise (e : exn).
Global Arguments Ok {A} a.
Global Arguments Raise {A} e.

Global Instance res_ret : MRet res := λ A a, Ok a.
Global Instance res_bind : MBind res := λ A B f m,
  match m with Ok a => f a | Raise e => Raise e end.

Abbreviation str := (list ascii).

Definition lit (s : string) : str := list_ascii_of_string s.

Definition code (c : ascii) : nat := nat_of_ascii c.

(** The classes and the case of the ASCII characters.  The characters
    from 128 on are left unclassified and unchanged: Python classifies
    some of them, which is why the properties that depend on it assume
    [isascii]. *)
Definition is_digit (c : ascii) : bool := (48 <=? code c) && (code c <=? 57).
Definition is_upper (c : ascii) : bool := (65 <=? code c) && (code c <=? 90).
Definition is_lower (c : ascii) : bool := (97 <=? code c) && (code c <=? 122).
Definition is_alpha (c : ascii) : bool := is_upper c || is_lower c.

(** [s.isascii()]: every character is below 128 (the empty string too). *)
Definition isascii (s : str) : bool := forallb (λ c, code c <? 128) s.

(** [s.isdigit()], [s.isalpha()] on ASCII text: every character, and at
    least one. *)
Definition isdigit (s : str) : bool := negb (bool_decide (s = [])) && forallb is_digit s.
Definition isalpha (s : str) : bool := negb (bool_decide (s = [])) && forallb is_alpha s.

Definition upper_char (c : ascii) : ascii :=
  if is_lower c then ascii_of_nat (code c - 32) else c.
Definition upper (s : str) : str := upper_char <$> s.

(** [str(n)] for a natural number. *)
Definition str_of_nat (n : nat) : str :=
  list_ascii_of_string (NilZero.string_of_uint (Nat.to_uint n)).

(** [l[i]] and [l[i] = x] raise [IndexError] out of range. *)
Definition getitem {A} (l : list A) (i : nat) : res A :=
  match l !! i with Some x => Ok x | None => Raise IndexError end.
Definition setitem {A} (l : list A) (i : nat) (x : A) : res (list A) :=
  if bool_decide (i < length l) then Ok (<[i:=x]> l) else Raise IndexError.

(** [s.index(sub)]: the first offset at which [sub] occurs. *)
Fixpoint starts_with (sub s : str) : bool :=
  match sub, s with
  | [], _ => true
  | a :: sub', b :: s' => bool_decide (a = b) && starts_with sub' s'
  | _ :: _, [] => false
  end.
Fixpoint find_from (sub s : str) (i : nat) : option nat :=
  if starts_with sub s then Some i
  else match s with
       | [] => None
       | _ :: s' => find_from sub s' (S i)
       end.
Definition index (s sub : str) : res nat :=
  match find_from sub s 0 with Some i => Ok i | None => Raise ValueError end.

(** [s.replace(' ', '')] and [s.rstrip('X')]. *)
Definition remove_spaces (s : str) : str :=
  filter (λ c, c ≠ " "%char) s.
Fixpoint rstrip (c : ascii) (s : str) : str :=
  match s with
  | [] => []
  | a :: s' =>
      match rstrip c s' with
      | [] => if bool_decide (a = c) then [] else [a]
      | r => a :: r
      end
  end.

(** [math.ceil(a / b)] on natural numbers. *)
Definition ceil_div (a b : nat) : res nat :=
  if bool_decide (b = 0) then Raise ZeroDivisionError else Ok ((a + b - 1) / b).

(** A [for] loop over a list, threading the loop state. *)
Fixpoint for_each {A S} (l : list A) (body : A → S → res S) (s : S) : res S :=
  match l with
  | [] => Ok s
  | x :: l' => s' ← body x s; for_each l' body s'
  end.

(** [sorted(l, key=key)]: Python's sort is stable and compares keys with
    [<] only.  On keys that [<] orders as a strict weak order every stable
    sort returns the same list; the model is the insertion sort. *)
Section sorted.
Context {A K : Type} (key : A → K) (ltb : K → K → bool).

Fixpoint insert_by (x : A) (l : list A) : list A :=
  match l with
  | [] => [x]
  | y :: l' => if ltb (key y) (key x) then y :: insert_by x l' else x :: y :: l'
  end.

Definition sorted (l : list A) : list A := foldr insert_by [] l.
End sorted.

(** [sorted(l, key=key, reverse=True)]: descending, still stable. *)
Definition sorted_reverse {A K} (key : A → K) (ltb : K → K → bool) (l : list A) : list A :=
  sorted key (flip ltb) l.

(** [itertools.permutations(l)]: every choice of a first element, in the
    order of [l], followed by the permutations of the rest. *)
Fixpoint selections {A} (l : list A) : list (A * list A) :=
  match l with
  | [] => []
  | x :: l' => (x, l') :: (prod_map id (cons x) <$> selections l')
  end.
Fixpoint permutations_n {A} (n : nat) (l : list A) : list (list A) :=
  match n with
  | 0 => [[]]
  | S n' => p ← selections l; (cons p.1) <$> permutations_n n' p.2
  end.
Definition permutations {A} (l : list A) : list (list A) := permutations_n (length l) l.

(** [range(a, b)] and the slice [s[i:j]] for non-negative bounds. *)
Definition range (a b : nat) : list nat := seq a (b - a).
Definition slice {A} (s : list A) (i j : nat) : list A := take (j - i) (drop i s).

(** Floats, as exact rationals: [a < b], [a / b], [min(a, b)], [max(a, b)]. *)
Definition Qltb (a b : Q) : bool := negb (Qle_bool b a).
Definition div (a b : Q) : res Q :=
  if Qeq_bool b 0 then Raise ZeroDivisionError else Ok (a / b)%Q.
Definition min_ (a b : Q) : Q := if Qltb b a then b else a.
Definition max_ (a b : Q) : Q := if Qltb a b then b else a.
Definition of_nat (n : nat) : Q := inject_Z (Z.of_nat n).

(** Floats with their rounding.  A float operation returns the float
    nearest to the exact result; [fl] stands for that last step. *)
Definition rounding : Type := Q → Q.
Definition exact : rounding := λ x, x.

(** binary64: 53 significant bits, numbers below 2^-1022 spaced 2^-1074
    apart, round to nearest and ties to the even significand.  Overflow
    is left out (it takes a result of 1.8e308). *)
Definition floor_log2 (x : Q) : Z :=
  let e := (Z.log2 (Qnum x) - Z.log2 (Zpos (Qden x)))%Z in
  if Qle_bool (2 ^ e) x then e else (e - 1)%Z.
Definition round_half_even (m : Q) : Z :=
  let f := Qfloor m in
  match Qcompare (m - inject_Z f) (1 # 2) with
  | Lt => f
  | Gt => (f + 1)%Z
  | Eq => if Z.even f then f else (f + 1)%Z
  end.
Definition binary64 : rounding := λ x,
  let x := Qred x in
  if Qeq_bool x 0 then 0%Q
  else
    let a := Qabs x in
    let q := Z.max (floor_log2 a - 52) (-1074) in
    let n := round_half_even (a / 2 ^ q) in
    Qred (inject_Z (Z.sgn (Qnum x) * n) * 2 ^ q).

(** [a / b] on floats. *)
Definition fdiv (fl : rounding) (a b : Q) : res Q :=
  if Qeq_bool b 0 then Raise ZeroDivisionError else Ok (fl (a / b)%Q).

(** [collections.Counter(l)] and [d[k]] on a dictionary. *)
Definition Counter `{Countable A} (l : list A) : gmap A nat :=
  foldl (λ m c, <[c := S (default 0 (m !! c))]> m) ∅ l.
Definition subscript `{Countable A} {V} (d : gmap A V) (k : A) : res V :=
  match d !! k with Some v => Ok v | None => Raise KeyError end.

(** [x in s] on a set. *)
Definition contains `{Countable A} (s : gset A) (x : A) : bool := bool_decide (x ∈ s).

(** [' ' in s] on a string, [s.split()] and [' '.join(l)].  The
    whitespace of [split] is, on the ASCII range, the codes 9..13 and
    28..32. *)
Definition is_space (c : ascii) : bool :=
  ((9 <=? code c) && (code c <=? 13)) || ((28 <=? code c) && (code c <=? 32)).
Fixpoint split_from (s word : str) : list str :=
  match s with
  | [] => if bool_decide (word = []) then [] else [word]
  | c :: s' =>
      if is_space c
      then (if bool_decide (word = []) then split_from s' []
            else word :: split_from s' [])
      else split_from s' (word ++ [c])
  end.
Definition split (s : str) : list str := split_from s [].

End py.
Import py.

(** ** cipher.py *)

Module cipher.

Definition keyword_to_numeric (keyword : str) : res str :=
  let indexed_chars := imap (λ i char, (upper_char char, i)) keyword in
  let sorted_chars := sorted fst (λ a b, bool_decide (code a < code b)) indexed_chars in
  let numeric_key := replicate (length keyword) (lit "0") in
  numeric_key ← for_each (imap (λ r p, (S r, p)) sorted_chars)
    (λ '(rank, (_, original_idx)) numeric_key,
       setitem numeric_key original_idx (str_of_nat rank))
    numeric_key;
  Ok (concat numeric_key).

Definition validate_key (key : str) : bool :=
  if bool_decide (key = []) then false
  else if isdigit key then
    let key_set : gset str := list_to_set ((λ c, [c]) <$> key) in
    let expected_set : gset str := list_to_set (str_of_nat <$> seq 1 (length key)) in
    bool_decide (key_set = expected_set)
  else isalpha key.

Definition normalize_key (key : str) : res str :=
  if negb (validate_key key) then Raise ValueError
  else if isdigit key then Ok key
  else keyword_to_numeric key.

Definition encrypt (plaintext key : str) (keep_spaces : bool) : res str :=
  numeric_key ← normalize_key key;
  let key_length := length numeric_key in
  let plaintext := if negb keep_spaces then remove_spaces plaintext else plaintext in
  num_rows ← ceil_div (length plaintext) key_length;
  let total_chars := num_rows * key_length in
  let padding_needed := total_chars - length plaintext in
  let padded_text := plaintext ++ replicate padding_needed "X"%char in
  let matrix :=
    (λ i, (λ j, let idx := i * key_length + j in
                match padded_text !! idx with Some c => c | None => "X"%char end)
            <$> seq 0 key_length) <$> seq 0 num_rows in
  for_each (seq 1 key_length)
    (λ col_num ciphertext,
       col_idx ← index numeric_key (str_of_nat col_num);
       for_each matrix
         (λ row ciphertext, c ← getitem row col_idx; Ok (ciphertext ++ [c]))
         ciphertext)
    [].

Definition decrypt (ciphertext key : str) : res str :=
  numeric_key ← normalize_key key;
  let key_length := length numeric_key in
  num_rows ← ceil_div (length ciphertext) key_length;
  let matrix : list (list str) := replicate num_rows (replicate key_length []) in
  '(matrix, _) ← for_each (seq 1 key_length)
    (λ col_num st,
       col_idx ← index numeric_key (str_of_nat col_num);
       for_each (seq 0 num_rows)
         (λ row_idx '((matrix, char_idx) : list (list str) * nat),
            if bool_decide (char_idx < length ciphertext) then
              c ← getitem ciphertext char_idx;
              row ← getitem matrix row_idx;
              row ← setitem row col_idx [c];
              Ok (<[row_idx:=row]> matrix, S char_idx)
            else Ok (matrix, char_idx))
         st)
    (matrix, 0);
  let plaintext := concat ((λ row : list str, concat row) <$> matrix) in
  Ok (rstrip "X" plaintext).

Definition get_key_permutations (length : nat) : list str :=
  let digits := str_of_nat <$> range 1 (length + 1) in
  (λ p : list str, concat p) <$> permutations digits.

(** The dictionary that [visualize_encryption] returns. *)
Record visualization : Type := Visualization {
  matrix : list str;
  key : str;
  column_order : list nat;
  num_rows : nat;
  num_cols : nat }.

Definition visualize_encryption (plaintext key : str) : res visualization :=
  numeric_key ← normalize_key key;
  let key_length := length numeric_key in
  let plaintext := remove_spaces plaintext in
  num_rows ← ceil_div (length plaintext) key_length;
  let total_chars := num_rows * key_length in
  let padding_needed := total_chars - length plaintext in
  let padded_text := plaintext ++ replicate padding_needed "X"%char in
  let matrix :=
    (λ i, (λ j, let idx := i * key_length + j in
                match padded_text !! idx with Some c => c | None => "X"%char end)
            <$> seq 0 key_length) <$> seq 0 num_rows in
  column_order ← for_each (seq 1 key_length)
    (λ col_num column_order,
       col_idx ← index numeric_key (str_of_nat col_num);
       Ok (column_order ++ [col_idx]))
    [];
  Ok (Visualization matrix numeric_key column_order num_rows key_length).

End cipher.

(** ** scoring.py *)

Module scoring.

Local Open Scope Q_scope.

Definition ENGLISH_FREQ : gmap ascii Q := list_to_map [
  ("A"%char, 8.167); ("B"%char, 1.492); ("C"%char, 2.782); ("D"%char, 4.253);
  ("E"%char, 12.702); ("F"%char, 2.228); ("G"%char, 2.015); ("H"%char, 6.094);
  ("I"%char, 6.966); ("J"%char, 0.153); ("K"%char, 0.772); ("L"%char, 4.025);
  ("M"%char, 2.406); ("N"%char, 6.749); ("O"%char, 7.507); ("P"%char, 1.929);
  ("Q"%char, 0.095); ("R"%char, 5.987); ("S"%char, 6.327); ("T"%char, 9.056);
  ("U"%char, 2.758); ("V"%char, 0.978); ("W"%char, 2.360); ("X"%char, 0.150);
  ("Y"%char, 1.974); ("Z"%char, 0.074) ].

Definition COMMON_BIGRAMS : gmap str Q := list_to_map (prod_map lit id <$> [
  ("TH", 3.56); ("HE", 3.07); ("IN", 2.43); ("ER", 2.05); ("AN", 1.99);
  ("RE", 1.85); ("ON", 1.76); ("AT", 1.49); ("EN", 1.45); ("ND", 1.35);
  ("TI", 1.34); ("ES", 1.34); ("OR", 1.28); ("TE", 1.20); ("OF", 1.17);
  ("ED", 1.17); ("IS", 1.13); ("IT", 1.12); ("AL", 1.09); ("AR", 1.07);
  ("ST", 1.05); ("TO", 1.04); ("NT", 1.04); ("NG", 0.95); ("SE", 0.93);
  ("HA", 0.93); ("AS", 0.87); ("OU", 0.87); ("IO", 0.83); ("LE", 0.83) ])%string.

Definition COMMON_TRIGRAMS : gmap str Q := list_to_map (prod_map lit id <$> [
  ("THE", 3.51); ("AND", 1.59); ("ING", 1.14); ("HER", 0.82); ("HAT", 0.65);
  ("HIS", 0.60); ("THA", 0.60); ("ERE", 0.56); ("FOR", 0.56); ("ENT", 0.53);
  ("ION", 0.53); ("TER", 0.51); ("WAS", 0.51); ("YOU", 0.48); ("ITH", 0.48);
  ("VER", 0.47); ("ALL", 0.46); ("WIT", 0.46); ("THI", 0.46); ("TIO", 0.45) ])%string.

Definition COMMON_QUADGRAMS : gmap str Q := list_to_map (prod_map lit id <$> [
  ("TION", 0.31); ("THAT", 0.27); ("THER", 0.24); ("WITH", 0.23); ("MENT", 0.19);
  ("IONS", 0.17); ("THES", 0.16); ("ATIO", 0.15); ("FTHE", 0.14); ("DTHE", 0.13);
  ("ANDT", 0.13); ("INTH", 0.12); ("HERE", 0.12); ("STHE", 0.12); ("OTHE", 0.11) ])%string.

(** The value of [chi_squared]: a float or [float('inf')]. *)
Inductive chi : Type := Fin (q : Q) | Inf.

Definition chi_squared (text : str) : res chi :=
  if bool_decide (text = []) then Ok Inf
  else
    let text := upper text in
    let text_length := length (filter (λ c, is_alpha c = true) text) in
    if bool_decide (text_length = 0%nat) then Ok Inf
    else
      let letter_counts := Counter (filter (λ c, is_alpha c = true) text) in
      chi_sq ← for_each (lit "ABCDEFGHIJKLMNOPQRSTUVWXYZ")
        (λ letter chi_sq,
           let observed := default 0%nat (letter_counts !! letter) in
           freq ← subscript ENGLISH_FREQ letter;
           per ← div freq 100;
           let expected := per * of_nat text_length in
           if Qltb 0 expected then
             term ← div ((of_nat observed - expected) ^ 2) expected;
             Ok (chi_sq + term)
           else Ok chi_sq)
        0;
      Ok (Fin chi_sq).

Definition score_letter_frequency (text : str) : res Q :=
  chi_sq ← chi_squared text;
  match chi_sq with
  | Fin chi_sq => q ← div chi_sq 500; Ok (max_ 0 (1 - q))
  | Inf => Ok 0
  end.

(** Whether [text[i]], ..., [text[i + n - 1]] are all letters, stopping at
    the first that is not (the [and] chain and the [all] of the source). *)
Fixpoint all_alpha (text : str) (i n : nat) : res bool :=
  match n with
  | O => Ok true
  | S n' => c ← getitem text i;
            if is_alpha c then all_alpha text (S i) n' else Ok false
  end.

(** The shared body of [score_bigrams], [score_trigrams] and
    [score_quadgrams], for n-grams of length [n]. *)
Definition score_ngrams (n : nat) (table : gmap str Q) (text : str) : res Q :=
  if bool_decide (length text < n)%nat then Ok 0
  else
    let text := upper text in
    '(ngram_count, total_ngrams) ← for_each (range 0 (length text - (n - 1)))
      (λ i '((ngram_count, total_ngrams) : nat * nat),
         ok ← all_alpha text i n;
         if ok : bool then
           let ngram := slice text i (i + n) in
           let total_ngrams := S total_ngrams in
           if bool_decide (is_Some (table !! ngram))
           then Ok (S ngram_count, total_ngrams)
           else Ok (ngram_count, total_ngrams)
         else Ok (ngram_count, total_ngrams))
      (0%nat, 0%nat);
    if bool_decide (total_ngrams = 0%nat) then Ok 0
    else div (of_nat ngram_count) (of_nat total_ngrams).

Definition score_bigrams : str → res Q := score_ngrams 2 COMMON_BIGRAMS.
Definition score_trigrams : str → res Q := score_ngrams 3 COMMON_TRIGRAMS.
Definition score_quadgrams : str → res Q := score_ngrams 4 COMMON_QUADGRAMS.

Definition score_text (text : str) : res Q :=
  if bool_decide (text = []) || bool_decide (length text < 2)%nat then Ok 0
  else
    freq ← score_letter_frequency text;
    let freq_score := freq * 30 in
    bigram ← score_bigrams text;
    let bigram_score := bigram * 25 in
    trigram ← score_trigrams text;
    let trigram_score := trigram * 25 in
    quadgram ← score_quadgrams text;
    let quadgram_score := quadgram * 20 in
    let total_score := freq_score + bigram_score + trigram_score + quadgram_score in
    Ok total_score.

Definition score_with_dictionary (text : str) (dictionary_score : Q) : res Q :=
  base_score ← score_text text;
  let combined_score := base_score * (1 + dictionary_score * 0.5) in
  Ok (min_ combined_score 150).

End scoring.

(** ** dictionary.py *)

Module dictionary.

Definition COMMON_WORDS_literal : list string := [
    "THE"; "BE"; "TO"; "OF"; "AND"; "A"; "IN"; "THAT"; "HAVE"; "I"; "IT";
    "FOR"; "NOT"; "ON"; "WITH"; "HE"; "AS"; "YOU"; "DO"; "AT"; "THIS";
    "BUT"; "HIS"; "BY"; "FROM"; "THEY"; "WE"; "SAY"; "HER"; "SHE"; "OR";
    "AN"; "WILL"; "MY"; "ONE"; "ALL"; "WOULD"; "THERE"; "THEIR"; "WHAT";
    "CAN"; "OUT"; "UP"; "GET"; "GO"; "COME"; "KNOW"; "TIME"; "TAKE"; "THEM";
    "SEE"; "HIM"; "YEAR"; "SO"; "THINK"; "WHEN"; "WHICH"; "MAKE"; "THAN";
    "LOOK"; "WAY"; "BEEN"; "CALL"; "WHO"; "OIL"; "ITS"; "NOW"; "FIND";
    "LONG"; "DOWN"; "DAY"; "DID"; "COULD"; "OVER"; "NEW"; "WORK"; "LAST";
    "WANT"; "ALSO"; "PEOPLE"; "GIVE"; "USE"; "WATER"; "SAID"; "EACH"; "SHE";
    "WHICH"; "DO"; "THEIR"; "IF"; "MAN"; "LIFE"; "WRITE"; "RIGHT"; "TOO";
    "ANY"; "SAME"; "THREE"; "HIGH"; "HAND"; "THING"; "PLACE"; "OLD";
    "FOLLOW"; "CAME"; "GOOD"; "SENTENCE"; "SET"; "EVERY"; "ANSWER";
    "SCHOOL"; "CHANGE"; "PLAY"; "SPELL"; "AIR"; "AWAY"; "ANIMAL"; "HOUSE";
    "POINT"; "PAGE"; "LETTER"; "MOTHER"; "WORLD"; "STILL"; "LEARN"; "PLANT";
    "COVER"; "FOOD"; "SUN"; "FOUR"; "BETWEEN"; "STATE"; "KEEP"; "EYE";
    "NEVER"; "LAST"; "LET"; "THOUGHT"; "CITY"; "TREE"; "GREAT"; "WHERE";
    "HELP"; "THROUGH"; "MUCH"; "BEFORE"; "LINE"; "RIGHT"; "MEAN"; "OLD";
    "ANY"; "SAME"; "TELL"; "BOY"; "FOLLOW"; "CAME"; "WANT"; "SHOW"; "ALSO";
    "AROUND"; "FORM"; "THREE"; "SMALL"; "SET"; "PUT"; "END"; "WHY"; "ASKED";
    "WENT"; "MEN"; "READ"; "NEED"; "LAND"; "DIFFERENT"; "HOME"; "MOVE";
    "TRY"; "KIND"; "HAND"; "PICTURE"; "AGAIN"; "CHANGE"; "OFF"; "PLAY";
    "SPELL"; "AIR"; "AWAY"; "ANIMAL"; "HOUSE"; "POINT"; "FOUND"; "STUDY";
    "STILL"; "LEARN"; "SHOULD"; "AMERICA"; "WORLD"; "HIGH"; "EVERY"; "NEAR";
    "ADD"; "FOOD"; "BETWEEN"; "OWN"; "BELOW"; "COUNTRY"; "PLANT"; "LAST";
    "SCHOOL"; "FATHER"; "KEEP"; "TREE"; "NEVER"; "START"; "CITY"; "EARTH";
    "EYE"; "LIGHT"; "THOUGHT"; "HEAD"; "UNDER"; "STORY"; "SAW"; "LEFT";
    "DONT"; "FEW"; "WHILE"; "ALONG"; "MIGHT"; "CLOSE"; "SOMETHING"; "SEEM";
    "NEXT"; "HARD"; "OPEN"; "EXAMPLE"; "BEGIN"; "LIFE"; "ALWAYS"; "THOSE";
    "BOTH"; "PAPER"; "TOGETHER"; "GOT"; "GROUP"; "OFTEN"; "RUN";
    "IMPORTANT"; "UNTIL"; "CHILDREN"; "SIDE"; "FEET"; "CAR"; "MILE";
    "NIGHT"; "WALK"; "WHITE"; "SEA"; "BEGAN"; "GROW"; "TOOK"; "RIVER";
    "FOUR"; "CARRY"; "STATE"; "ONCE"; "BOOK"; "HEAR"; "STOP"; "WITHOUT";
    "SECOND"; "LATER"; "MISS"; "IDEA"; "ENOUGH"; "EAT"; "FACE"; "WATCH";
    "FAR"; "INDIAN"; "REAL"; "ALMOST"; "LET"; "ABOVE"; "GIRL"; "SOMETIMES";
    "MOUNTAIN"; "CUT"; "YOUNG"; "TALK"; "SOON"; "LIST"; "SONG"; "BEING";
    "LEAVE"; "FAMILY"; "BODY"; "MUSIC"; "COLOR"; "STAND"; "SUN";
    "QUESTIONS"; "FISH"; "AREA"; "MARK"; "DOG"; "HORSE"; "BIRDS"; "PROBLEM";
    "COMPLETE"; "ROOM"; "KNEW"; "SINCE"; "EVER"; "PIECE"; "TOLD"; "USUALLY";
    "DIDNT"; "FRIENDS"; "EASY"; "HEARD"; "ORDER"; "RED"; "DOOR"; "SURE";
    "BECOME"; "TOP"; "SHIP"; "ACROSS"; "TODAY"; "DURING"; "SHORT"; "BETTER";
    "BEST"; "HOWEVER"; "LOW"; "HOURS"; "BLACK"; "PRODUCTS"; "HAPPENED";
    "WHOLE"; "MEASURE"; "REMEMBER"; "EARLY"; "WAVES"; "REACHED"; "LISTEN";
    "WIND"; "ROCK"; "SPACE"; "COVERED"; "FAST"; "SEVERAL"; "HOLD";
    "HIMSELF"; "TOWARD"; "FIVE"; "STEP"; "MORNING"; "PASSED"; "VOWEL";
    "TRUE"; "HUNDRED"; "AGAINST"; "PATTERN"; "NUMERAL"; "TABLE"; "NORTH";
    "SLOWLY"; "MONEY"; "MAP"; "FARM"; "PULLED"; "DRAW"; "VOICE"; "SEEN";
    "COLD"; "CRIED"; "PLAN"; "NOTICE"; "SOUTH"; "SING"; "WAR"; "GROUND";
    "FALL"; "KING"; "TOWN"; "ILL"; "UNIT"; "FIGURE"; "SYSTEM"; "PROGRAM";
    "COMPUTER"; "DATA"; "SECURITY"; "CODE"; "MESSAGE"; "TEXT"; "CIPHER";
    "KEY"; "ENCRYPT"; "DECRYPT"; "ATTACK"; "ALGORITHM"; "METHOD"; "PROCESS";
    "RESULT"; "TEST"; "QUESTION"; "POWER"; "CANNOT"; "ABLE"; "SIX"; "SIZE";
    "DARK"; "BALL"; "MATERIAL"; "SPECIAL"; "HEAVY"; "FINE"; "PAIR";
    "CIRCLE"; "INCLUDE"; "BUILT"; "NOTHING"; "COURSE"; "STAY"; "WHEEL";
    "FULL"; "FORCE"; "BLUE"; "OBJECT"; "DECIDE"; "SURFACE"; "DEEP"; "MOON";
    "ISLAND"; "FOOT"; "YET"; "BUSY"; "TEST"; "RECORD"; "BOAT"; "COMMON";
    "GOLD"; "POSSIBLE"; "PLANE"; "AGE"; "DRY"; "WONDER"; "LAUGH";
    "THOUSAND"; "AGO"; "RAN"; "CHECK"; "GAME"; "SHAPE"; "YES"; "HOT";
    "MISS"; "BROUGHT"; "HEAT"; "SNOW"; "BED"; "BRING"; "SIT"; "PERHAPS";
    "FILL"; "EAST"; "WEIGHT"; "LANGUAGE"; "AMONG"; "QUICK"; "BROWN"; "FOX";
    "JUMPS"; "LAZY"; "OVER"
 ]%string.

Definition COMMON_WORDS : gset str := list_to_set (lit <$> COMMON_WORDS_literal).

Definition find_words_in_text (text : str) (min_length : nat) : list (str * nat * nat) :=
  let text := upper text in
  i ← range 0 (length text);
  j ← range (i + min_length) (min (i + 15) (length text + 1));
  let substring := slice text i j in
  if contains COMMON_WORDS substring then [(substring, i, j)] else [].

Definition score_text_by_dictionary (text : str) : res Q :=
  if bool_decide (text = []) then Ok 0%Q
  else
    let text := upper text in
    let found_words := find_words_in_text text 2 in
    if bool_decide (found_words = []) then Ok 0%Q
    else
      let text_len := length text in
      let coverage := replicate text_len false in
      let found_words :=
        sorted_reverse (λ x : str * nat * nat, x.2 - x.1.2) Nat.ltb found_words in
      coverage ← for_each found_words
        (λ '(word, start, end_) coverage,
           if negb (existsb id (slice coverage start end_)) then
             for_each (range start end_) (λ k coverage, setitem coverage k true) coverage
           else Ok coverage)
        coverage;
      let covered_chars := length (filter (λ b, b = true) coverage) in
      div (of_nat covered_chars) (of_nat text_len).

Definition detect_language (text : str) : res Q :=
  if bool_decide (text = []) then Ok 0%Q
  else
    let words := split (upper text) in
    if bool_decide (words = []) then score_text_by_dictionary text
    else
      let valid_words := length (filter (λ word, contains COMMON_WORDS word = true) words) in
      div (of_nat valid_words) (of_nat (length words)).

Definition find_longest_word (text : str) : str * nat :=
  let text := upper text in
  foldl (λ longest i,
           foldl (λ (longest : str * nat) j,
                    let word := slice text i j in
                    if contains COMMON_WORDS word && (longest.2 <? length word)
                    then (word, length word) else longest)
                 longest (range (i + 1) (length text + 1)))
        ([], 0) (range 0 (length text)).

End dictionary.

(** ** The [random] module, as a tape of draws *)

Module random.

Definition tape : Type := list nat.

(** A computation that consumes draws and may raise. *)
Definition rand (A : Type) : Type := tape → res (A * tape).

Global Instance rand_ret : MRet rand := λ A a t, Ok (a, t).
Global Instance rand_bind : MBind rand := λ A B f m t,
  match m t with Ok (a, t') => f a t' | Raise e => Raise e end.

Definition lift {A} (r : res A) : rand A := λ t,
  match r with Ok a => Ok (a, t) | Raise e => Raise e end.

(** The next draw; an exhausted tape keeps giving 0. *)
Definition draw : rand nat := λ t,
  match t with [] => Ok (0, []) | n :: t' => Ok (n, t') end.

Fixpoint rfor_each {A S} (l : list A) (body : A → S → rand S) (s : S) : rand S :=
  match l with
  | [] => mret s
  | x :: l' => s' ← body x s; rfor_each l' body s'
  end.

(** [random.shuffle(l)]: the draw, read in the factorial number system,
    picks the next element among those left. *)
Fixpoint arrange {A} (n : nat) (l : list A) (len : nat) : list A :=
  match len with
  | 0 => []
  | S len' =>
      match l !! (n `mod` length l) with
      | Some x => x :: arrange (n `div` length l) (delete (n `mod` length l) l) len'
      | None => []
      end
  end.
Definition shuffle {A} (l : list A) : rand (list A) :=
  n ← draw; mret (arrange n l (length l)).

(** [random.sample(range(n), 2)]: two distinct indices below [n]. *)
Definition sample2 (n : nat) : rand (nat * nat) :=
  if bool_decide (n < 2) then lift (Raise ValueError)
  else
    a ← draw; b ← draw;
    let i := a `mod` n in
    let j := b `mod` (n - 1) in
    mret (i, if bool_decide (j < i) then j else S j).

(** [random.choice(l)]. *)
Definition choice {A} (l : list A) : rand A :=
  if bool_decide (l = []) then lift (Raise IndexError)
  else a ← draw; lift (getitem l (a `mod` length l)).

(** [random.random()]: a multiple of 2^-53 in [0, 1). *)
Definition random : rand Q :=
  a ← draw; mret (Z.of_nat a `mod` 2 ^ 53 # 2 ^ 53)%Q.

End random.

(** ** attack.py *)

Module attack.
Import random.

Definition candidate : Type := str * str * Q.

Definition evaluate_plaintext (plaintext : str) : res Q :=
  base_score ← scoring.score_text plaintext;
  dict_score ← dictionary.score_text_by_dictionary plaintext;
  combined_score ← scoring.score_with_dictionary plaintext dict_score;
  Ok combined_score.

(** [progress_callback] defaults to [None]; the progress counters feed
    nothing else and are left out. *)
Definition brute_force_attack (ciphertext : str) (max_key_length : nat) : list candidate :=
  let results : list candidate :=
    key_length ← range 1 (max_key_length + 1);
    let digits := str_of_nat <$> range 1 (key_length + 1) in
    let key_perms := (λ p : list str, concat p) <$> permutations digits in
    key ← key_perms;
    match (plaintext ← cipher.decrypt ciphertext key;
           base_score ← scoring.score_text plaintext;
           dict_score ← dictionary.score_text_by_dictionary plaintext;
           combined_score ← scoring.score_with_dictionary plaintext dict_score;
           Ok (key, plaintext, combined_score)) with
    | Ok r => [r]
    | Raise _ => []
    end in
  sorted_reverse (λ x : candidate, x.2) Qltb results.

Definition generate_random_key (length : nat) : rand str :=
  let digits := range 1 (length + 1) in
  digits ← shuffle digits;
  mret (concat (str_of_nat <$> digits)).

Definition swap_random_positions (key : str) : rand str :=
  let key_list := key in
  '(i, j) ← sample2 (length key);
  lift (a ← getitem key_list j;
        b ← getitem key_list i;
        key_list ← setitem key_list i a;
        key_list ← setitem key_list j b;
        Ok key_list).

(** The loop [while key2[parent2_pos] in child: parent2_pos += 1] reads
    [key2] from [parent2_pos] on; [rest] is that suffix. *)
Fixpoint skip_placed (rest child : str) (parent2_pos : nat) : res nat :=
  match rest with
  | [] => Raise IndexError
  | c :: rest' =>
      if bool_decide (c ∈ child) then skip_placed rest' child (S parent2_pos)
      else Ok parent2_pos
  end.

(** [child] is a list of one-character strings, held as the characters. *)
Definition crossover_keys (key1 key2 : str) : rand str :=
  let length_ := length key1 in
  '(a, b) ← sample2 length_;
  let point1 := a `min` b in
  let point2 := a `max` b in
  let child := replicate length_ "0"%char in
  lift (child ← for_each (range point1 point2)
          (λ i child, c ← getitem key1 i; setitem child i c) child;
        '(child, _) ← for_each (range 0 point1 ++ range point2 length_)
          (λ i '((child, parent2_pos) : str * nat),
             parent2_pos ← skip_placed (drop parent2_pos key2) child parent2_pos;
             c ← getitem key2 parent2_pos;
             child ← setitem child i c;
             Ok (child, S parent2_pos))
          (child, 0);
        Ok child).

Definition mutate_key (key : str) : rand str := swap_random_positions key.

Record hc_state : Type := HcState {
  current_key : str; current_plaintext : str; current_score : Q;
  best_key : str; best_plaintext : str; best_score : Q;
  no_improvement_count : nat }.

Definition max_no_improvement : nat := 100.

(** One pass through the body of the [for] loop of [hill_climbing_attack]. *)
Definition hc_iteration (ciphertext : str) (key_length : nat) (st : hc_state) : rand hc_state :=
  neighbor_key ← swap_random_positions (current_key st);
  neighbor_plaintext ← lift (cipher.decrypt ciphertext neighbor_key);
  neighbor_score ← lift (evaluate_plaintext neighbor_plaintext);
  if Qltb (current_score st) neighbor_score then
    if Qltb (best_score st) neighbor_score then
      mret (HcState neighbor_key neighbor_plaintext neighbor_score
                    neighbor_key neighbor_plaintext neighbor_score 0)
    else
      mret (HcState neighbor_key neighbor_plaintext neighbor_score
                    (best_key st) (best_plaintext st) (best_score st) 0)
  else
    let no_improvement_count := S (no_improvement_count st) in
    if bool_decide (max_no_improvement ≤ no_improvement_count) then
      current_key ← generate_random_key key_length;
      current_plaintext ← lift (cipher.decrypt ciphertext current_key);
      current_score ← lift (evaluate_plaintext current_plaintext);
      mret (HcState current_key current_plaintext current_score
                    (best_key st) (best_plaintext st) (best_score st) 0)
    else
      mret (HcState (current_key st) (current_plaintext st) (current_score st)
                    (best_key st) (best_plaintext st) (best_score st)
                    no_improvement_count).

Definition hc_start (ciphertext : str) (key_length : nat) : rand hc_state :=
  current_key ← generate_random_key key_length;
  current_plaintext ← lift (cipher.decrypt ciphertext current_key);
  current_score ← lift (evaluate_plaintext current_plaintext);
  mret (HcState current_key current_plaintext current_score
                current_key current_plaintext current_score 0).

(** The state after the loop has run [max_iterations] times. *)
Definition hc_run (ciphertext : str) (key_length max_iterations : nat) : rand hc_state :=
  st ← hc_start ciphertext key_length;
  rfor_each (range 0 max_iterations) (λ _, hc_iteration ciphertext key_length) st.

Definition hill_climbing_attack (ciphertext : str) (key_length max_iterations : nat)
    : rand candidate :=
  st ← hc_run ciphertext key_length max_iterations;
  mret (best_key st, best_plaintext st, best_score st).

Record ga_state : Type := GaState {
  population : list str;
  ga_best_key : option str; ga_best_plaintext : option str; ga_best_score : Q }.

(** The [while len(new_population) < population_size] loop adds one child
    per pass, so it makes [population_size - len(new_population)] passes. *)
Fixpoint ga_refill (passes : nat) (selected new_population : list str) : rand (list str) :=
  match passes with
  | 0 => mret new_population
  | S passes' =>
      parent1 ← choice selected;
      parent2 ← choice selected;
      child ← crossover_keys parent1 parent2;
      u ← random;
      child ← (if Qltb u 0.1 then mutate_key child else mret child);
      ga_refill passes' selected (new_population ++ [child])
  end.

(** One generation: the body of the [for] loop of [genetic_algorithm_attack]. *)
Definition ga_generation (ciphertext : str) (population_size : nat) (st : ga_state)
    : rand ga_state :=
  '(fitness_scores, best) ← lift (for_each (population st)
    (λ key '((fitness_scores, best) : list candidate * (option str * option str * Q)),
       plaintext ← cipher.decrypt ciphertext key;
       score ← evaluate_plaintext plaintext;
       let fitness_scores := fitness_scores ++ [(key, plaintext, score)] in
       if Qltb best.2 score then Ok (fitness_scores, (Some key, Some plaintext, score))
       else Ok (fitness_scores, best))
    ([], (ga_best_key st, ga_best_plaintext st, ga_best_score st)));
  let fitness_scores := sorted_reverse (λ x : candidate, x.2) Qltb fitness_scores in
  let selected := (λ item : candidate, item.1.1) <$> take (population_size `div` 2) fitness_scores in
  let new_population := selected in
  new_population ← ga_refill (population_size - length new_population) selected new_population;
  mret (GaState new_population best.1.1 best.1.2 best.2).

Definition ga_start (key_length population_size : nat) : rand ga_state :=
  population ← rfor_each (range 0 population_size)
    (λ _ population, key ← generate_random_key key_length; mret (population ++ [key])) [];
  mret (GaState population None None 0).

(** The state after [generations] generations. *)
Definition ga_run (ciphertext : str) (key_length population_size generations : nat)
    : rand ga_state :=
  st ← ga_start key_length population_size;
  rfor_each (range 0 generations) (λ _, ga_generation ciphertext population_size) st.

Definition genetic_algorithm_attack (ciphertext : str)
    (key_length population_size generations : nat)
    : rand (option str * option str * Q) :=
  st ← ga_run ciphertext key_length population_size generations;
  mret (ga_best_key st, ga_best_plaintext st, ga_best_score st).

(** An insertion-ordered [dict] with distinct keys, as an association
    list: [d[k] = v], [d[k]] and [d.get(k, v)]. *)
Definition dict_set `{EqDecision K} {V} (d : list (K * V)) (k : K) (v : V)
    : list (K * V) :=
  if bool_decide (k ∈ d.*1)
  then (λ p, if bool_decide (p.1 = k) then (k, v) else p) <$> d
  else d ++ [(k, v)].
Definition dict_get `{EqDecision K} {V} (d : list (K * V)) (k : K) : res V :=
  match list_find (λ p, p.1 = k) d with
  | Some (_, p) => Ok p.2
  | None => Raise KeyError
  end.
Definition dict_get_or `{EqDecision K} {V} (d : list (K * V)) (k : K) (v : V) : V :=
  match list_find (λ p, p.1 = k) d with
  | Some (_, p) => p.2
  | None => v
  end.

(** [ic] is a float from its first value [0.0] on: every [+=] and the
    [/=] round, and the integers they take are converted first. *)
Definition calculate_ic_with (fl : rounding) (text : str) : res Q :=
  if bool_decide (length text < 2) then Ok 0%Q
  else
    let text := upper text in
    let '(letter_counts, total_letters) :=
      foldl (λ '((letter_counts, total_letters) : list (ascii * nat) * nat) char,
               if is_alpha char
               then (dict_set letter_counts char
                       (dict_get_or letter_counts char 0 + 1),
                     total_letters + 1)
               else (letter_counts, total_letters))
            ([], 0) text in
    if bool_decide (total_letters < 2) then Ok 0%Q
    else
      let ic := foldl (λ ic count, fl (ic + fl (of_nat (count * (count - 1)))))%Q 0%Q
                      letter_counts.*2 in
      fdiv fl ic (fl (of_nat (total_letters * (total_letters - 1)))).

(** [calculate_ic] in exact arithmetic. *)
Definition calculate_ic : str → res Q := calculate_ic_with exact.

Record analysis : Type := Analysis {
  length_ : nat;
  factors : list nat;
  ic_scores : list (nat * Q);
  suggested_key_lengths : list nat }.

(** [ic_sum] starts as the integer 0 and is a float from the first [+=]
    on; [0.067] is the float nearest to 67/1000. *)
Definition analyze_ciphertext (fl : rounding) (ciphertext : str) : res analysis :=
  let length_ := length ciphertext in
  let factors := filter (λ i, length_ `mod` i = 0) (range 2 (length_ `min` 20)) in
  ic_scores ← for_each (range 2 ((length_ `div` 2) `min` 15))
    (λ key_len ic_scores,
       let columns : list str := replicate key_len [] in
       columns ← for_each (imap (λ i char, (i, char)) ciphertext)
         (λ '(i, char) columns,
            col ← getitem columns (i `mod` key_len);
            setitem columns (i `mod` key_len) (col ++ [char]))
         columns;
       ic_sum ← for_each columns
         (λ col ic_sum, ic ← calculate_ic_with fl col; Ok (fl (ic_sum + ic)%Q)) 0%Q;
       avg ← fdiv fl ic_sum (fl (of_nat key_len));
       Ok (dict_set ic_scores key_len avg))
    [];
  keyed ← for_each ic_scores.*1
    (λ k keyed, v ← dict_get ic_scores k;
                Ok (keyed ++ [(k, Qabs (fl (v - fl 0.067)%Q))]))
    [];
  let suggested := take 5 ((sorted snd Qltb keyed).*1) in
  Ok (Analysis length_ factors ic_scores suggested).

Definition factorial (n : nat) : nat :=
  if bool_decide (n ≤ 1) then 1
  else foldl (λ result i, result * i) 1 (range 2 (n + 1)).

(** An entry of the list that [smart_attack] returns: the triples of
    [brute_force_attack] and [hill_climbing_attack], and those of
    [genetic_algorithm_attack], whose key and plaintext may be [None]. *)
Definition found (r : candidate) : option str * option str * Q :=
  (Some r.1.1, Some r.1.2, r.2).

Definition smart_attack (ciphertext : str) (min_key_length max_key_length : nat)
    : rand (list (option str * option str * Q)) :=
  let all_results : list (option str * option str * Q) := [] in
  let all_results :=
    if bool_decide (min_key_length ≤ 7) then
      let brute_force_max := 7 `min` max_key_length in
      let brute_results := brute_force_attack ciphertext brute_force_max in
      all_results ++ (found <$> take 10 brute_results)
    else all_results in
  all_results ←
    (if bool_decide (7 < max_key_length) then
       rfor_each (range (8 `max` min_key_length) (max_key_length + 1))
         (λ key_length all_results,
            hc_result ← hill_climbing_attack ciphertext key_length 1000;
            let all_results := all_results ++ [found hc_result] in
            ga_result ← genetic_algorithm_attack ciphertext key_length 100 300;
            mret (all_results ++ [ga_result]))
         all_results
     else mret all_results);
  mret (sorted_reverse (λ x : option str * option str * Q, x.2) Qltb all_results).

End attack.

(** * Vocabulary of the properties *)

(** ** Keys *)

Definition digit_value (c : ascii) : nat := code c - 48.
Definition digit_char (d : nat) : ascii := ascii_of_nat (48 + d).

(** A numeric key of length [n]: the digits 1..n in some order. *)
Definition perm_key (n : nat) (key : str) : Prop :=
  key ≡ₚ digit_char <$> seq 1 n.

(** The rank written at column position [j] of a numeric key, and the
    column position at which it holds the rank [r]. *)
Definition rank_at (key : str) (j : nat) : nat :=
  digit_value (default "0"%char (key !! j)).
Definition col_at (key : str) (r : nat) : nat :=
  match index key (str_of_nat r) with Ok j => j | Raise _ => 0 end.

(** ** The loop bodies of cipher.py, by name *)

Definition place_rank (p : nat * (ascii * nat)) (numeric_key : list str) : res (list str) :=
  setitem numeric_key p.2.2 (str_of_nat p.1).

Definition read_column (col_idx : nat) (row ciphertext : str) : res str :=
  c ← getitem row col_idx; Ok (ciphertext ++ [c]).

Definition emit_column (numeric_key : str) (matrix : list str) (col_num : nat)
    (ciphertext : str) : res str :=
  col_idx ← index numeric_key (str_of_nat col_num);
  for_each matrix (read_column col_idx) ciphertext.

Definition fill_cell (ciphertext : str) (col_idx row_idx : nat)
    (st : list (list str) * nat) : res (list (list str) * nat) :=
  let '(matrix, char_idx) := st in
  if bool_decide (char_idx < length ciphertext) then
    c ← getitem ciphertext char_idx;
    row ← getitem matrix row_idx;
    row ← setitem row col_idx [c];
    Ok (<[row_idx:=row]> matrix, S char_idx)
  else Ok (matrix, char_idx).

Definition fill_column (ciphertext numeric_key : str) (num_rows col_num : nat)
    (st : list (list str) * nat) : res (list (list str) * nat) :=
  col_idx ← index numeric_key (str_of_nat col_num);
  for_each (seq 0 num_rows) (fill_cell ciphertext col_idx) st.

(** ** The transposition matrix *)

Definition pad_cell (padded_text : str) (idx : nat) : ascii :=
  match padded_text !! idx with Some c => c | None => "X"%char end.

(** The text that [encrypt] lays out: stripped of spaces unless kept, and
    padded to full rows. *)
Definition laid_out (plaintext : str) (n : nat) (keep_spaces : bool) : str :=
  let text := if negb keep_spaces then remove_spaces plaintext else plaintext in
  text ++ replicate ((length text + n - 1) / n * n - length text) "X"%char.

(** The offset in the ciphertext of the cell in row [i], column [j] of a
    matrix of [R] rows, and what [decrypt] puts in that cell. *)
Definition offset (key : str) (R i j : nat) : nat := (rank_at key j - 1) * R + i.
Definition read (key c : str) (R i j : nat) : str :=
  match c !! offset key R i j with Some x => [x] | None => [] end.

(** The matrix of [decrypt] once the first [p] cells, in ciphertext order,
    are done. *)
Definition filled (key : str) (n : nat) (c : str) (R p : nat) : list (list str) :=
  (λ i, (λ j, if decide (offset key R i j < p) then read key c R i j else [])
          <$> seq 0 n) <$> seq 0 R.

(** ** Orders on keys and results *)

(** The lexicographic order of two lists, for an order on the elements. *)
Inductive lex_lt {A} (lt : A → A → Prop) : list A → list A → Prop :=
| lex_lt_nil y l : lex_lt lt [] (y :: l)
| lex_lt_head x y l l' : lt x y → lex_lt lt (x :: l) (y :: l')
| lex_lt_tail x l l' : lex_lt lt l l' → lex_lt lt (x :: l) (x :: l').

(** Python's [<] on strings: lexicographic, by character code. *)
Definition char_lt (x y : ascii) : Prop := code x < code y.
Definition str_lt : str → str → Prop := lex_lt char_lt.

(** The order in which [brute_force_attack] enumerates its keys: shorter
    keys first, keys of one length in lexicographic order. *)
Definition key_before (k1 k2 : str) : Prop :=
  length k1 < length k2 ∨ (length k1 = length k2 ∧ str_lt k1 k2).

(** The permutation keys of the lengths 1..m, in that order. *)
Definition all_keys (m : nat) : list str :=
  n ← seq 1 m; permutations (digit_char <$> seq 1 n).

(** One pass through the [try] block of [brute_force_attack]. *)
Definition attempt (ciphertext key : str) : list attack.candidate :=
  match (plaintext ← cipher.decrypt ciphertext key;
         base_score ← scoring.score_text plaintext;
         dict_score ← dictionary.score_text_by_dictionary plaintext;
         combined_score ← scoring.score_with_dictionary plaintext dict_score;
         Ok (key, plaintext, combined_score)) with
  | Ok r => [r]
  | Raise _ => []
  end.

(** The results of [brute_force_attack] before they are sorted. *)
Definition unsorted_results (ciphertext : str) (max_key_length : nat)
    : list attack.candidate :=
  key_length ← range 1 (max_key_length + 1);
  key ← (λ p : list str, concat p)
          <$> permutations (str_of_nat <$> range 1 (key_length + 1));
  attempt ciphertext key.

(** Sorted by [ltb] on the keys, ties in the order [before]. *)
Definition sorted_by {A K} (key : A → K) (ltb : K → K → bool)
    (before : A → A → Prop) (a b : A) : Prop :=
  ltb (key a) (key b) = true ∨ (ltb (key b) (key a) = false ∧ before a b).

(** ** Key-length analysis *)

(** The characters of [ciphertext] whose offset is [k] modulo [L], in
    order: column [k] of the round-robin partition into [L] columns. *)
Definition indexed (ciphertext : str) : list (nat * ascii) :=
  imap (λ i char, (i, char)) ciphertext.
Definition column_of (items : list (nat * ascii)) (L k : nat) : str :=
  (filter (λ p, p.1 `mod` L = k) items).*2.
Definition round_robin (items : list (nat * ascii)) (L : nat) : list str :=
  (λ k, column_of items L k) <$> seq 0 L.

(** The letters of a text, and the distinct characters of a list in the
    order in which they first occur. *)
Definition letters (text : str) : str :=
  filter (λ c, is_alpha c = true) (upper text).
Definition occurrences (c : ascii) (l : str) : nat :=
  length (filter (λ x, x = c) l).
Definition first_occurrences (l : str) : str :=
  foldl (λ seen c, if bool_decide (c ∈ seen) then seen else seen ++ [c]) [] l.

(** The Index of Coincidence of a text with [N] letters, of which [n] are
    the letter [c]: the sum of the [n (n - 1)] over the letters, divided
    by [N (N - 1)]; 0 without two letters.  The sum runs over the letters
    as they first occur, and every operation rounds; in binary64 and for
    fewer than 2^26 characters the sums are exact and the value is the
    float nearest to the exact quotient
    ([index_of_coincidence_binary64]). *)
Definition index_of_coincidence (fl : rounding) (text : str) : Q :=
  let N := length (letters text) in
  if bool_decide (N < 2) then 0%Q
  else
    let pairs :=
      foldl (λ s c, let n := occurrences c (letters text) in
                    fl (s + fl (of_nat (n * (n - 1)))))%Q
            0%Q (first_occurrences (letters text)) in
    fl (pairs / fl (of_nat (N * (N - 1))))%Q.

(** Its average over the [L] round-robin columns, summed from column 0
    on, and the distance of the average to the 0.067 of English. *)
Definition average_ic (fl : rounding) (ciphertext : str) (L : nat) : Q :=
  let ic_sum :=
    foldl (λ ic_sum col, fl (ic_sum + index_of_coincidence fl col)%Q) 0%Q
          (round_robin (indexed ciphertext) L) in
  fl (ic_sum / fl (of_nat L))%Q.

(** ** Search *)

(** A key of length [n] as the search writes it: the decimal strings of
    the numbers 1..n, in some order, joined. *)
Definition permutation_key (n : nat) (key : str) : Prop :=
  ∃ digits, digits ≡ₚ seq 1 n ∧ key = concat (str_of_nat <$> digits).

(** The transposition of the positions [i] and [j]. *)
Definition transpose (i j k : nat) : nat :=
  if decide (k = i) then j else if decide (k = j) then i else k.

(** What the second loop of [crossover_keys] maintains: [child] holds
    distinct characters [used] of [key2], among them all those before
    [parent2_pos], and a placeholder at every position still [todo]. *)
Definition crossover_inv (key2 : str) (todo : list nat) (st : str * nat) : Prop :=
  ∃ used : str,
    length st.1 = length key2
    ∧ st.1 ≡ₚ used ++ replicate (length todo) "0"%char
    ∧ NoDup todo
    ∧ (∀ i, i ∈ todo → st.1 !! i = Some "0"%char)
    ∧ NoDup used
    ∧ (∀ c, c ∈ used → c ∈ key2)
    ∧ (∀ c, c ∈ take st.2 key2 → c ∈ used).

(** The loop bodies of [crossover_keys], by name. *)
Definition copy_slice (key1 : str) (i : nat) (child : str) : res str :=
  c ← getitem key1 i; setitem child i c.
Definition fill_rest (key2 : str) (i : nat) (st : str * nat) : res (str * nat) :=
  let '(child, parent2_pos) := st in
  parent2_pos ← attack.skip_placed (drop parent2_pos key2) child parent2_pos;
  c ← getitem key2 parent2_pos;
  child ← setitem child i c;
  Ok (child, S parent2_pos).

(** The draws of a run in which hill climbing starts at "123", tries the
    neighbour "213" a hundred times, and restarts at "231". *)
Definition restart_tape : random.tape :=
  0 :: concat (replicate 100 [0; 0]) ++ [4].

(** ** Evaluation on concrete texts *)

(** The words of [COMMON_WORDS], as the list the set is built from. *)
Definition listed_words : list str := lit <$> dictionary.COMMON_WORDS_literal.

(** [find_words_in_text] with the membership test made on the list. *)
Definition find_words_listed (text : str) (min_length : nat) : list (str * nat * nat) :=
  let text := upper text in
  i ← range 0 (length text);
  j ← range (i + min_length) (min (i + 15) (length text + 1));
  let substring := slice text i j in
  if bool_decide (substring ∈ listed_words) then [(substring, i, j)] else [].

(** [score_text_by_dictionary], over a given word finder. *)
Definition score_by_words (find_words : str → nat → list (str * nat * nat))
    (text : str) : res Q :=
  if bool_decide (text = []) then Ok 0%Q
  else
    let text := upper text in
    let found_words := find_words text 2 in
    if bool_decide (found_words = []) then Ok 0%Q
    else
      let text_len := length text in
      let coverage := replicate text_len false in
      let found_words :=
        sorted_reverse (λ x : str * nat * nat, x.2 - x.1.2) Nat.ltb found_words in
      coverage ← for_each found_words
        (λ '(word, start, end_) coverage,
           if negb (existsb id (slice coverage start end_)) then
             for_each (range start end_) (λ k coverage, setitem coverage k true) coverage
           else Ok coverage)
        coverage;
      let covered_chars := length (filter (λ b, b = true) coverage) in
      div (of_nat covered_chars) (of_nat text_len).

(** [evaluate_plaintext], with the words looked up in the list. *)
Definition evaluate_listed (plaintext : str) : res Q :=
  base_score ← scoring.score_text plaintext;
  dict_score ← score_by_words find_words_listed plaintext;
  combined_score ← scoring.score_with_dictionary plaintext dict_score;
  Ok combined_score.

(** The score of a text: the value of [evaluate_plaintext], which never
    raises. *)
Definition score_of (plaintext : str) : Q :=
  match evaluate_listed plaintext with Ok score => score | Raise _ => 0%Q end.

(** The state of hill climbing on "ETH" while it stays at the key "123",
    after [count] neighbours were refused. *)
Definition stuck_state (count : nat) : attack.hc_state :=
  attack.HcState (lit "123") (lit "ETH") (score_of (lit "ETH"))
                 (lit "123") (lit "ETH") (score_of (lit "ETH")) count.

(** The state in which that run ends: the restart key is the current
    one, the first key still the best one. *)
Definition restarted_state : attack.hc_state :=
  attack.HcState (lit "231") (lit "THE") (score_of (lit "THE"))
                 (lit "123") (lit "ETH") (score_of (lit "ETH")) 0.

(** ** The triples of the heuristic attacks *)

(** A key, its plaintext and its score belong together: the key holds the
    digits 1..n once each, the plaintext is its decryption of the
    ciphertext, the score the evaluation of that plaintext. *)
Definition consistent (ciphertext : str) (n : nat) (key plaintext : str) (score : Q)
    : Prop :=
  perm_key n key
  ∧ cipher.decrypt ciphertext key = Ok plaintext
  ∧ attack.evaluate_plaintext plaintext = Ok score.

(** The state of hill climbing holds two such triples. *)
Definition hc_consistent (ciphertext : str) (n : nat) (st : attack.hc_state) : Prop :=
  consistent ciphertext n (attack.current_key st) (attack.current_plaintext st)
             (attack.current_score st)
  ∧ consistent ciphertext n (attack.best_key st) (attack.best_plaintext st)
               (attack.best_score st).

(** The best triple of the genetic algorithm: none yet, with the score 0,
    or a consistent one. *)
Definition ga_best_consistent (ciphertext : str) (n : nat)
    (best : option str * option str * Q) : Prop :=
  match best with
  | (Some key, Some plaintext, score) => consistent ciphertext n key plaintext score
  | (None, None, score) => score = 0%Q
  | _ => False
  end.

(** ** Searching the dictionary *)

(** The substrings that [find_longest_word] looks up, in its order. *)
Definition substrings (text : str) : list str :=
  i ← range 0 (length text);
  j ← range (i + 1) (length text + 1);
  [slice text i j].

(** One look-up of [find_longest_word]. *)
Definition keep_longer (words : gset str) (longest : str * nat) (word : str)
    : str * nat :=
  if contains words word && (longest.2 <? length word)
  then (word, length word) else longest.

Example encrypt_hello :
  cipher.encrypt (lit "HELLOWORLD") (lit "312") false = Ok (lit "EORXLWLXHLOD").
Proof. vm_compute. reflexivity. Qed.

Example decrypt_hello :
  cipher.decrypt (lit "EORXLWLXHLOD") (lit "312") = Ok (lit "HELLOWORLD").
Proof. vm_compute. reflexivity. Qed.

(** * Properties *)

(** ** Characters and decimal strings *)


Lemma digit_char_value c : is_digit c = true → digit_char (digit_value c) = c.
Proof.
  unfold is_digit, digit_char, digit_value, code. intros H.
  apply andb_true_iff in H as [H1 H2].
  apply Nat.leb_le in H1. apply Nat.leb_le in H2.
  replace (48 + (nat_of_ascii c - 48)) with (nat_of_ascii c) by lia.
  apply ascii_nat_embedding.
Qed.

Lemma digit_value_le c : is_digit c = true → digit_value c ≤ 9.
Proof.
  unfold is_digit, digit_value. intros H.
  apply andb_true_iff in H as [_ H2]. apply Nat.leb_le in H2. lia.
Qed.

Lemma digit_value_char d : d ≤ 9 → digit_value (digit_char d) = d.
Proof.
  intros H. unfold digit_value, digit_char, code.
  rewrite nat_ascii_embedding by lia. lia.
Qed.

Lemma is_digit_char d : d ≤ 9 → is_digit (digit_char d) = true.
Proof.
  intros H. unfold is_digit, digit_char, code.
  rewrite nat_ascii_embedding by lia.
  apply andb_true_iff. split; apply Nat.leb_le; lia.
Qed.

Lemma str_of_nat_digit d : d ≤ 9 → str_of_nat d = [digit_char d].
Proof.
  intros H. do 10 (destruct d as [|d]; [reflexivity|]). lia.
Qed.

Lemma digit_not_alpha c : is_digit c = true → is_alpha c = false.
Proof.
  unfold is_digit, is_alpha, is_upper, is_lower. intros H.
  apply andb_true_iff in H as [H1 H2].
  apply Nat.leb_le in H1. apply Nat.leb_le in H2.
  apply orb_false_iff. split; apply andb_false_iff; left; apply Nat.leb_gt; lia.
Qed.

(** ** validate_key *)

Lemma isdigit_Forall s : isdigit s = true ↔ s ≠ [] ∧ Forall (λ c, is_digit c = true) s.
Proof.
  unfold isdigit. rewrite andb_true_iff, negb_true_iff, bool_decide_eq_false.
  rewrite forallb_forall, Forall_forall.
  split; intros [? H]; (split; [done|]); intros x Hx; apply H;
    by apply list_elem_of_In.
Qed.

Lemma isalpha_Forall s : isalpha s = true ↔ s ≠ [] ∧ Forall (λ c, is_alpha c = true) s.
Proof.
  unfold isalpha. rewrite andb_true_iff, negb_true_iff, bool_decide_eq_false.
  rewrite forallb_forall, Forall_forall.
  split; intros [? H]; (split; [done|]); intros x Hx; apply H;
    by apply list_elem_of_In.
Qed.

(** The set comparison of [validate_key], on the digit values. *)
Lemma key_set_digits (key : str) :
  Forall (λ c, is_digit c = true) key →
  (list_to_set (C:=gset str) ((λ c, [c]) <$> key)
     = list_to_set (str_of_nat <$> seq 1 (length key)))
  ↔ (∀ d, d ∈ digit_value <$> key ↔ 1 ≤ d ≤ length key).
Proof.
  intros Hdig. rewrite Forall_forall in Hdig.
  rewrite set_eq. setoid_rewrite elem_of_list_to_set.
  setoid_rewrite list_elem_of_fmap. setoid_rewrite elem_of_seq.
  split.
  - intros Heq.
    assert (Hn : length key ≤ 9).
    { destruct (decide (length key ≤ 9)) as [|Hgt]; [done|].
      destruct (proj2 (Heq (str_of_nat 10))) as (c & Hc & _).
      { exists 10. split; [done|lia]. }
      discriminate Hc. }
    intros d. split.
    + intros (c & -> & Hc).
      destruct (proj1 (Heq [c])) as (i & Hi & Hr); [by exists c|].
      rewrite str_of_nat_digit in Hi by lia.
      injection Hi as ->. rewrite digit_value_char by lia. lia.
    + intros Hd.
      destruct (proj2 (Heq (str_of_nat d))) as (c & Hc & Hin).
      { exists d. split; [done|lia]. }
      rewrite str_of_nat_digit in Hc by lia. injection Hc as <-.
      exists (digit_char d). by rewrite digit_value_char by lia.
  - intros Hval.
    assert (Hn : length key ≤ 9).
    { destruct (decide (length key ≤ 9)) as [|Hgt]; [done|].
      destruct (proj2 (Hval 10)) as (c & Hc & Hin); [lia|].
      pose proof (digit_value_le c (Hdig c Hin)). lia. }
    intros x. split.
    + intros (c & -> & Hc). exists (digit_value c).
      assert (1 ≤ digit_value c ≤ length key) by (apply Hval; by exists c).
      rewrite str_of_nat_digit by lia.
      rewrite digit_char_value by auto. split; [done|lia].
    + intros (i & -> & Hi).
      destruct (proj2 (Hval i)) as (c & Hc & Hin); [lia|].
      exists c. split; [|done].
      rewrite str_of_nat_digit by lia. subst i.
      by rewrite digit_char_value by auto.
Qed.

Lemma validate_key_iff (key : str) :
  cipher.validate_key key = true ↔
    key ≠ [] ∧
    ((Forall (λ c, is_digit c = true) key ∧
      ∀ d, d ∈ digit_value <$> key ↔ 1 ≤ d ≤ length key)
     ∨ Forall (λ c, is_alpha c = true) key).
Proof.
  unfold cipher.validate_key.
  case_bool_decide as Hnil; [by split; [|intros [? _]]|].
  destruct (isdigit key) eqn:Hd.
  - apply isdigit_Forall in Hd as [_ Hd].
    rewrite bool_decide_eq_true, (key_set_digits key Hd).
    split; [by intros H; split; [|left]|].
    intros [_ [[_ H]|Ha]]; [done|].
    destruct key as [|c key]; [done|].
    apply Forall_cons in Hd as [Hc _]. apply Forall_cons in Ha as [Ha _].
    apply digit_not_alpha in Hc. congruence.
  - rewrite isalpha_Forall. split; [by intros [? ?]; split; [|right]|].
    intros [_ [[H _]|Ha]]; [|done].
    assert (isdigit key = true) by (by apply isdigit_Forall). congruence.
Qed.



(** ** Permutation keys *)


Lemma digit_char_inj a b : a ≤ 9 → b ≤ 9 → digit_char a = digit_char b → a = b.
Proof.
  intros Ha Hb H. apply (f_equal digit_value) in H.
  by rewrite !digit_value_char in H by done.
Qed.

Lemma perm_key_length n key : perm_key n key → length key = n.
Proof. intros H. rewrite H. by rewrite length_fmap, length_seq. Qed.

Lemma perm_key_NoDup n key : n ≤ 9 → perm_key n key → NoDup key.
Proof.
  intros Hn H. rewrite H. apply NoDup_fmap_2_strong; [|apply NoDup_seq].
  intros a b Ha Hb. apply elem_of_seq in Ha, Hb.
  apply digit_char_inj; lia.
Qed.

Lemma perm_key_elem n key c :
  perm_key n key → c ∈ key ↔ ∃ r, 1 ≤ r ≤ n ∧ c = digit_char r.
Proof.
  intros H. rewrite H, list_elem_of_fmap. setoid_rewrite elem_of_seq.
  split; intros (r & ? & ?); exists r; split; (done || lia).
Qed.

Lemma perm_key_digits n key :
  n ≤ 9 → perm_key n key → Forall (λ c, is_digit c = true) key.
Proof.
  intros Hn H. apply Forall_forall. intros c Hc.
  apply (perm_key_elem _ _ _ H) in Hc as (r & Hr & ->).
  apply is_digit_char. lia.
Qed.

Lemma fmap_id_on {A} (f : A → A) (l : list A) :
  (∀ x, x ∈ l → f x = x) → f <$> l = l.
Proof.
  intros H. rewrite <- (list_fmap_id l) at 2. apply list_fmap_ext.
  intros i x Hx. apply H. by eapply list_elem_of_lookup_2.
Qed.

Lemma perm_key_values n key :
  n ≤ 9 → perm_key n key → digit_value <$> key ≡ₚ seq 1 n.
Proof.
  intros Hn H. rewrite H, <- list_fmap_compose.
  rewrite fmap_id_on; [done|].
  intros x Hx. apply elem_of_seq in Hx. simpl.
  apply digit_value_char. lia.
Qed.

(** A digit string whose values form the set {1..n} is a permutation key. *)
Lemma values_perm_key (key : str) :
  Forall (λ c, is_digit c = true) key →
  (∀ d, d ∈ digit_value <$> key ↔ 1 ≤ d ≤ length key) →
  length key ≤ 9 ∧ perm_key (length key) key.
Proof.
  intros Hdig Hval.
  assert (Hn : length key ≤ 9).
  { destruct (decide (length key ≤ 9)) as [|Hgt]; [done|].
    assert (Hin : 10 ∈ digit_value <$> key) by (apply Hval; lia).
    apply list_elem_of_fmap in Hin as (c & Hc & Hin).
    rewrite Forall_forall in Hdig.
    pose proof (digit_value_le c (Hdig c Hin)). lia. }
  split; [done|].
  assert (Hp : seq 1 (length key) ≡ₚ digit_value <$> key).
  { apply NoDup_Permutation_bis.
    - apply NoDup_ListNoDup, NoDup_seq.
    - by rewrite length_fmap, length_seq.
    - intros d Hd. apply list_elem_of_In. apply list_elem_of_In in Hd.
      apply Hval. apply elem_of_seq in Hd. lia. }
  unfold perm_key. rewrite Hp, <- list_fmap_compose.
  rewrite fmap_id_on; [done|].
  intros c Hc. simpl. apply digit_char_value.
  rewrite Forall_forall in Hdig. by apply Hdig.
Qed.

(** The valid numeric keys are the permutation keys of at most 9 digits. *)
Lemma validate_numeric n key :
  1 ≤ n ≤ 9 → perm_key n key →
  cipher.validate_key key = true ∧ isdigit key = true.
Proof.
  intros Hn H. pose proof (perm_key_length _ _ H) as Hlen.
  assert (Hne : key ≠ []) by (intros ->; simpl in Hlen; lia).
  assert (Hd : Forall (λ c, is_digit c = true) key)
    by (apply (perm_key_digits n); [lia|done]).
  split; [|by apply isdigit_Forall].
  apply validate_key_iff. split; [done|]. left. split; [done|].
  intros d. rewrite (perm_key_values n key) by (lia || done).
  rewrite elem_of_seq, Hlen. lia.
Qed.

Lemma validate_numeric_inv key :
  cipher.validate_key key = true → isdigit key = true →
  1 ≤ length key ≤ 9 ∧ perm_key (length key) key.
Proof.
  intros Hv Hd. apply validate_key_iff in Hv as [Hne [[Hdig Hval]|Ha]].
  - destruct (values_perm_key key Hdig Hval). split; [|done].
    destruct key; [done|simpl in *; lia].
  - apply isdigit_Forall in Hd as [_ Hd]. destruct key as [|c key]; [done|].
    apply Forall_cons in Hd as [Hc _]. apply Forall_cons in Ha as [Ha _].
    apply digit_not_alpha in Hc. congruence.
Qed.

(** [index] on a string without repetitions finds each position. *)
Lemma find_from_NoDup (s : str) c j i0 :
  NoDup s → s !! j = Some c → find_from [c] s i0 = Some (i0 + j).
Proof.
  revert j i0. induction s as [|a s IH]; intros j i0 Hnd Hj; [done|].
  apply NoDup_cons in Hnd as [Ha Hnd].
  destruct j as [|j]; simpl in Hj.
  - injection Hj as ->. simpl. rewrite bool_decide_eq_true_2 by done.
    simpl. f_equal. lia.
  - simpl. rewrite bool_decide_eq_false_2.
    + simpl. rewrite (IH j (S i0)) by done. f_equal. lia.
    + intros ->. apply Ha. by eapply list_elem_of_lookup_2.
Qed.

Lemma index_NoDup (s : str) c j :
  NoDup s → s !! j = Some c → index s [c] = Ok j.
Proof.
  intros Hnd Hj. unfold index. by rewrite (find_from_NoDup s c j 0).
Qed.

Section ranks.
Context (key : str) (n : nat).
Hypothesis Hperm : perm_key n key.
Hypothesis Hn : n ≤ 9.

Lemma rank_at_lookup j :
  j < n → ∃ r, 1 ≤ r ≤ n ∧ key !! j = Some (digit_char r) ∧ rank_at key j = r.
Proof using Hperm Hn.
  intros Hj. rewrite <- (perm_key_length _ _ Hperm) in Hj.
  apply lookup_lt_is_Some in Hj as [c Hc].
  assert (Hin : c ∈ key) by (by eapply list_elem_of_lookup_2).
  apply (perm_key_elem _ _ _ Hperm) in Hin as (r & Hr & ->).
  exists r. split; [done|]. split; [done|].
  unfold rank_at. rewrite Hc. simpl. apply digit_value_char. lia.
Qed.

Lemma rank_at_range j : j < n → 1 ≤ rank_at key j ≤ n.
Proof using Hperm Hn. intros Hj. by destruct (rank_at_lookup j Hj) as (r & ? & _ & ->). Qed.

Lemma rank_at_inj j1 j2 :
  j1 < n → j2 < n → rank_at key j1 = rank_at key j2 → j1 = j2.
Proof using Hperm Hn.
  intros H1 H2 Heq.
  destruct (rank_at_lookup j1 H1) as (r1 & ? & Hl1 & Hr1).
  destruct (rank_at_lookup j2 H2) as (r2 & ? & Hl2 & Hr2).
  assert (r1 = r2) by congruence.
  apply (NoDup_lookup key j1 j2 (digit_char r1)); [by apply (perm_key_NoDup n)| |].
  all: congruence.
Qed.

Lemma rank_at_surj r : 1 ≤ r ≤ n → ∃ j, j < n ∧ rank_at key j = r.
Proof using Hperm Hn.
  intros Hr.
  assert (Hin : digit_char r ∈ key)
    by (apply (perm_key_elem _ _ _ Hperm); by exists r).
  apply list_elem_of_lookup in Hin as [j Hj].
  assert (Hjn : j < n).
  { rewrite <- (perm_key_length _ _ Hperm). by eapply lookup_lt_Some. }
  exists j. split; [done|].
  unfold rank_at. rewrite Hj. simpl. apply digit_value_char. lia.
Qed.

Lemma index_rank j : j < n → index key (str_of_nat (rank_at key j)) = Ok j.
Proof using Hperm Hn.
  intros Hj. destruct (rank_at_lookup j Hj) as (r & Hr & Hl & ->).
  rewrite str_of_nat_digit by lia.
  apply index_NoDup; [by apply (perm_key_NoDup n)|done].
Qed.
End ranks.

(** ** Loops and tabulated lists *)

Lemma bind_Ok {A B} (a : A) (f : A → res B) : Ok a ≫= f = f a.
Proof. done. Qed.

Lemma for_each_cons {A S} (x : A) l (body : A → S → res S) s :
  for_each (x :: l) body s = body x s ≫= for_each l body.
Proof. done. Qed.

Lemma getitem_Some {A} (l : list A) i x : l !! i = Some x → getitem l i = Ok x.
Proof. intros H. unfold getitem. by rewrite H. Qed.

Lemma getitem_None {A} (l : list A) i : length l ≤ i → getitem l i = Raise IndexError.
Proof. intros H. unfold getitem. by rewrite lookup_ge_None_2. Qed.

Lemma setitem_ok {A} (l : list A) i x : i < length l → setitem l i x = Ok (<[i:=x]> l).
Proof. intros H. unfold setitem. by rewrite bool_decide_eq_true_2. Qed.

Lemma tab_lookup {A} (f : nat → A) n i : i < n → (f <$> seq 0 n) !! i = Some (f i).
Proof. intros H. by rewrite list_lookup_fmap, lookup_seq_lt. Qed.

Lemma tab_ext {A} (f g : nat → A) a n :
  (∀ i, a ≤ i < a + n → f i = g i) → f <$> seq a n = g <$> seq a n.
Proof.
  intros H. apply list_fmap_ext. intros i x Hx.
  apply lookup_seq in Hx as [-> ?]. apply H. lia.
Qed.

Lemma tab_insert {A} (f : nat → A) n i v :
  <[i:=v]> (f <$> seq 0 n) = (λ k, if decide (k = i) then v else f k) <$> seq 0 n.
Proof.
  apply list_eq. intros k.
  destruct (decide (k < n)) as [Hk|Hk].
  - rewrite tab_lookup by done. destruct (decide (k = i)) as [->|Hne].
    + rewrite list_lookup_insert_eq; [done|]. by rewrite length_fmap, length_seq.
    + rewrite list_lookup_insert_ne by done. by rewrite tab_lookup.
  - rewrite !lookup_ge_None_2; [done| |].
    + rewrite length_fmap, length_seq. lia.
    + rewrite length_insert, length_fmap, length_seq. lia.
Qed.

Lemma tab_const {A} (x : A) a n : (λ _, x) <$> seq a n = replicate n x.
Proof. rewrite (const_fmap _ _ x); [by rewrite length_seq|done]. Qed.

Lemma concat_tab_length {A} (f : nat → list A) a m R :
  (∀ r, a ≤ r < a + m → length (f r) = R) → length (concat (f <$> seq a m)) = m * R.
Proof.
  revert a. induction m as [|m IH]; intros a H; [done|].
  assert (Ha : length (f a) = R) by (apply H; lia).
  simpl. rewrite length_app, Ha, IH by (intros; apply H; lia). lia.
Qed.

Lemma concat_tab_lookup {A} (f : nat → list A) a m R q i :
  (∀ r, a ≤ r < a + m → length (f r) = R) → q < m → i < R →
  concat (f <$> seq a m) !! (q * R + i) = f (a + q) !! i.
Proof.
  revert a q. induction m as [|m IH]; intros a q H Hq Hi; [lia|].
  assert (Ha : length (f a) = R) by (apply H; lia).
  simpl. destruct q as [|q].
  - rewrite lookup_app_l by lia. simpl. by rewrite Nat.add_0_r.
  - rewrite lookup_app_r by lia.
    rewrite Ha. replace (S q * R + i - R) with (q * R + i) by lia.
    rewrite IH by (intros; try apply H; lia).
    by replace (S a + q) with (a + S q) by lia.
Qed.

Lemma block_index_inj R a i b t :
  i < R → t < R → a * R + i = b * R + t → a = b ∧ i = t.
Proof.
  intros Hi Ht H. destruct (decide (a = b)) as [->|Hne]; [lia|].
  exfalso. destruct (decide (a < b)).
  - assert ((a + 1) * R ≤ b * R) by (apply Nat.mul_le_mono_r; lia). lia.
  - assert ((b + 1) * R ≤ a * R) by (apply Nat.mul_le_mono_r; lia). lia.
Qed.

Lemma ceil_div_ok a b : b ≠ 0 → ceil_div a b = Ok ((a + b - 1) / b).
Proof. intros H. unfold ceil_div. by rewrite bool_decide_eq_false_2. Qed.

Lemma ceil_div_bound a b : b ≠ 0 → a ≤ (a + b - 1) / b * b.
Proof.
  intros H. pose proof (Nat.div_mod (a + b - 1) b H).
  pose proof (Nat.mod_upper_bound (a + b - 1) b H). nia.
Qed.

Lemma ceil_div_exact R b : b ≠ 0 → (R * b + b - 1) / b = R.
Proof.
  intros H. symmetry. apply (Nat.div_unique _ _ _ (b - 1)); lia.
Qed.

Lemma rstrip_replicate c m : rstrip c (replicate m c) = [].
Proof.
  induction m as [|m IH]; [done|]. simpl. rewrite IH.
  by rewrite bool_decide_eq_true_2.
Qed.

Lemma rstrip_padding c (p : str) m : c ∉ p → rstrip c (p ++ replicate m c) = p.
Proof.
  induction p as [|a p IH]; intros Hc; simpl.
  - apply rstrip_replicate.
  - apply not_elem_of_cons in Hc as [Hne Hc]. rewrite IH by done.
    destruct p; [|done]. by rewrite bool_decide_eq_false_2.
Qed.

(** ** decrypt on a permutation key *)

Lemma fill_column_eq ciphertext numeric_key num_rows col_num st :
  fill_column ciphertext numeric_key num_rows col_num st
  = index numeric_key (str_of_nat col_num)
      ≫= λ col_idx, for_each (seq 0 num_rows) (fill_cell ciphertext col_idx) st.
Proof. done. Qed.

Lemma decrypt_unfold ciphertext key :
  cipher.decrypt ciphertext key =
    numeric_key ← cipher.normalize_key key;
    num_rows ← ceil_div (length ciphertext) (length numeric_key);
    st ← for_each (seq 1 (length numeric_key))
           (fill_column ciphertext numeric_key num_rows)
           (replicate num_rows (replicate (length numeric_key) []), 0);
    Ok (rstrip "X" (concat ((λ row : list str, concat row) <$> st.1))).
Proof.
  unfold cipher.decrypt. destruct (cipher.normalize_key key); [|done]. simpl.
  destruct (ceil_div _ _); [|done]. simpl.
  match goal with |- context [for_each ?l ?f ?s] =>
    change (for_each l f s) with
      (for_each l (fill_column ciphertext a a0) s) end.
  destruct (for_each _ _ _) as [[??]|]; done.
Qed.

Section fill.
Context (key : str) (n : nat) (c : str) (R : nat).
Hypothesis Hperm : perm_key n key.
Hypothesis Hn : n ≤ 9.

Local Abbreviation offset := (offset key R).
Local Abbreviation read := (read key c R).
Local Abbreviation filled := (filled key n c R).

Lemma offset_inj i j t j' :
  i < R → t < R → j < n → j' < n → offset i j = offset t j' → i = t ∧ j = j'.
Proof using Hperm Hn.
  unfold offset. intros Hi Ht Hj Hj' H.
  apply block_index_inj in H as [H ->]; [|done..]. split; [done|].
  pose proof (rank_at_range key n Hperm Hn j Hj).
  pose proof (rank_at_range key n Hperm Hn j' Hj').
  apply (rank_at_inj key n Hperm Hn); [done..|lia].
Qed.

Lemma filled_0 : filled 0 = replicate R (replicate n []).
Proof using Type.
  clear Hperm Hn.
  unfold filled. rewrite <- (tab_const (replicate n []) 0 R).
  apply tab_ext. intros i _. rewrite <- (tab_const [] 0 n).
  apply tab_ext. intros j _. by rewrite decide_False by lia.
Qed.

Lemma filled_step t j :
  t < R → j < n →
  <[t := <[j := read t j]>
           ((λ j', if decide (offset t j' < offset t j) then read t j' else [])
              <$> seq 0 n)]> (filled (offset t j))
  = filled (S (offset t j)).
Proof using Hperm Hn.
  intros Ht Hj. unfold filled. rewrite tab_insert. apply tab_ext.
  intros i Hi. destruct (decide (i = t)) as [->|Hne].
  - rewrite tab_insert. apply tab_ext. intros j' Hj'.
    destruct (decide (j' = j)) as [->|Hne].
    + by rewrite decide_True by lia.
    + destruct (decide (offset t j' = offset t j)) as [Heq|Hne'].
      { apply offset_inj in Heq as [_ ?]; [done|lia..]. }
      repeat case_decide; (done || lia).
  - apply tab_ext. intros j' Hj'.
    destruct (decide (offset i j' = offset t j)) as [Heq|Hne'].
    { apply offset_inj in Heq as [? _]; [done|lia..]. }
    repeat case_decide; (done || lia).
Qed.

Lemma filled_skip p : length c ≤ p → filled p = filled (S p).
Proof using Type.
  clear Hperm Hn.
  intros Hp. unfold filled. apply tab_ext. intros i _.
  apply tab_ext. intros j _.
  repeat case_decide; try (done || lia).
  unfold read. rewrite lookup_ge_None_2; [done|lia].
Qed.

Lemma filled_lookup p i :
  i < R →
  filled p !! i
  = Some ((λ j, if decide (offset i j < p) then read i j else []) <$> seq 0 n).
Proof using Type.
  clear Hperm Hn. intros Hi. unfold filled. by rewrite tab_lookup. Qed.

Lemma fill_cell_step t j :
  t < R → j < n →
  fill_cell c j t (filled (offset t j), offset t j `min` length c)
  = Ok (filled (S (offset t j)), S (offset t j) `min` length c).
Proof using Hperm Hn.
  intros Ht Hj. unfold fill_cell.
  remember (S (offset t j) `min` length c) as M eqn:HM.
  case_bool_decide as Hlt.
  - rewrite Nat.min_l by lia.
    destruct (c !! offset t j) as [x|] eqn:Hx;
      [|apply lookup_ge_None in Hx; lia].
    rewrite (getitem_Some c _ x Hx). simpl.
    rewrite (getitem_Some _ _ _ (filled_lookup (offset t j) t Ht)). simpl.
    rewrite setitem_ok by (rewrite length_fmap, length_seq; lia).
    simpl. replace [x] with (read t j) by (unfold read; by rewrite Hx).
    rewrite filled_step by lia. do 2 f_equal. lia.
  - rewrite filled_skip by lia. do 2 f_equal. lia.
Qed.

Lemma fill_rows j m t :
  j < n → t + m = R →
  for_each (seq t m) (fill_cell c j)
    (filled (offset t j), offset t j `min` length c)
  = Ok (filled (offset R j), offset R j `min` length c).
Proof using Hperm Hn.
  intros Hj. revert t. induction m as [|m IH]; intros t Ht.
  { simpl. by replace t with R by lia. }
  rewrite <- cons_seq, for_each_cons, fill_cell_step, bind_Ok by lia.
  replace (S (offset t j)) with (offset (S t) j) by (unfold offset; lia).
  apply IH. lia.
Qed.

Lemma fill_columns m r0 :
  r0 + m = n →
  for_each (seq (S r0) m) (fill_column c key R)
    (filled (r0 * R), (r0 * R) `min` length c)
  = Ok (filled (n * R), (n * R) `min` length c).
Proof using Hperm Hn.
  revert r0. induction m as [|m IH]; intros r0 Hr.
  { simpl. by replace r0 with n by lia. }
  rewrite <- cons_seq, for_each_cons, fill_column_eq.
  destruct (rank_at_surj key n Hperm Hn (S r0)) as (j & Hj & Hrank); [lia|].
  assert (Hidx : index key (str_of_nat (S r0)) = Ok j)
    by (rewrite <- Hrank; by apply (index_rank key n)).
  rewrite Hidx, bind_Ok.
  assert (H0 : r0 * R = offset 0 j) by (unfold offset; rewrite Hrank; lia).
  rewrite H0, (fill_rows j R 0), bind_Ok by (done || lia).
  replace (offset R j) with (S r0 * R) by (unfold offset; rewrite Hrank; lia).
  apply IH. lia.
Qed.

Lemma filled_all :
  filled (n * R) = (λ i, (λ j, read i j) <$> seq 0 n) <$> seq 0 R.
Proof using Hperm Hn.
  unfold filled. apply tab_ext. intros i Hi. apply tab_ext. intros j Hj.
  rewrite decide_True; [done|].
  pose proof (rank_at_range key n Hperm Hn j). unfold offset. nia.
Qed.
End fill.

(** [decrypt] on a normalised permutation key: it never raises, and the
    matrix cell in row [i], column [j] holds the ciphertext character at
    [offset i j], or nothing when the ciphertext is too short. *)
Lemma decrypt_perm_key ciphertext key numeric_key n :
  cipher.normalize_key key = Ok numeric_key →
  perm_key n numeric_key → 1 ≤ n ≤ 9 →
  let R := (length ciphertext + n - 1) / n in
  cipher.decrypt ciphertext key =
    Ok (rstrip "X" (concat ((λ i, concat
          ((λ j, read numeric_key ciphertext R i j) <$> seq 0 n)) <$> seq 0 R))).
Proof.
  intros Hnorm Hperm Hn R. rewrite decrypt_unfold, Hnorm. simpl.
  rewrite (perm_key_length _ _ Hperm).
  rewrite ceil_div_ok by lia. simpl. fold R.
  rewrite <- (filled_0 numeric_key n ciphertext R).
  pose proof (fill_columns numeric_key n ciphertext R Hperm (proj2 Hn) n 0) as H.
  simpl in H. rewrite H by lia. simpl.
  rewrite (filled_all numeric_key n ciphertext R Hperm (proj2 Hn)).
  by rewrite <- list_fmap_compose.
Qed.

(** ** Sorting *)

Section sorted_facts.
Context {A K : Type} (key : A → K) (ltb : K → K → bool).

Lemma insert_by_Permutation x l : insert_by key ltb x l ≡ₚ x :: l.
Proof.
  induction l as [|y l IH]; simpl; [done|].
  destruct (ltb _ _); [|done]. rewrite IH. apply Permutation_swap.
Qed.

Lemma sorted_Permutation l : sorted key ltb l ≡ₚ l.
Proof.
  induction l as [|x l IH]; simpl; [done|].
  fold (sorted key ltb l). by rewrite insert_by_Permutation, IH.
Qed.
End sorted_facts.

Lemma eq_Permutation {A} (l l' : list A) : l = l' → l ≡ₚ l'.
Proof. by intros ->. Qed.

Lemma concat_Permutation {A} (l l' : list (list A)) :
  l ≡ₚ l' → concat l ≡ₚ concat l'.
Proof.
  induction 1 as [|x l l' _ IH|x y l|l l' l'' _ IH1 _ IH2]; simpl.
  - done.
  - by rewrite IH.
  - rewrite !(assoc (++)). f_equiv. apply Permutation_app_comm.
  - by rewrite IH1.
Qed.

(** A list whose entries are prescribed through a permutation of the
    positions. *)
Lemma scattered_Permutation {A} (d : A) (a : list A) (idxs : list nat) (f : nat → A) :
  idxs ≡ₚ seq 0 (length a) →
  (∀ r i, idxs !! r = Some i → a !! i = Some (f r)) →
  a ≡ₚ f <$> seq 0 (length a).
Proof.
  intros Hperm Hf.
  assert (Ha : a = (λ i, default d (a !! i)) <$> seq 0 (length a)).
  { apply list_eq. intros i. destruct (a !! i) as [x|] eqn:Hx.
    - rewrite tab_lookup by (by eapply lookup_lt_Some). by rewrite Hx.
    - symmetry. apply lookup_ge_None_2. rewrite length_fmap, length_seq.
      by apply lookup_ge_None. }
  assert (Hlen : length idxs = length a) by (by rewrite Hperm, length_seq).
  rewrite Ha at 1.
  trans ((λ i, default d (a !! i)) <$> idxs); [by rewrite Hperm|].
  apply eq_Permutation, list_eq. intros r. rewrite !list_lookup_fmap.
  destruct (decide (r < length a)) as [Hr|Hr].
  - rewrite lookup_seq_lt by done.
    destruct (idxs !! r) as [i|] eqn:Hi;
      [|apply lookup_ge_None in Hi; lia].
    simpl. by rewrite (Hf r i Hi).
  - rewrite !lookup_ge_None_2; [done| |]; rewrite ?length_seq; lia.
Qed.

(** ** keyword_to_numeric *)


Lemma keyword_to_numeric_unfold keyword :
  cipher.keyword_to_numeric keyword =
    numeric_key ← for_each
      (imap (λ r p, (S r, p))
         (sorted fst (λ a b, bool_decide (code a < code b))
            (imap (λ i char, (upper_char char, i)) keyword)))
      place_rank (replicate (length keyword) (lit "0"));
    Ok (concat numeric_key).
Proof.
  unfold cipher.keyword_to_numeric. f_equal.
  match goal with |- for_each ?l ?f ?s = for_each _ ?g _ =>
    assert (Hfg : ∀ x a, f x a = g x a) by (by intros [? [? ?]] ?);
    generalize s; generalize l end.
  intros l. induction l as [|x l IH]; intros s; simpl; [done|].
  rewrite Hfg. destruct (place_rank x s); simpl; [apply IH|done].
Qed.

Lemma place_ranks (ps : list (ascii * nat)) (r0 : nat) (a : list str) :
  NoDup ps.*2 → (∀ i, i ∈ ps.*2 → i < length a) →
  ∃ a', for_each (imap (λ r p, (S (r0 + r), p)) ps) place_rank a = Ok a'
        ∧ length a' = length a
        ∧ (∀ r p, ps !! r = Some p → a' !! p.2 = Some (str_of_nat (S (r0 + r))))
        ∧ (∀ i, i ∉ ps.*2 → a' !! i = a !! i).
Proof.
  revert r0 a. induction ps as [|p ps IH]; intros r0 a Hnd Hlt.
  { exists a. by repeat split. }
  rewrite fmap_cons in Hnd. apply NoDup_cons in Hnd as [Hp Hnd].
  rewrite imap_cons, for_each_cons.
  change (place_rank (S (r0 + 0), p) a) with (setitem a p.2 (str_of_nat (S (r0 + 0)))).
  rewrite setitem_ok by (apply Hlt; rewrite fmap_cons; left).
  rewrite bind_Ok.
  destruct (IH (S r0) (<[p.2:=str_of_nat (S (r0 + 0))]> a) Hnd)
    as (a' & Hrun & Hlen & Hset & Hkeep).
  { intros i Hi. rewrite length_insert. apply Hlt. rewrite fmap_cons. by right. }
  exists a'. split; [|split; [|split]].
  - rewrite <- Hrun. f_equal. apply imap_ext. intros r x _. simpl.
    do 2 f_equal. lia.
  - by rewrite Hlen, length_insert.
  - intros [|r] q Hq; simpl in Hq.
    + injection Hq as <-. rewrite Hkeep by done.
      apply list_lookup_insert_eq. apply Hlt. rewrite fmap_cons. left.
    + rewrite (Hset r q Hq). do 2 f_equal. lia.
  - intros i Hi. rewrite fmap_cons in Hi. apply not_elem_of_cons in Hi as [Hne Hi].
    rewrite Hkeep by done. by apply list_lookup_insert_ne.
Qed.

Lemma concat_digits n :
  n ≤ 9 → concat ((λ r, str_of_nat (S r)) <$> seq 0 n) = digit_char <$> seq 1 n.
Proof.
  intros Hn.
  rewrite (tab_ext _ (λ r, [digit_char (S r)]) 0 n)
    by (intros; apply str_of_nat_digit; lia).
  rewrite <- (fmap_S_seq 0 n), <- list_fmap_compose.
  generalize (seq 0 n). intros l. induction l as [|x l IH]; [done|].
  rewrite !fmap_cons. simpl. f_equal. apply IH.
Qed.

(** A keyword of at most 9 characters is turned into a permutation key. *)
Lemma keyword_to_numeric_perm keyword :
  length keyword ≤ 9 →
  ∃ numeric_key, cipher.keyword_to_numeric keyword = Ok numeric_key
                 ∧ perm_key (length keyword) numeric_key.
Proof.
  intros Hlen. rewrite keyword_to_numeric_unfold.
  set (ps := sorted fst _ _).
  assert (Hps : ps.*2 ≡ₚ seq 0 (length keyword)).
  { unfold ps. rewrite sorted_Permutation, fmap_imap.
    rewrite <- (list_fmap_id (seq 0 (length keyword))).
    rewrite <- (imap_seq_0 keyword id).
    apply eq_Permutation. by apply imap_ext. }
  destruct (place_ranks ps 0 (replicate (length keyword) (lit "0")))
    as (a' & Hrun & Hlen' & Hset & _).
  { rewrite Hps. apply NoDup_seq. }
  { intros i Hi. rewrite Hps in Hi. apply elem_of_seq in Hi.
    rewrite length_replicate. lia. }
  rewrite length_replicate in Hlen'.
  exists (concat a'). split.
  { rewrite <- (bind_Ok a' (λ a, Ok (concat a))). f_equal. rewrite <- Hrun.
    f_equal. }
  unfold perm_key. rewrite <- concat_digits by done.
  apply concat_Permutation. rewrite <- Hlen'.
  apply (scattered_Permutation [] a' ps.*2); [by rewrite Hlen'|].
  intros r i Hi. rewrite list_lookup_fmap in Hi.
  destruct (ps !! r) as [p|] eqn:Hp; [|done]. injection Hi as <-.
  by rewrite (Hset r p Hp).
Qed.

(** ** normalize_key *)

Lemma normalize_key_perm key :
  cipher.validate_key key = true → length key ≤ 9 →
  ∃ numeric_key, cipher.normalize_key key = Ok numeric_key
                 ∧ perm_key (length key) numeric_key
                 ∧ 1 ≤ length key.
Proof.
  intros Hv Hlen. unfold cipher.normalize_key. rewrite Hv. simpl.
  assert (1 ≤ length key).
  { apply validate_key_iff in Hv as [Hne _]. destruct key; [done|simpl; lia]. }
  destruct (isdigit key) eqn:Hd.
  - exists key. destruct (validate_numeric_inv key Hv Hd) as [_ Hp]. done.
  - destruct (keyword_to_numeric_perm key Hlen) as (k & Hk & Hp). by exists k.
Qed.

Lemma normalize_key_idem_short key :
  cipher.validate_key key = true → length key ≤ 9 →
  ∃ numeric_key, cipher.normalize_key key = Ok numeric_key
                 ∧ cipher.normalize_key numeric_key = Ok numeric_key.
Proof.
  intros Hv Hlen.
  destruct (normalize_key_perm key Hv Hlen) as (k & Hk & Hp & H1).
  exists k. split; [done|].
  destruct (validate_numeric (length key) k) as [Hvk Hdk]; [lia|done|].
  unfold cipher.normalize_key. by rewrite Hvk, Hdk.
Qed.

(** ** encrypt on a permutation key *)


Lemma read_column_eq col_idx row ciphertext :
  read_column col_idx row ciphertext
  = getitem row col_idx ≫= λ c, Ok (ciphertext ++ [c]).
Proof. done. Qed.

Lemma emit_column_eq numeric_key matrix col_num ciphertext :
  emit_column numeric_key matrix col_num ciphertext
  = index numeric_key (str_of_nat col_num)
      ≫= λ col_idx, for_each matrix (read_column col_idx) ciphertext.
Proof. done. Qed.


Lemma encrypt_unfold plaintext key keep_spaces :
  cipher.encrypt plaintext key keep_spaces =
    numeric_key ← cipher.normalize_key key;
    let n := length numeric_key in
    let text := if negb keep_spaces then remove_spaces plaintext else plaintext in
    num_rows ← ceil_div (length text) n;
    for_each (seq 1 n)
      (emit_column numeric_key
         ((λ i, (λ j, pad_cell
                       (text ++ replicate (num_rows * n - length text) "X"%char)
                       (i * n + j)) <$> seq 0 n) <$> seq 0 num_rows))
      [].
Proof. done. Qed.


Section emit.
Context (key : str) (n : nat) (g : nat → nat → ascii) (R : nat).
Hypothesis Hperm : perm_key n key.
Hypothesis Hn : n ≤ 9.

Lemma col_at_rank j : j < n → col_at key (rank_at key j) = j.
Proof using Hperm Hn.
  intros Hj. unfold col_at. by rewrite (index_rank key n Hperm Hn j Hj).
Qed.

Lemma index_col_at r :
  1 ≤ r ≤ n → index key (str_of_nat r) = Ok (col_at key r) ∧ col_at key r < n.
Proof using Hperm Hn.
  intros Hr. destruct (rank_at_surj key n Hperm Hn r Hr) as (j & Hj & <-).
  rewrite col_at_rank by done. split; [|done].
  by apply (index_rank key n).
Qed.

Lemma emit_rows j (l : list nat) ct :
  j < n →
  for_each ((λ i, g i <$> seq 0 n) <$> l) (read_column j) ct
  = Ok (ct ++ ((λ i, g i j) <$> l)).
Proof using Type.
  clear Hperm Hn. intros Hj. revert ct.
  induction l as [|i l IH]; intros ct.
  { simpl. by rewrite app_nil_r. }
  rewrite !fmap_cons, for_each_cons, read_column_eq.
  rewrite (getitem_Some _ j (g i j)) by (by rewrite tab_lookup).
  rewrite !bind_Ok, IH. by rewrite <- (assoc (++)).
Qed.

Lemma emit_columns m r0 ct :
  r0 + m = n →
  for_each (seq (S r0) m)
    (emit_column key ((λ i, g i <$> seq 0 n) <$> seq 0 R)) ct
  = Ok (ct ++ concat ((λ r, (λ i, g i (col_at key r)) <$> seq 0 R)
                        <$> seq (S r0) m)).
Proof using Hperm Hn.
  revert r0 ct. induction m as [|m IH]; intros r0 ct Hr.
  { simpl. by rewrite app_nil_r. }
  rewrite <- cons_seq, for_each_cons, emit_column_eq.
  destruct (index_col_at (S r0)) as [Hidx Hlt]; [lia|].
  rewrite Hidx, bind_Ok, emit_rows, bind_Ok, IH by (done || lia).
  rewrite fmap_cons. simpl. by rewrite (assoc (++)).
Qed.
End emit.

Lemma encrypt_perm_key plaintext key keep_spaces numeric_key n :
  cipher.normalize_key key = Ok numeric_key →
  perm_key n numeric_key → 1 ≤ n ≤ 9 →
  let text := if negb keep_spaces then remove_spaces plaintext else plaintext in
  let R := (length text + n - 1) / n in
  cipher.encrypt plaintext key keep_spaces =
    Ok (concat ((λ r, (λ i, pad_cell (laid_out plaintext n keep_spaces)
                              (i * n + col_at numeric_key r)) <$> seq 0 R)
                  <$> seq 1 n)).
Proof.
  intros Hnorm Hperm Hn text R. rewrite encrypt_unfold, Hnorm. simpl.
  rewrite (perm_key_length _ _ Hperm), ceil_div_ok by lia. simpl.
  fold text. fold R.
  pose proof (emit_columns numeric_key n
    (λ i j, pad_cell (text ++ replicate (R * n - length text) "X"%char) (i * n + j))
    R Hperm (proj2 Hn) n 0 []) as H.
  simpl in H. by rewrite H.
Qed.

(** ** The round trip *)

Lemma concat_singletons {A} (h : nat → A) a n :
  concat ((λ j, [h (a + j)]) <$> seq 0 n) = h <$> seq a n.
Proof.
  revert a. induction n as [|n IH]; intros a; [done|].
  rewrite <- !cons_seq, !fmap_cons. simpl. rewrite Nat.add_0_r. f_equal.
  rewrite <- (fmap_S_seq 0), <- list_fmap_compose, <- (IH (S a)).
  f_equal. apply list_fmap_ext. intros ? j _. simpl. do 2 f_equal. lia.
Qed.

Lemma concat_rows {A} (h : nat → A) n R :
  concat ((λ i, concat ((λ j, [h (i * n + j)]) <$> seq 0 n)) <$> seq 0 R)
  = h <$> seq 0 (R * n).
Proof.
  induction R as [|R IH]; [done|].
  rewrite seq_S, fmap_app, concat_app, IH. simpl.
  rewrite app_nil_r, concat_singletons.
  replace (n + R * n) with (R * n + n) by lia.
  by rewrite seq_app, fmap_app.
Qed.

Lemma pad_cell_self (s : str) : pad_cell s <$> seq 0 (length s) = s.
Proof.
  apply list_eq. intros i. destruct (s !! i) as [x|] eqn:Hx.
  - rewrite tab_lookup by (by eapply lookup_lt_Some).
    unfold pad_cell. by rewrite Hx.
  - apply lookup_ge_None_2. rewrite length_fmap, length_seq.
    by apply lookup_ge_None.
Qed.

Lemma laid_out_length plaintext n keep_spaces :
  n ≠ 0 →
  let text := if negb keep_spaces then remove_spaces plaintext else plaintext in
  length (laid_out plaintext n keep_spaces) = (length text + n - 1) / n * n.
Proof.
  intros Hn text. unfold laid_out. fold text.
  rewrite length_app, length_replicate.
  pose proof (ceil_div_bound (length text) n Hn). lia.
Qed.

(** Decrypting what [encrypt] produced gives back the laid-out text,
    stripped of its trailing X's. *)
Lemma decrypt_encrypt plaintext key keep_spaces numeric_key n :
  cipher.normalize_key key = Ok numeric_key →
  perm_key n numeric_key → 1 ≤ n ≤ 9 →
  ∃ ciphertext,
    cipher.encrypt plaintext key keep_spaces = Ok ciphertext
    ∧ cipher.decrypt ciphertext key
      = Ok (rstrip "X" (laid_out plaintext n keep_spaces)).
Proof.
  intros Hnorm Hperm Hn.
  set (text := if negb keep_spaces then remove_spaces plaintext else plaintext).
  set (R := (length text + n - 1) / n).
  set (padded := laid_out plaintext n keep_spaces).
  eexists. split; [by apply (encrypt_perm_key _ _ _ numeric_key n)|].
  fold text R padded.
  set (f := λ r, (λ i, pad_cell padded (i * n + col_at numeric_key r)) <$> seq 0 R).
  assert (Hflen : ∀ r, 1 ≤ r < 1 + n → length (f r) = R)
    by (intros; unfold f; by rewrite length_fmap, length_seq).
  assert (Hlen : length (concat (f <$> seq 1 n)) = n * R)
    by (by apply concat_tab_length).
  rewrite (decrypt_perm_key _ key numeric_key n) by done.
  rewrite Hlen. replace (n * R) with (R * n) by lia.
  rewrite ceil_div_exact by lia.
  rewrite (tab_ext _ (λ i, concat ((λ j, [pad_cell padded (i * n + j)]) <$> seq 0 n))).
  - assert (Hpl : length padded = R * n)
      by (apply laid_out_length; lia).
    by rewrite concat_rows, <- Hpl, pad_cell_self.
  - intros i Hi. f_equal. apply tab_ext. intros j Hj.
    unfold read, offset.
    pose proof (rank_at_range numeric_key n Hperm (proj2 Hn) j) as Hr.
    rewrite (concat_tab_lookup f 1 n R) by (done || lia).
    replace (1 + (rank_at numeric_key j - 1)) with (rank_at numeric_key j) by lia.
    unfold f. rewrite tab_lookup by lia.
    by rewrite (col_at_rank numeric_key n) by (done || lia).
Qed.

Lemma remove_spaces_no_filler (plaintext : str) c :
  c ∉ plaintext → c ∉ remove_spaces plaintext.
Proof.
  intros H Hin. apply H. unfold remove_spaces in Hin.
  by apply list_elem_of_filter in Hin as [_ ?].
Qed.

(** C1 (amended). For every plaintext without the filler 'X' and every
    valid key of at most 9 characters, [encrypt] without [keep_spaces]
    succeeds and [decrypt] gives back the plaintext with its spaces
    removed. *)
Theorem roundtrip_short_keys (plaintext key : str) :
  "X"%char ∉ plaintext →
  cipher.validate_key key = true →
  length key ≤ 9 →
  ∃ ciphertext,
    cipher.encrypt plaintext key false = Ok ciphertext
    ∧ cipher.decrypt ciphertext key = Ok (remove_spaces plaintext).
Proof.
  intros HX Hv Hlen.
  destruct (normalize_key_perm key Hv Hlen) as (k & Hk & Hp & H1).
  destruct (decrypt_encrypt plaintext key false k (length key) Hk Hp)
    as (c & Henc & Hdec); [lia|].
  exists c. split; [done|]. rewrite Hdec. f_equal.
  unfold laid_out. simpl. apply rstrip_padding.
  by apply remove_spaces_no_filler.
Qed.

Lemma roundtrip_short_keys_witness :
  ∃ ciphertext,
    cipher.encrypt (lit "HELLO WORLD") (lit "SECRET") false = Ok ciphertext
    ∧ cipher.decrypt ciphertext (lit "SECRET")
      = Ok (remove_spaces (lit "HELLO WORLD")).
Proof.
  apply roundtrip_short_keys.
  - apply (bool_decide_unpack _). vm_compute. exact I.
  - vm_compute. reflexivity.
  - simpl. lia.
Defined.

(** C1 as stated fails: with [keep_spaces] false the spaces of the
    plaintext are dropped before encryption and do not come back. *)
Lemma roundtrip_counterexample :
  ¬ (∀ plaintext key : str,
       "X"%char ∉ plaintext → cipher.validate_key key = true →
       ∃ ciphertext,
         cipher.encrypt plaintext key false = Ok ciphertext
         ∧ cipher.decrypt ciphertext key = Ok plaintext).
Proof.
  intros H. destruct (H (lit "A B") (lit "1")) as (c & Henc & Hdec).
  - apply (bool_decide_unpack _). vm_compute. exact I.
  - vm_compute. reflexivity.
  - vm_compute in Henc. injection Henc as <-.
    vm_compute in Hdec. discriminate Hdec.
Qed.

(** C3. A ten-letter keyword is a valid key, but its normal form is a
    digit string that [normalize_key] itself rejects. *)
Theorem normalize_key_not_idempotent :
  cipher.validate_key (lit "ABCDEFGHIJ") = true
  ∧ cipher.normalize_key (lit "ABCDEFGHIJ") = Ok (lit "12345678910")
  ∧ cipher.normalize_key (lit "12345678910") = Raise ValueError.
Proof. vm_compute. done. Qed.

(** On keys of at most 9 characters normalisation is idempotent. *)
Lemma normalize_key_idempotent_short (key : str) :
  cipher.validate_key key = true → length key ≤ 9 →
  ∃ numeric_key,
    cipher.normalize_key key = Ok numeric_key
    ∧ cipher.normalize_key numeric_key = Ok numeric_key.
Proof. apply normalize_key_idem_short. Qed.

(** C10. With a valid ten-letter keyword both [encrypt] and [decrypt]
    raise on the empty text: the column of rank 11 is looked up in a
    normal form that has none. *)
Theorem empty_text_long_keyword :
  cipher.validate_key (lit "ABCDEFGHIJ") = true
  ∧ cipher.encrypt [] (lit "ABCDEFGHIJ") false = Raise ValueError
  ∧ cipher.encrypt [] (lit "ABCDEFGHIJ") true = Raise ValueError
  ∧ cipher.decrypt [] (lit "ABCDEFGHIJ") = Raise ValueError.
Proof. vm_compute. done. Qed.

(** With a valid key of at most 9 characters the empty text is accepted
    and gives the empty text. *)
Lemma empty_text_short_keys (key : str) (keep_spaces : bool) :
  cipher.validate_key key = true → length key ≤ 9 →
  cipher.encrypt [] key keep_spaces = Ok []
  ∧ cipher.decrypt [] key = Ok [].
Proof.
  intros Hv Hlen.
  destruct (normalize_key_perm key Hv Hlen) as (k & Hk & Hp & H1).
  assert (Hn : 1 ≤ length key ≤ 9) by lia.
  assert (H0 : (0 + length key - 1) / length key = 0)
    by (apply Nat.div_small; lia).
  split.
  - rewrite (encrypt_perm_key [] key keep_spaces k (length key) Hk Hp Hn).
    replace (length (if negb keep_spaces then remove_spaces [] else []))
      with 0 by (by destruct keep_spaces).
    rewrite H0. f_equal. simpl.
    generalize (seq 1 (length key)). intros l. by induction l.
  - rewrite (decrypt_perm_key [] key k (length key) Hk Hp Hn).
    simpl length. by rewrite H0.
Qed.
(** ** Scoring never raises *)

Lemma for_each_inv {A S} (P : S → Prop) (l : list A) (body : A → S → res S) s :
  P s →
  (∀ x s, x ∈ l → P s → ∃ s', body x s = Ok s' ∧ P s') →
  ∃ s', for_each l body s = Ok s' ∧ P s'.
Proof.
  revert s. induction l as [|x l IH]; intros s Hs Hbody.
  { by exists s. }
  destruct (Hbody x s) as (s1 & Hx & Hs1); [left|done|].
  rewrite for_each_cons, Hx, bind_Ok. apply IH; [done|].
  intros y s2 Hy. apply Hbody. by right.
Qed.

Lemma Qltb_lt a b : Qltb a b = true ↔ (a < b)%Q.
Proof.
  unfold Qltb. rewrite negb_true_iff. split.
  - intros H. apply Qnot_le_lt. intros Hle.
    apply Qle_bool_iff in Hle. congruence.
  - intros H. destruct (Qle_bool b a) eqn:Hle; [|done].
    apply Qle_bool_iff in Hle. by apply Qlt_not_le in H.
Qed.

Lemma Qltb_ge a b : Qltb a b = false ↔ (b <= a)%Q.
Proof.
  unfold Qltb. rewrite negb_false_iff. apply Qle_bool_iff.
Qed.

Lemma div_ok a b : ¬ (b == 0)%Q → div a b = Ok (a / b)%Q.
Proof.
  intros H. unfold div. destruct (Qeq_bool b 0) eqn:Hb; [|done].
  by apply Qeq_bool_iff in Hb.
Qed.

Lemma of_nat_nonzero n : n ≠ 0 → ¬ (of_nat n == 0)%Q.
Proof.
  intros Hn H. unfold of_nat, Qeq in H. simpl in H. lia.
Qed.

Lemma english_freq_total :
  Forall (λ c, ∃ f, scoring.ENGLISH_FREQ !! c = Some f)
         (lit "ABCDEFGHIJKLMNOPQRSTUVWXYZ").
Proof.
  repeat (apply Forall_cons; split; [eexists; vm_compute; reflexivity|]).
  apply Forall_nil_2.
Qed.

Lemma chi_squared_total text : ∃ v, scoring.chi_squared text = Ok v.
Proof.
  unfold scoring.chi_squared. case_bool_decide as Hnil; [by eexists|].
  case_bool_decide as Hcnt; [by eexists|].
  match goal with |- context [for_each ?l ?f ?s] =>
    destruct (for_each_inv (λ _, True) l f s) as (v & -> & _) end;
    [done| |by eexists].
  intros letter chi_sq Hin _.
  pose proof english_freq_total as Hf. rewrite Forall_forall in Hf.
  destruct (Hf letter Hin) as [f Hfl].
  unfold subscript. rewrite Hfl, bind_Ok.
  rewrite div_ok, bind_Ok by done.
  destruct (Qltb 0 _) eqn:Hlt; [|by eexists].
  apply Qltb_lt in Hlt. rewrite div_ok; [by eexists|].
  intros Hz. rewrite Hz in Hlt. by apply Qlt_irrefl in Hlt.
Qed.

Lemma score_letter_frequency_total text :
  ∃ v, scoring.score_letter_frequency text = Ok v.
Proof.
  unfold scoring.score_letter_frequency.
  destruct (chi_squared_total text) as [[q|] ->]; rewrite bind_Ok; [|by eexists].
  rewrite div_ok by done. by eexists.
Qed.

Lemma all_alpha_total (text : str) i n :
  i + n ≤ length text → ∃ b, scoring.all_alpha text i n = Ok b.
Proof.
  revert i. induction n as [|n IH]; intros i Hi; simpl; [by eexists|].
  destruct (text !! i) as [c|] eqn:Hc; [|apply lookup_ge_None in Hc; lia].
  rewrite (getitem_Some _ _ _ Hc), bind_Ok.
  destruct (is_alpha c); [apply IH; lia|by eexists].
Qed.

Lemma score_ngrams_total n table text :
  1 ≤ n → ∃ v, scoring.score_ngrams n table text = Ok v.
Proof.
  intros Hn. unfold scoring.score_ngrams. case_bool_decide as Hlen; [by eexists|].
  match goal with |- context [for_each ?l ?f ?s] =>
    destruct (for_each_inv (λ _, True) l f s) as ([count total] & -> & _) end;
    [done| |].
  - intros i [count total] Hi _. unfold range in Hi. apply elem_of_seq in Hi.
    destruct (all_alpha_total (upper text) i n) as [b ->].
    { unfold upper in *. rewrite length_fmap in *. lia. }
    rewrite bind_Ok. destruct b; [|by eexists].
    case_bool_decide; by eexists.
  - rewrite bind_Ok. case_bool_decide as Ht; [by eexists|].
    rewrite div_ok by (by apply of_nat_nonzero). by eexists.
Qed.

Lemma score_text_total text : ∃ v, scoring.score_text text = Ok v.
Proof.
  unfold scoring.score_text. destruct (_ || _); [by eexists|].
  destruct (score_letter_frequency_total text) as [f ->]. rewrite bind_Ok.
  unfold scoring.score_bigrams, scoring.score_trigrams, scoring.score_quadgrams.
  destruct (score_ngrams_total 2 scoring.COMMON_BIGRAMS text) as [b ->]; [lia|].
  rewrite bind_Ok.
  destruct (score_ngrams_total 3 scoring.COMMON_TRIGRAMS text) as [t ->]; [lia|].
  rewrite bind_Ok.
  destruct (score_ngrams_total 4 scoring.COMMON_QUADGRAMS text) as [q ->]; [lia|].
  rewrite bind_Ok. by eexists.
Qed.

Lemma min_Qmin a b : (min_ a b == Qmin a b)%Q.
Proof.
  unfold min_. destruct (Qltb b a) eqn:H.
  - apply Qltb_lt in H. symmetry. apply Q.min_r. by apply Qlt_le_weak.
  - apply Qltb_ge in H. symmetry. by apply Q.min_l.
Qed.

Lemma score_with_dictionary_ok (text : str) (dict_score : Q) :
  ∃ base,
    scoring.score_text text = Ok base
    ∧ scoring.score_with_dictionary text dict_score
      = Ok (min_ (base * (1 + dict_score * 0.5)) 150).
Proof.
  destruct (score_text_total text) as [base Hbase]. exists base.
  split; [done|]. unfold scoring.score_with_dictionary.
  by rewrite Hbase, bind_Ok.
Qed.

(** C7. [score_with_dictionary] never raises, on any text and any
    dictionary score; its value is the minimum of
    [score_text(text) * (1 + dict_score * 0.5)] and 150, hence at most
    150. *)
Theorem score_with_dictionary_spec (text : str) (dict_score : Q) :
  ∃ base score,
    scoring.score_text text = Ok base
    ∧ scoring.score_with_dictionary text dict_score = Ok score
    ∧ (score == Qmin (base * (1 + dict_score * 0.5)) 150)%Q
    ∧ (score <= 150)%Q.
Proof.
  destruct (score_with_dictionary_ok text dict_score) as (base & Hbase & Hs).
  exists base. eexists. split; [done|]. split; [done|].
  split; [apply min_Qmin|]. rewrite min_Qmin. apply Q.le_min_r.
Qed.

Example score_with_dictionary_empty :
  ∃ score, scoring.score_with_dictionary [] 1 = Ok score ∧ (score == 0)%Q.
Proof. eexists. split; [reflexivity|]. vm_compute. reflexivity. Qed.
(** ** find_words_in_text *)

Lemma elem_of_range x a b : x ∈ range a b ↔ a ≤ x < b.
Proof. unfold range. rewrite elem_of_seq. lia. Qed.

Lemma NoDup_range a b : NoDup (range a b).
Proof. apply NoDup_seq. Qed.

Lemma slice_length {A} (s : list A) i j :
  i ≤ j → j ≤ length s → length (slice s i j) = j - i.
Proof.
  intros Hij Hj. unfold slice. rewrite length_take, length_drop. lia.
Qed.

(** Every word of the dictionary has between 1 and 9 letters. *)
Lemma common_words_length (w : str) :
  w ∈ dictionary.COMMON_WORDS → 1 ≤ length w ≤ 9.
Proof.
  unfold dictionary.COMMON_WORDS. rewrite elem_of_list_to_set. intros Hw.
  assert (Hb : forallb (λ w : str, (1 <=? length w) && (length w <=? 9))
                 (lit <$> dictionary.COMMON_WORDS_literal) = true)
    by (vm_compute; reflexivity).
  rewrite forallb_forall in Hb. apply list_elem_of_In in Hw.
  apply Hb in Hw. apply andb_true_iff in Hw as [H1 H2].
  apply Nat.leb_le in H1. apply Nat.leb_le in H2. done.
Qed.

Lemma find_words_in_text_elems (text : str) (min_length : nat) :
  NoDup (dictionary.find_words_in_text text min_length)
  ∧ ∀ word start end_,
      (word, start, end_) ∈ dictionary.find_words_in_text text min_length
      ↔ start ≤ end_ ∧ end_ ≤ length text
        ∧ min_length ≤ end_ - start ≤ 15
        ∧ word = slice (upper text) start end_
        ∧ word ∈ dictionary.COMMON_WORDS.
Proof.
  unfold dictionary.find_words_in_text.
  pose proof common_words_length as Hwords.
  set (words := dictionary.COMMON_WORDS) in *. clearbody words.
  assert (Hlen : length (upper text) = length text)
    by (unfold upper; by rewrite length_fmap).
  rewrite Hlen. split.
  - apply NoDup_bind; [| |apply NoDup_range].
    + intros i1 i2 [[w s] e] _ _ H1 H2.
      apply list_elem_of_bind in H1 as (j1 & H1 & _).
      apply list_elem_of_bind in H2 as (j2 & H2 & _).
      destruct (contains _ _); [|by apply elem_of_nil in H1].
      destruct (contains _ _); [|by apply elem_of_nil in H2].
      apply list_elem_of_singleton in H1, H2. congruence.
    + intros i _. apply NoDup_bind; [| |apply NoDup_range].
      * intros j1 j2 [[w s] e] _ _ H1 H2.
        destruct (contains _ _); [|by apply elem_of_nil in H1].
        destruct (contains _ _); [|by apply elem_of_nil in H2].
        apply list_elem_of_singleton in H1, H2. congruence.
      * intros j _. destruct (contains _ _); [apply NoDup_singleton|apply NoDup_nil_2].
  - intros word start end_. rewrite list_elem_of_bind. split.
    + intros (i & Hin & Hi). apply list_elem_of_bind in Hin as (j & Hin & Hj).
      apply elem_of_range in Hi, Hj.
      destruct (contains _ _) eqn:Hc; [|by apply elem_of_nil in Hin].
      apply list_elem_of_singleton in Hin. injection Hin as -> -> ->.
      unfold contains in Hc. apply bool_decide_eq_true in Hc.
      repeat split; (done || lia).
    + intros (Hse & He & Hm & -> & Hw).
      pose proof (Hwords _ Hw) as Hl.
      rewrite slice_length in Hl by lia.
      exists start. split; [|apply elem_of_range; lia].
      apply list_elem_of_bind. exists end_. split; [|apply elem_of_range; lia].
      unfold contains. rewrite bool_decide_eq_true_2 by done.
      apply list_elem_of_singleton. done.
Qed.




(** ** The dictionary score never raises *)

Lemma score_text_by_dictionary_total text :
  ∃ v, dictionary.score_text_by_dictionary text = Ok v.
Proof.
  unfold dictionary.score_text_by_dictionary.
  case_bool_decide as Hnil; [by eexists|].
  case_bool_decide as Hfound; [by eexists|].
  assert (Hlen : length (upper text) ≠ 0).
  { unfold upper. rewrite length_fmap. by destruct text. }
  match goal with |- context [for_each ?l ?f ?s] =>
    destruct (for_each_inv (λ cov, length cov = length (upper text)) l f s)
      as (cov & -> & _) end.
  - by rewrite length_replicate.
  - intros [[w s] e] cov Hin Hcov.
    unfold sorted_reverse in Hin. rewrite sorted_Permutation in Hin.
    apply (find_words_in_text_elems (upper text) 2) in Hin as (_ & He & _).
    destruct (negb _); [|by exists cov].
    apply (for_each_inv (λ cov, length cov = length (upper text))); [done|].
    intros k cov' Hk Hcov'. apply elem_of_range in Hk.
    rewrite setitem_ok by lia. eexists. split; [done|].
    by rewrite length_insert.
  - rewrite bind_Ok, div_ok by (by apply of_nat_nonzero). by eexists.
Qed.

Lemma evaluate_plaintext_total plaintext :
  ∃ v, attack.evaluate_plaintext plaintext = Ok v.
Proof.
  unfold attack.evaluate_plaintext.
  destruct (score_text_total plaintext) as [b Hb]. rewrite Hb, bind_Ok.
  destruct (score_text_by_dictionary_total plaintext) as [d ->].
  rewrite bind_Ok.
  destruct (score_with_dictionary_ok plaintext d) as (? & _ & ->).
  rewrite bind_Ok. by eexists.
Qed.
(** ** Evaluation on concrete texts *)

Lemma contains_common_words (w : str) :
  contains dictionary.COMMON_WORDS w = bool_decide (w ∈ listed_words).
Proof.
  unfold contains. apply bool_decide_ext.
  unfold dictionary.COMMON_WORDS. fold listed_words.
  set (l := listed_words). clearbody l.
  apply elem_of_list_to_set.
Qed.

Lemma find_words_in_text_listed text min_length :
  dictionary.find_words_in_text text min_length = find_words_listed text min_length.
Proof.
  unfold dictionary.find_words_in_text, find_words_listed. cbv zeta.
  apply list_bind_ext; [|done]. intros i.
  apply list_bind_ext; [|done]. intros j.
  by rewrite contains_common_words.
Qed.

Lemma score_by_words_ext f g text :
  (∀ t m, f t m = g t m) → score_by_words f text = score_by_words g text.
Proof. intros H. unfold score_by_words. by rewrite H. Qed.

Lemma evaluate_plaintext_listed plaintext :
  attack.evaluate_plaintext plaintext = evaluate_listed plaintext.
Proof.
  unfold attack.evaluate_plaintext, evaluate_listed.
  change (dictionary.score_text_by_dictionary plaintext)
    with (score_by_words dictionary.find_words_in_text plaintext).
  by rewrite (score_by_words_ext _ find_words_listed plaintext
                find_words_in_text_listed).
Qed.

Lemma evaluate_plaintext_score plaintext :
  attack.evaluate_plaintext plaintext = Ok (score_of plaintext).
Proof.
  destruct (evaluate_plaintext_total plaintext) as [v Hv].
  unfold score_of. rewrite <- (evaluate_plaintext_listed plaintext).
  rewrite Hv. reflexivity.
Qed.

Example find_words_in_text_the :
  dictionary.find_words_in_text (lit "the") 2
  = [(lit "THE", 0, 3); (lit "HE", 1, 3)].
Proof. rewrite find_words_in_text_listed. vm_compute. reflexivity. Qed.
(** ** Stable sorting *)

Section stable.
Context {A K : Type} (key : A → K) (ltb : K → K → bool) (before : A → A → Prop).
Hypothesis ltb_asym : ∀ a b, ltb a b = true → ltb b a = false.
Hypothesis ltb_cotrans : ∀ a b c, ltb a b = true → ltb a c = true ∨ ltb c b = true.

Lemma insert_by_sorted x s :
  StronglySorted (sorted_by key ltb before) s →
  Forall (before x) s →
  StronglySorted (sorted_by key ltb before) (insert_by key ltb x s).
Proof using ltb_asym ltb_cotrans.
  induction s as [|y s IH]; intros Hs Hx; simpl.
  { repeat constructor. }
  apply StronglySorted_cons in Hs as [Hy Hs].
  apply Forall_cons in Hx as [Hxy Hx].
  destruct (ltb (key y) (key x)) eqn:Hlt.
  - apply StronglySorted_cons. split; [|by apply IH].
    rewrite Forall_forall in Hy |- *. intros z Hz.
    rewrite insert_by_Permutation in Hz.
    apply elem_of_cons in Hz as [->|Hz]; [by left|by apply Hy].
  - apply StronglySorted_cons. split; [|by apply StronglySorted_cons].
    apply Forall_cons. split.
    + destruct (ltb (key x) (key y)) eqn:Hxy'; [by left|by right].
    + rewrite Forall_forall in Hx, Hy |- *. intros z Hz.
      destruct (ltb (key x) (key z)) eqn:Hxz; [by left|right].
      split; [|by apply Hx].
      destruct (ltb (key z) (key x)) eqn:Hzx; [|done].
      destruct (ltb_cotrans _ _ (key y) Hzx) as [Hzy|Hyx]; [|congruence].
      destruct (Hy z Hz) as [Hyz|[Hzy' _]]; [|congruence].
      apply ltb_asym in Hyz. congruence.
Qed.

Lemma sorted_stable l :
  StronglySorted before l →
  StronglySorted (sorted_by key ltb before) (sorted key ltb l).
Proof using ltb_asym ltb_cotrans.
  induction l as [|x l IH]; intros Hl; simpl; [constructor|].
  apply StronglySorted_cons in Hl as [Hx Hl].
  apply insert_by_sorted; [by apply IH|].
  fold (sorted key ltb l). by rewrite sorted_Permutation.
Qed.
End stable.

Lemma Qltb_asym a b : Qltb a b = true → Qltb b a = false.
Proof.
  intros H. apply Qltb_lt in H. apply Qltb_ge. by apply Qlt_le_weak.
Qed.

Lemma Qltb_cotrans a b c : Qltb a b = true → Qltb a c = true ∨ Qltb c b = true.
Proof.
  intros H. apply Qltb_lt in H.
  destruct (Qlt_le_dec a c) as [?|Hle]; [left; by apply Qltb_lt|].
  right. apply Qltb_lt. by apply (Qle_lt_trans _ a).
Qed.

Lemma StronglySorted_impl {A} (R R' : A → A → Prop) l :
  (∀ a b, R a b → R' a b) → StronglySorted R l → StronglySorted R' l.
Proof.
  intros HR. induction 1 as [|a l _ IH Ha]; constructor; [done|].
  eapply Forall_impl; [done|]. intros b. apply HR.
Qed.

Lemma StronglySorted_fmap_inv {A B} (f : A → B) (R : B → B → Prop) l :
  StronglySorted R (f <$> l) → StronglySorted (λ a b, R (f a) (f b)) l.
Proof.
  induction l as [|x l IH]; intros H; [constructor|].
  rewrite fmap_cons in H. apply StronglySorted_cons in H as [Hx Hl].
  constructor; [by apply IH|]. rewrite Forall_fmap in Hx. exact Hx.
Qed.

Lemma StronglySorted_fmap_mono {A B} (f : A → B) (R : A → A → Prop)
    (R' : B → B → Prop) l :
  (∀ a b, R a b → R' (f a) (f b)) →
  StronglySorted R l → StronglySorted R' (f <$> l).
Proof.
  intros HR. induction 1 as [|a l _ IH Ha]; [constructor|].
  rewrite fmap_cons. constructor; [done|].
  apply Forall_fmap. eapply Forall_impl; [done|]. intros b. apply HR.
Qed.

Lemma StronglySorted_bind {A B} (f : A → list B) (R' : A → A → Prop)
    (R : B → B → Prop) l :
  StronglySorted R' l →
  (∀ a, a ∈ l → StronglySorted R (f a)) →
  (∀ a b x y, a ∈ l → b ∈ l → R' a b → x ∈ f a → y ∈ f b → R x y) →
  StronglySorted R (l ≫= f).
Proof.
  induction 1 as [|a l Hl IH Ha]; intros Hin Hcross; [constructor|].
  rewrite bind_cons. apply StronglySorted_app_2.
  - intros x y Hx Hy. apply list_elem_of_bind in Hy as (b & Hy & Hb).
    rewrite Forall_forall in Ha.
    apply (Hcross a b); [left|by right|by apply Ha|done..].
  - apply Hin. left.
  - apply IH.
    + intros b Hb. apply Hin. by right.
    + intros b1 b2 x y Hb1 Hb2. apply Hcross; by right.
Qed.

Lemma StronglySorted_NoDup {A} (R : A → A → Prop) l :
  (∀ a, ¬ R a a) → StronglySorted R l → NoDup l.
Proof.
  intros Hirr. induction 1 as [|a l _ IH Ha]; constructor; [|done].
  intros Hin. rewrite Forall_forall in Ha. by apply (Hirr a), Ha.
Qed.

(** ** itertools.permutations *)

Lemma selections_Permutation {A} (l : list A) x r :
  (x, r) ∈ selections l → l ≡ₚ x :: r.
Proof.
  revert x r. induction l as [|y l IH]; intros x r H; simpl in H.
  { by apply elem_of_nil in H. }
  apply elem_of_cons in H as [H|H]; [by injection H as -> ->|].
  apply list_elem_of_fmap in H as ([x' r'] & Heq & H).
  injection Heq as -> ->. rewrite (IH _ _ H). apply Permutation_swap.
Qed.

Lemma selections_elem {A} (l : list A) x :
  x ∈ l → ∃ r, (x, r) ∈ selections l.
Proof.
  induction l as [|y l IH]; intros H; [by apply elem_of_nil in H|].
  apply elem_of_cons in H as [->|H].
  - exists l. simpl. left.
  - destruct (IH H) as [r Hr]. exists (y :: r). simpl. right.
    apply list_elem_of_fmap. by exists (x, r).
Qed.

Lemma selections_fmap {A B} (f : A → B) (l : list A) :
  selections (f <$> l) = prod_map f (fmap (M:=list) f) <$> selections l.
Proof.
  induction l as [|x l IH]; [done|].
  rewrite fmap_cons. simpl. rewrite IH. f_equal.
  rewrite <- !list_fmap_compose. apply list_fmap_ext. by intros ? [??] _.
Qed.

Lemma selections_sorted {A} (lt : A → A → Prop) (l : list A) :
  StronglySorted lt l →
  StronglySorted (λ a b, lt a.1 b.1) (selections l)
  ∧ ∀ x r, (x, r) ∈ selections l → StronglySorted lt r.
Proof.
  induction 1 as [|y l Hl [IH1 IH2] Hy]; simpl.
  { split; [constructor|]. intros x r H. by apply elem_of_nil in H. }
  split.
  - constructor.
    + apply (StronglySorted_fmap_mono _ (λ a b, lt a.1 b.1)); [|done].
      by intros [??] [??].
    + apply Forall_fmap, Forall_forall. intros [x r] Hx. simpl.
      rewrite Forall_forall in Hy. apply Hy.
      rewrite (selections_Permutation _ _ _ Hx). left.
  - intros x r H. apply elem_of_cons in H as [H|H]; [by injection H as -> ->|].
    apply list_elem_of_fmap in H as ([x' r'] & Heq & H).
    injection Heq as -> ->. constructor; [by eapply IH2|].
    rewrite Forall_forall in Hy |- *. intros z Hz. apply Hy.
    rewrite (selections_Permutation _ _ _ H). by right.
Qed.

Lemma permutations_n_elem {A} n (l p : list A) :
  length l = n → p ∈ permutations_n n l ↔ p ≡ₚ l.
Proof.
  revert l p. induction n as [|n IH]; intros l p Hl; simpl.
  { destruct l; [|done]. rewrite list_elem_of_singleton. split; [by intros ->|].
    intros H. by apply Permutation_nil_r in H. }
  rewrite list_elem_of_bind. split.
  - intros ([x r] & Hp & Hsel). apply list_elem_of_fmap in Hp as (p' & -> & Hp').
    pose proof (selections_Permutation _ _ _ Hsel) as Hperm. simpl in *.
    apply IH in Hp'.
    + by rewrite Hperm, Hp'.
    + apply Permutation_length in Hperm. simpl in Hperm. lia.
  - intros Hp. destruct p as [|x p].
    { apply Permutation_length in Hp. simpl in Hp. lia. }
    destruct (selections_elem l x) as [r Hr]; [rewrite <- Hp; left|].
    exists (x, r). split; [|done]. apply list_elem_of_fmap. exists p.
    split; [done|]. pose proof (selections_Permutation _ _ _ Hr) as Hperm.
    apply IH.
    + apply Permutation_length in Hperm. simpl in *. lia.
    + rewrite Hperm in Hp. by apply Permutation_cons_inv in Hp.
Qed.

Lemma permutations_elem {A} (l p : list A) : p ∈ permutations l ↔ p ≡ₚ l.
Proof. by apply permutations_n_elem. Qed.

Lemma permutations_n_fmap {A B} (f : A → B) n (l : list A) :
  permutations_n n (f <$> l) = fmap (M:=list) f <$> permutations_n n l.
Proof.
  revert l. induction n as [|n IH]; intros l; [done|]. simpl.
  rewrite selections_fmap. generalize (selections l). intros sel.
  induction sel as [|[x r] sel IHsel]; [done|].
  rewrite fmap_cons, !bind_cons, fmap_app, IHsel. f_equal. simpl.
  rewrite IH, <- !list_fmap_compose. done.
Qed.

Lemma permutations_fmap {A B} (f : A → B) (l : list A) :
  permutations (f <$> l) = fmap (M:=list) f <$> permutations l.
Proof. unfold permutations. by rewrite length_fmap, permutations_n_fmap. Qed.

Lemma permutations_n_sorted {A} (lt : A → A → Prop) n (l : list A) :
  StronglySorted lt l →
  StronglySorted (lex_lt lt) (permutations_n n l).
Proof.
  revert l. induction n as [|n IH]; intros l Hl; simpl.
  { repeat constructor. }
  destruct (selections_sorted lt l Hl) as [Hsel Hrest].
  apply (StronglySorted_bind _ (λ a b, lt a.1 b.1)); [done| |].
  - intros [x r] Hx. simpl.
    apply (StronglySorted_fmap_mono _ (lex_lt lt)); [by constructor 3|].
    apply IH. by eapply Hrest.
  - intros [x r] [y r'] p q _ _ Hxy Hp Hq. simpl in *.
    apply list_elem_of_fmap in Hp as (p' & -> & _).
    apply list_elem_of_fmap in Hq as (q' & -> & _).
    by constructor 2.
Qed.
(** ** brute_force_attack *)

Lemma fmap_bind_singletons {A B} (f : A → list B) (g : B → A) (l : list A) :
  (∀ x, x ∈ l → ∃ y, f x = [y] ∧ g y = x) → g <$> (l ≫= f) = l.
Proof.
  induction l as [|x l IH]; intros H; [done|].
  destruct (H x) as (y & Hy & Hg); [left|].
  rewrite bind_cons, fmap_app, Hy, IH by (intros; apply H; by right).
  simpl. by rewrite Hg.
Qed.

Lemma fmap_bind_blocks {A B C} (f : A → list B) (g : B → C) (h : A → list C)
    (l : list A) :
  (∀ x, x ∈ l → g <$> f x = h x) → g <$> (l ≫= f) = l ≫= h.
Proof.
  induction l as [|x l IH]; intros H; [done|].
  rewrite !bind_cons, fmap_app, H, IH by (try left; intros; apply H; by right).
  done.
Qed.

Lemma Forall_bind_2 {A B} (P : B → Prop) (f : A → list B) (l : list A) :
  (∀ x, x ∈ l → Forall P (f x)) → Forall P (l ≫= f).
Proof.
  intros H. apply Forall_forall. intros y Hy.
  apply list_elem_of_bind in Hy as (x & Hy & Hx).
  specialize (H x Hx). rewrite Forall_forall in H. by apply H.
Qed.

Lemma digit_strings n :
  n ≤ 9 →
  str_of_nat <$> range 1 (n + 1) = (λ c, [c]) <$> (digit_char <$> seq 1 n).
Proof.
  intros Hn. unfold range. replace (n + 1 - 1) with n by lia.
  rewrite <- list_fmap_compose. apply tab_ext. intros d Hd. simpl.
  apply str_of_nat_digit. lia.
Qed.

Lemma concat_fmap_singleton {A} (l : list A) : concat ((λ c, [c]) <$> l) = l.
Proof. induction l as [|x l IH]; [done|]. rewrite fmap_cons. simpl. f_equal. apply IH. Qed.

(** The keys tried for one length are the permutations of its digits. *)
Lemma key_perms_eq n :
  n ≤ 9 →
  (λ p : list str, concat p) <$> permutations (str_of_nat <$> range 1 (n + 1))
  = permutations (digit_char <$> seq 1 n).
Proof.
  intros Hn. rewrite digit_strings, permutations_fmap by done.
  rewrite <- list_fmap_compose. apply fmap_id_on.
  intros p _. simpl. apply concat_fmap_singleton.
Qed.

Lemma normalize_perm_key n key :
  1 ≤ n ≤ 9 → perm_key n key → cipher.normalize_key key = Ok key.
Proof.
  intros Hn Hp. destruct (validate_numeric n key Hn Hp) as [Hv Hd].
  unfold cipher.normalize_key. by rewrite Hv, Hd.
Qed.

Lemma decrypt_total n ciphertext key :
  1 ≤ n ≤ 9 → perm_key n key → ∃ p, cipher.decrypt ciphertext key = Ok p.
Proof.
  intros Hn Hp. eexists.
  by apply (decrypt_perm_key _ _ key n); [apply (normalize_perm_key n)|..].
Qed.

Lemma attempt_perm_key n ciphertext key :
  1 ≤ n ≤ 9 → perm_key n key →
  ∃ p s, attempt ciphertext key = [(key, p, s)]
         ∧ cipher.decrypt ciphertext key = Ok p
         ∧ attack.evaluate_plaintext p = Ok s.
Proof.
  intros Hn Hp. destruct (decrypt_total n ciphertext key Hn Hp) as [p Hdec].
  destruct (evaluate_plaintext_total p) as [s Hs].
  exists p, s. split; [|done].
  unfold attempt. rewrite Hdec, bind_Ok.
  unfold attack.evaluate_plaintext in Hs.
  destruct (scoring.score_text p) as [b|]; [|done]. simpl in *.
  destruct (dictionary.score_text_by_dictionary p) as [d|]; [|done]. simpl in *.
  destruct (scoring.score_with_dictionary p d) as [v|]; [|done]. simpl in *.
  by injection Hs as ->.
Qed.

Lemma brute_force_attack_unfold ciphertext max_key_length :
  attack.brute_force_attack ciphertext max_key_length
  = sorted_reverse (λ x : attack.candidate, x.2) Qltb
      (unsorted_results ciphertext max_key_length).
Proof. done. Qed.

Lemma all_keys_elem m key :
  key ∈ all_keys m ↔ ∃ n, 1 ≤ n ≤ m ∧ perm_key n key.
Proof.
  unfold all_keys. rewrite list_elem_of_bind. split.
  - intros (n & Hk & Hn). apply elem_of_seq in Hn.
    apply permutations_elem in Hk. exists n. split; [lia|done].
  - intros (n & Hn & Hk). exists n. split; [by apply permutations_elem|].
    apply elem_of_seq. lia.
Qed.

Lemma unsorted_results_keys ciphertext m :
  m ≤ 9 →
  (λ r : attack.candidate, r.1.1) <$> unsorted_results ciphertext m = all_keys m
  ∧ Forall (λ r : attack.candidate,
              cipher.decrypt ciphertext r.1.1 = Ok r.1.2
              ∧ attack.evaluate_plaintext r.1.2 = Ok r.2)
           (unsorted_results ciphertext m).
Proof.
  intros Hm. unfold unsorted_results, all_keys.
  replace (range 1 (m + 1)) with (seq 1 m)
    by (unfold range; f_equal; lia).
  split.
  - apply fmap_bind_blocks. intros n Hn. apply elem_of_seq in Hn.
    rewrite key_perms_eq by lia. apply fmap_bind_singletons.
    intros key Hkey. apply permutations_elem in Hkey.
    destruct (attempt_perm_key n ciphertext key) as (p & s & -> & _);
      [lia|done|]. by eexists.
  - apply Forall_bind_2. intros n Hn. apply elem_of_seq in Hn.
    rewrite key_perms_eq by lia. apply Forall_bind_2.
    intros key Hkey. apply permutations_elem in Hkey.
    destruct (attempt_perm_key n ciphertext key) as (p & s & -> & ? & ?);
      [lia|done|]. by repeat constructor.
Qed.

Lemma lex_lt_irrefl {A} (lt : A → A → Prop) l :
  (∀ a, ¬ lt a a) → ¬ lex_lt lt l l.
Proof.
  intros Hirr. induction l as [|x l IH]; intros H; inversion H; subst.
  - by eapply Hirr.
  - by apply IH.
Qed.

Lemma key_before_irrefl k : ¬ key_before k k.
Proof.
  intros [H|[_ H]]; [lia|]. apply lex_lt_irrefl in H; [done|].
  intros a. unfold char_lt. lia.
Qed.

Lemma seq_sorted a n :
  StronglySorted (λ x y, x < y ∧ y < a + n) (seq a n).
Proof.
  revert a. induction n as [|n IH]; intros a; simpl; constructor.
  - eapply StronglySorted_impl; [|apply (IH (S a))]. intros x y. simpl. lia.
  - apply Forall_forall. intros y Hy. apply elem_of_seq in Hy. lia.
Qed.

Lemma code_digit_char d : d ≤ 9 → code (digit_char d) = 48 + d.
Proof. intros H. unfold code, digit_char. apply nat_ascii_embedding. lia. Qed.

Lemma digits_sorted n :
  n ≤ 9 → StronglySorted char_lt (digit_char <$> seq 1 n).
Proof.
  intros Hn. eapply StronglySorted_fmap_mono; [|apply seq_sorted].
  intros a b [Hab Hb]. unfold char_lt. rewrite !code_digit_char by lia. lia.
Qed.

Lemma StronglySorted_impl_elem {A} (R R' : A → A → Prop) l :
  (∀ a b, a ∈ l → b ∈ l → R a b → R' a b) →
  StronglySorted R l → StronglySorted R' l.
Proof.
  intros HR Hl. induction Hl as [|a l _ IH Ha]; constructor.
  - apply IH. intros x y Hx Hy. apply HR; by right.
  - rewrite Forall_forall in Ha |- *. intros b Hb.
    apply HR; [left|by right|by apply Ha].
Qed.

Lemma all_keys_sorted m : m ≤ 9 → StronglySorted key_before (all_keys m).
Proof.
  intros Hm. unfold all_keys.
  apply (StronglySorted_bind _ (λ x y, x < y ∧ y < 1 + m)); [apply seq_sorted| |].
  - intros n Hn. apply elem_of_seq in Hn.
    eapply StronglySorted_impl_elem;
      [|apply permutations_n_sorted, (digits_sorted n); lia].
    intros p q Hp Hq Hlt. right. split; [|done].
    apply permutations_elem, Permutation_length in Hp, Hq. congruence.
  - intros n1 n2 p q _ _ [Hlt _] Hp Hq. left.
    apply permutations_elem, Permutation_length in Hp, Hq.
    rewrite length_fmap, length_seq in Hp, Hq. lia.
Qed.

Lemma brute_force_attack_sorted ciphertext m :
  m ≤ 9 →
  StronglySorted
    (λ a b : attack.candidate,
       (b.2 < a.2)%Q ∨ ((a.2 == b.2)%Q ∧ key_before a.1.1 b.1.1))
    (attack.brute_force_attack ciphertext m).
Proof.
  intros Hm. rewrite brute_force_attack_unfold. unfold sorted_reverse.
  eapply StronglySorted_impl;
    [|apply (sorted_stable _ (flip Qltb)
               (λ a b : attack.candidate, key_before a.1.1 b.1.1))].
  - intros a b [H|[H Hb]]; unfold flip in *.
    + left. by apply Qltb_lt.
    + apply Qltb_ge in H. destruct (Qlt_le_dec b.2 a.2) as [?|Hle]; [by left|].
      right. split; [by apply Qle_antisym|done].
  - intros x y. unfold flip. apply Qltb_asym.
  - intros x y z H. unfold flip in *.
    destruct (Qltb_cotrans _ _ z H); [by right|by left].
  - apply StronglySorted_fmap_inv.
    destruct (unsorted_results_keys ciphertext m Hm) as [-> _].
    by apply all_keys_sorted.
Qed.

(** X29. With [max_key_length <= 9], [brute_force_attack] returns one
    triple (key, plaintext, score) for every permutation key of every
    length 1..max_key_length and no other: no key comes twice, the
    plaintext is the decryption under the key and the score the evaluation
    of that plaintext. *)
Theorem brute_force_attack_lists_every_key (ciphertext : str) (max_key_length : nat) :
  max_key_length ≤ 9 →
  let results := attack.brute_force_attack ciphertext max_key_length in
  let keys := (λ r : attack.candidate, r.1.1) <$> results in
  NoDup keys
  ∧ (∀ key, key ∈ keys ↔ ∃ n, 1 ≤ n ≤ max_key_length ∧ perm_key n key)
  ∧ Forall (λ r : attack.candidate,
              cipher.decrypt ciphertext r.1.1 = Ok r.1.2
              ∧ attack.evaluate_plaintext r.1.2 = Ok r.2) results.
Proof.
  intros Hm results keys.
  destruct (unsorted_results_keys ciphertext max_key_length Hm) as [Hkeys Hall].
  assert (Hperm : results ≡ₚ unsorted_results ciphertext max_key_length).
  { unfold results. rewrite brute_force_attack_unfold. unfold sorted_reverse.
    apply sorted_Permutation. }
  assert (Hk : keys ≡ₚ all_keys max_key_length).
  { unfold keys. by rewrite Hperm, Hkeys. }
  split; [|split].
  - rewrite Hk. eapply StronglySorted_NoDup;
      [apply key_before_irrefl|by apply all_keys_sorted].
  - intros key. rewrite Hk. apply all_keys_elem.
  - by rewrite Hperm.
Qed.

Lemma brute_force_attack_lists_every_key_witness :
  let results := attack.brute_force_attack (lit "EHT UQCI KRBWO NOFX") 7 in
  let keys := (λ r : attack.candidate, r.1.1) <$> results in
  NoDup keys
  ∧ (∀ key, key ∈ keys ↔ ∃ n, 1 ≤ n ≤ 7 ∧ perm_key n key)
  ∧ Forall (λ r : attack.candidate,
              cipher.decrypt (lit "EHT UQCI KRBWO NOFX") r.1.1 = Ok r.1.2
              ∧ attack.evaluate_plaintext r.1.2 = Ok r.2) results.
Proof.
  apply (brute_force_attack_lists_every_key (lit "EHT UQCI KRBWO NOFX") 7). lia.
Defined.

Lemma StronglySorted_lookup {A} (R : A → A → Prop) l i j a b :
  StronglySorted R l → l !! i = Some a → l !! j = Some b → i < j → R a b.
Proof.
  intros Hl. revert i j. induction Hl as [|x l _ IH Hx]; intros i j Hi Hj Hij.
  { done. }
  destruct j as [|j]; [lia|]. simpl in Hj. destruct i as [|i]; simpl in Hi.
  - injection Hi as ->. rewrite Forall_forall in Hx. apply Hx.
    by eapply list_elem_of_lookup_2.
  - apply (IH i j); (done || lia).
Qed.
(** ** analyze_ciphertext *)








Lemma range_sorted a b : StronglySorted lt (range a b).
Proof.
  unfold range. eapply StronglySorted_impl; [|apply seq_sorted].
  intros x y. simpl. lia.
Qed.

(** ** calculate_ic *)

Lemma first_occurrences_snoc (l : str) c :
  first_occurrences (l ++ [c])
  = if bool_decide (c ∈ first_occurrences l)
    then first_occurrences l else first_occurrences l ++ [c].
Proof. unfold first_occurrences. by rewrite foldl_app. Qed.

Lemma elem_of_first_occurrences c (l : str) : c ∈ first_occurrences l ↔ c ∈ l.
Proof.
  induction l as [|x l IH] using rev_ind; [done|].
  rewrite first_occurrences_snoc, elem_of_app, list_elem_of_singleton.
  case_bool_decide as Hx; [|by rewrite elem_of_app, list_elem_of_singleton, IH].
  rewrite IH. split; [by left|]. intros [?| ->]; [done|by apply IH].
Qed.

Lemma NoDup_first_occurrences (l : str) : NoDup (first_occurrences l).
Proof.
  induction l as [|x l IH] using rev_ind; [constructor|].
  rewrite first_occurrences_snoc. case_bool_decide as Hx; [done|].
  apply NoDup_app. split; [done|]. split; [|apply NoDup_singleton].
  intros y Hy ->%list_elem_of_singleton. done.
Qed.

Lemma occurrences_snoc c x (l : str) :
  occurrences c (l ++ [x]) = occurrences c l + (if bool_decide (x = c) then 1 else 0).
Proof.
  unfold occurrences. rewrite filter_app, length_app, filter_cons, filter_nil.
  case_decide; case_bool_decide; done.
Qed.

Lemma occurrences_0 c (l : str) : c ∉ l → occurrences c l = 0.
Proof.
  intros Hc. unfold occurrences. induction l as [|x l IH]; [done|].
  rewrite filter_cons, decide_False; [apply IH|]; intros ?; apply Hc;
    [by right|subst; left].
Qed.

(** The table of letter counts that [calculate_ic] builds. *)
Lemma dict_get_or_counts (seen l : str) c :
  NoDup seen → (c ∉ seen → c ∉ l) →
  attack.dict_get_or ((λ x, (x, occurrences x l)) <$> seen) c 0 = occurrences c l.
Proof.
  intros Hnd Hc. unfold attack.dict_get_or.
  destruct (list_find _ _) as [[i [k v]]|] eqn:Hfind.
  - apply list_find_Some in Hfind as (Hi & Hk & _). simpl in Hk. subst k.
    apply list_lookup_fmap_Some in Hi as (x & Hx & Heq). by simplify_eq.
  - apply list_find_None in Hfind. symmetry. apply occurrences_0, Hc.
    intros Hin. rewrite Forall_forall in Hfind.
    apply (Hfind (c, occurrences c l)); [|done].
    apply list_elem_of_fmap. by exists c.
Qed.

Lemma dict_set_counts (l : str) c :
  attack.dict_set ((λ x, (x, occurrences x l)) <$> first_occurrences l) c
                  (occurrences c l + 1)
  = (λ x, (x, occurrences x (l ++ [c]))) <$> first_occurrences (l ++ [c]).
Proof.
  unfold attack.dict_set. rewrite <- list_fmap_compose, first_occurrences_snoc.
  simpl. rewrite list_fmap_id.
  case_bool_decide as Hc.
  - rewrite <- list_fmap_compose. apply list_fmap_ext. intros ? x ?. simpl.
    rewrite occurrences_snoc. case_bool_decide as Hx.
    + subst x. by rewrite bool_decide_eq_true_2.
    + rewrite bool_decide_eq_false_2 by done. by rewrite Nat.add_0_r.
  - rewrite fmap_app. f_equal.
    + apply list_fmap_ext. intros ? x Hx. f_equal.
      rewrite occurrences_snoc, bool_decide_eq_false_2; [lia|].
      intros ->. apply Hc. by eapply list_elem_of_lookup_2.
    + simpl. rewrite occurrences_snoc, bool_decide_eq_true_2 by done. done.
Qed.

Lemma count_letters (text done : str) :
  foldl (λ '((letter_counts, total_letters) : list (ascii * nat) * nat) char,
           if is_alpha char
           then (attack.dict_set letter_counts char
                   (attack.dict_get_or letter_counts char 0 + 1),
                 total_letters + 1)
           else (letter_counts, total_letters))
        ((λ x, (x, occurrences x done)) <$> first_occurrences done, length done)
        text
  = let l := done ++ filter (λ c, is_alpha c = true) text in
    ((λ x, (x, occurrences x l)) <$> first_occurrences l, length l).
Proof.
  revert done. induction text as [|c text IH]; intros done.
  { simpl. by rewrite app_nil_r. }
  simpl foldl. rewrite filter_cons. destruct (is_alpha c) eqn:Hc.
  - rewrite decide_True by done.
    rewrite (dict_get_or_counts (first_occurrences done) done c);
      [|apply NoDup_first_occurrences|by rewrite elem_of_first_occurrences].
    rewrite dict_set_counts.
    replace (length done + 1) with (length (done ++ [c]))
      by (rewrite length_app; done).
    rewrite IH. cbv zeta.
    by replace ((done ++ [c]) ++ filter (λ c, is_alpha c = true) text)
      with (done ++ c :: filter (λ c, is_alpha c = true) text)
      by (by rewrite <- (assoc (++))).
  - rewrite decide_False by done. apply IH.
Qed.

Section rounding.
Variable fl : rounding.
Hypothesis fl_nonzero : ∀ n, 1 ≤ n → ¬ (fl (of_nat n) == 0)%Q.

Lemma fdiv_ok a n : 1 ≤ n → fdiv fl a (fl (of_nat n)) = Ok (fl (a / fl (of_nat n))%Q).
Proof.
  intros Hn. unfold fdiv.
  destruct (Qeq_bool _ 0) eqn:Hz; [|done].
  apply Qeq_bool_iff in Hz. by apply fl_nonzero in Hz.
Qed.

Lemma calculate_ic_with_eq text :
  attack.calculate_ic_with fl text = Ok (index_of_coincidence fl text).
Proof.
  unfold attack.calculate_ic_with, index_of_coincidence, letters.
  assert (Hlen : length (filter (λ c, is_alpha c = true) (upper text)) ≤ length text).
  { etrans; [apply length_filter|]. unfold upper. by rewrite length_fmap. }
  case_bool_decide as Hshort.
  { by rewrite bool_decide_eq_true_2 by lia. }
  pose proof (count_letters (upper text) []) as Hcount. simpl in Hcount.
  rewrite Hcount. clear Hcount.
  set (l := filter _ (upper text)) in *.
  case_bool_decide as Hfew; [done|].
  rewrite fdiv_ok by nia. do 3 f_equal.
  rewrite <- list_fmap_compose. simpl.
  by rewrite (foldl_fmap _ _ _ (λ x, occurrences x l)).
Qed.







End rounding.

(** ** binary64 *)





Lemma exact_nonzero n : 1 ≤ n → ¬ (exact (of_nat n) == 0)%Q.
Proof. intros Hn. by apply of_nat_nonzero; lia. Qed.



(** The trial lengths 4 and 6 of this ciphertext have the same average
    Index of Coincidence, 2/3; in binary64 the sum of six columns divided
    by 6 comes out one unit in the last place below the sum of four
    divided by 4, and 6 is suggested instead of 4. *)
Example analyze_ciphertext_rounding :
  (r ← attack.analyze_ciphertext binary64 (lit "ABBAABBBABABABAA");
   Ok (attack.suggested_key_lengths r)) = Ok [3; 5; 7; 2; 6]
  ∧ (r ← attack.analyze_ciphertext exact (lit "ABBAABBBABABABAA");
     Ok (attack.suggested_key_lengths r)) = Ok [3; 5; 7; 2; 4]
  ∧ (average_ic exact (lit "ABBAABBBABABABAA") 4 == 2 # 3)%Q
  ∧ (average_ic exact (lit "ABBAABBBABABABAA") 6 == 2 # 3)%Q
  ∧ (average_ic binary64 (lit "ABBAABBBABABABAA") 6
     < average_ic binary64 (lit "ABBAABBBABABABAA") 4)%Q.
Proof. vm_compute. repeat split; reflexivity. Qed.


Example analyze_ciphertext_factors :
  ∃ result, attack.analyze_ciphertext binary64 (lit "ABCDEFGHIJKL") = Ok result
            ∧ attack.factors result = [2; 3; 4; 6].
Proof. eexists. split; [vm_compute; reflexivity|reflexivity]. Qed.
(** ** The random tape *)

Import random.

Lemma rand_bind_Ok {A B} (m : rand A) (f : A → rand B) t b t' :
  (m ≫= f) t = Ok (b, t') ↔ ∃ a t1, m t = Ok (a, t1) ∧ f a t1 = Ok (b, t').
Proof.
  unfold mbind, rand_bind. destruct (m t) as [[a t1]|e]; split.
  - intros H. by exists a, t1.
  - by intros (a' & t1' & [= -> ->] & H).
  - done.
  - by intros (? & ? & ? & _).
Qed.

Lemma rand_bind_eq {A B} (m : rand A) (f : A → rand B) t a t1 :
  m t = Ok (a, t1) → (m ≫= f) t = f a t1.
Proof. intros H. unfold mbind, rand_bind. by rewrite H. Qed.

Lemma lift_bind_eq {A B} (a : A) (f : A → rand B) t :
  (lift (Ok a) ≫= f) t = f a t.
Proof. reflexivity. Qed.

Lemma rand_ret_Ok {A} (a b : A) t t' :
  mret (M:=rand) a t = Ok (b, t') ↔ a = b ∧ t = t'.
Proof. unfold mret, rand_ret. split; [by intros [= -> ->]|by intros [-> ->]]. Qed.

Lemma lift_Ok {A} (r : res A) t a t' :
  lift r t = Ok (a, t') ↔ r = Ok a ∧ t = t'.
Proof.
  unfold lift. destruct r; split; try done.
  - by intros [= -> ->].
  - by intros [[= ->] ->].
  - by intros [? _].
Qed.

Lemma res_bind_Ok {A B} (m : res A) (f : A → res B) b :
  m ≫= f = Ok b ↔ ∃ a, m = Ok a ∧ f a = Ok b.
Proof.
  destruct m as [a|e]; simpl; split.
  - intros H. by exists a.
  - by intros (a' & [= ->] & H).
  - done.
  - by intros (? & ? & _).
Qed.

Lemma draw_Ok t : ∃ a t', draw t = Ok (a, t').
Proof. destruct t; by eexists _, _. Qed.

Lemma rfor_each_cons {A S} (x : A) l (body : A → S → rand S) s :
  rfor_each (x :: l) body s = body x s ≫= rfor_each l body.
Proof. done. Qed.

Lemma rfor_each_app {A S} (l1 l2 : list A) (body : A → S → rand S) s t :
  rfor_each (l1 ++ l2) body s t = (rfor_each l1 body s ≫= rfor_each l2 body) t.
Proof.
  revert s t. induction l1 as [|x l1 IH]; intros s t; [done|].
  simpl. unfold mbind, rand_bind. destruct (body x s t) as [[s1 t1]|e]; [|done].
  apply IH.
Qed.

Lemma rfor_each_inv {A S} (P : S → Prop) (l : list A) (body : A → S → rand S)
    s t s' t' :
  P s →
  (∀ x s t s' t', x ∈ l → P s → body x s t = Ok (s', t') → P s') →
  rfor_each l body s t = Ok (s', t') → P s'.
Proof.
  revert s t. induction l as [|x l IH]; intros s t Hs Hbody Hrun.
  { apply rand_ret_Ok in Hrun as [-> _]. done. }
  rewrite rfor_each_cons in Hrun.
  apply rand_bind_Ok in Hrun as (s1 & t1 & Hx & Hrun).
  apply (IH s1 t1); [|intros; eapply Hbody; [by right|done..]|done].
  eapply Hbody; [left|done..].
Qed.

(** [shuffle] returns a permutation of its argument. *)
Lemma arrange_Permutation {A} n (l : list A) len :
  length l = len → arrange n l len ≡ₚ l.
Proof.
  revert n l. induction len as [|len IH]; intros n l Hlen; simpl.
  { by destruct l. }
  assert (Hi : n `mod` length l < length l)
    by (apply Nat.mod_upper_bound; lia).
  destruct (lookup_lt_is_Some_2 l _ Hi) as [x Hx]. rewrite Hx.
  rewrite IH by (rewrite length_delete by eauto; lia).
  symmetry. by apply delete_Permutation.
Qed.

Lemma shuffle_Ok {A} (l : list A) t :
  ∃ l' t', shuffle l t = Ok (l', t') ∧ l' ≡ₚ l.
Proof.
  unfold shuffle. destruct (draw_Ok t) as (a & t' & Ha).
  exists (arrange a l (length l)), t'. split; [|by apply arrange_Permutation].
  apply rand_bind_Ok. exists a, t'. split; [done|]. by apply rand_ret_Ok.
Qed.

Lemma shuffle_inv {A} (l l' : list A) t t' :
  shuffle l t = Ok (l', t') → l' ≡ₚ l.
Proof.
  intros H. destruct (shuffle_Ok l t) as (l2 & t2 & H2 & Hp). congruence.
Qed.

(** [sample2 n] returns two distinct indices below [n], when [2 <= n]. *)
Lemma sample2_inv n t i j t' :
  sample2 n t = Ok ((i, j), t') → i < n ∧ j < n ∧ i ≠ j.
Proof.
  unfold sample2. case_bool_decide as Hn.
  { intros H. by apply lift_Ok in H as [? _]. }
  intros H. apply rand_bind_Ok in H as (a & t1 & _ & H).
  apply rand_bind_Ok in H as (b & t2 & _ & H).
  apply rand_ret_Ok in H as [[= <- <-] _].
  assert (a `mod` n < n) by (apply Nat.mod_upper_bound; lia).
  assert (b `mod` (n - 1) < n - 1) by (apply Nat.mod_upper_bound; lia).
  case_bool_decide; lia.
Qed.

Lemma sample2_Ok n t : 2 ≤ n → ∃ i j t', sample2 n t = Ok ((i, j), t').
Proof.
  intros Hn. unfold sample2. rewrite bool_decide_eq_false_2 by lia.
  destruct (draw_Ok t) as (a & t1 & Ha). destruct (draw_Ok t1) as (b & t2 & Hb).
  eexists _, _, t2. apply rand_bind_Ok. exists a, t1. split; [done|].
  apply rand_bind_Ok. exists b, t2. split; [done|]. by apply rand_ret_Ok.
Qed.

Lemma choice_inv {A} (l : list A) t x t' : choice l t = Ok (x, t') → x ∈ l.
Proof.
  unfold choice. case_bool_decide as Hnil.
  { intros Hc. by apply lift_Ok in Hc as [? _]. }
  intros Hc. apply rand_bind_Ok in Hc as (a & t1 & _ & Hc).
  apply lift_Ok in Hc as [Hc _]. unfold getitem in Hc.
  destruct (l !! _) eqn:Hl; [|done]. injection Hc as ->.
  by eapply list_elem_of_lookup_2.
Qed.

Lemma choice_Ok {A} (l : list A) t : l ≠ [] → ∃ x t', choice l t = Ok (x, t').
Proof.
  intros Hl. unfold choice. rewrite bool_decide_eq_false_2 by done.
  destruct (draw_Ok t) as (a & t1 & Ha).
  assert (Hi : a `mod` length l < length l)
    by (apply Nat.mod_upper_bound; by destruct l).
  destruct (lookup_lt_is_Some_2 l _ Hi) as [x Hx].
  exists x, t1. apply rand_bind_Ok. exists a, t1. split; [done|].
  apply lift_Ok. split; [by apply getitem_Some|done].
Qed.

Lemma random_Ok t : ∃ u t', random.random t = Ok (u, t').
Proof.
  unfold random.random. destruct (draw_Ok t) as (a & t1 & Ha).
  eexists _, t1. apply rand_bind_Ok. exists a, t1. split; [done|].
  by apply rand_ret_Ok.
Qed.

(** ** Keys of the search *)

Lemma permutation_key_perm_key n key :
  n ≤ 9 → permutation_key n key ↔ perm_key n key.
Proof.
  intros Hn. split.
  - intros (digits & Hd & ->). unfold perm_key. rewrite <- Hd.
    apply eq_Permutation. rewrite <- (concat_fmap_singleton (digit_char <$> digits)).
    f_equal. rewrite <- list_fmap_compose. apply list_fmap_ext.
    intros i d Hi. simpl. apply str_of_nat_digit.
    assert (Hin : d ∈ seq 1 n) by (rewrite <- Hd; by eapply list_elem_of_lookup_2).
    apply elem_of_seq in Hin. lia.
  - intros Hp. exists (digit_value <$> key). split; [by apply perm_key_values|].
    rewrite <- list_fmap_compose.
    rewrite <- (concat_fmap_singleton key) at 1. f_equal.
    apply list_fmap_ext. intros i c Hc. simpl.
    assert (Hin : c ∈ key) by (by eapply list_elem_of_lookup_2).
    apply (perm_key_elem _ _ _ Hp) in Hin as (r & Hr & ->).
    rewrite digit_value_char, str_of_nat_digit by lia. done.
Qed.

Lemma generate_random_key_inv n t key t' :
  attack.generate_random_key n t = Ok (key, t') → permutation_key n key.
Proof.
  unfold attack.generate_random_key. intros H.
  apply rand_bind_Ok in H as (digits & t1 & Hs & H).
  apply rand_ret_Ok in H as [<- _]. apply shuffle_inv in Hs.
  exists digits. split; [|done]. rewrite Hs. unfold range.
  by replace (n + 1 - 1) with n by lia.
Qed.

Lemma generate_random_key_Ok n t :
  ∃ key t', attack.generate_random_key n t = Ok (key, t').
Proof.
  unfold attack.generate_random_key.
  destruct (shuffle_Ok (range 1 (n + 1)) t) as (digits & t1 & Hs & _).
  eexists _, t1. apply rand_bind_Ok. exists digits, t1. split; [done|].
  by apply rand_ret_Ok.
Qed.

(** ** swap_random_positions *)

Lemma insert_Permutation {A} (l : list A) i x y :
  l !! i = Some x → <[i:=y]> l ≡ₚ y :: delete i l.
Proof.
  intros Hx. rewrite insert_take_drop by (by eapply lookup_lt_Some).
  rewrite delete_take_drop. symmetry. apply Permutation_middle.
Qed.

Lemma swap_Permutation {A} (l : list A) i j a b :
  i ≠ j → l !! i = Some b → l !! j = Some a →
  <[j:=b]> (<[i:=a]> l) ≡ₚ l.
Proof.
  intros Hij Hi Hj.
  assert (Hli : i < length l) by (by eapply lookup_lt_Some).
  assert (Hlj : j < length l) by (by eapply lookup_lt_Some).
  apply Permutation_inj. split; [by rewrite !length_insert|].
  exists (transpose i j). split.
  - intros x y. unfold transpose. repeat case_decide; congruence.
  - intros k. unfold transpose. repeat case_decide; subst.
    + rewrite list_lookup_insert_ne by done.
      rewrite list_lookup_insert_eq by done. done.
    + rewrite list_lookup_insert_eq by (by rewrite length_insert). done.
    + by rewrite !list_lookup_insert_ne by done.
Qed.

Lemma swap_random_positions_inv key t key' t' :
  attack.swap_random_positions key t = Ok (key', t') → key' ≡ₚ key.
Proof.
  unfold attack.swap_random_positions. intros H.
  apply rand_bind_Ok in H as ([i j] & t1 & Hs & H).
  apply sample2_inv in Hs as (Hi & Hj & Hij).
  apply lift_Ok in H as [H _].
  destruct (lookup_lt_is_Some_2 key i Hi) as [b Hb].
  destruct (lookup_lt_is_Some_2 key j Hj) as [a Ha].
  rewrite (getitem_Some _ _ _ Ha), bind_Ok in H.
  rewrite (getitem_Some _ _ _ Hb), bind_Ok in H.
  rewrite setitem_ok, bind_Ok in H by done.
  rewrite setitem_ok, bind_Ok in H by (by rewrite length_insert).
  injection H as <-. by apply swap_Permutation.
Qed.

Lemma swap_random_positions_Ok key t :
  2 ≤ length key → ∃ key' t', attack.swap_random_positions key t = Ok (key', t').
Proof.
  intros Hn. unfold attack.swap_random_positions.
  destruct (sample2_Ok (length key) t Hn) as (i & j & t1 & Hs).
  pose proof (sample2_inv _ _ _ _ _ Hs) as (Hi & Hj & _).
  destruct (lookup_lt_is_Some_2 key i Hi) as [b Hb].
  destruct (lookup_lt_is_Some_2 key j Hj) as [a Ha].
  eexists _, t1. apply rand_bind_Ok. exists (i, j), t1. split; [done|].
  apply lift_Ok. split; [|done].
  rewrite (getitem_Some _ _ _ Ha), bind_Ok.
  rewrite (getitem_Some _ _ _ Hb), bind_Ok.
  rewrite setitem_ok, bind_Ok by done.
  by rewrite setitem_ok, bind_Ok by (by rewrite length_insert).
Qed.
(** ** crossover_keys *)

Import random.

Lemma crossover_keys_unfold key1 key2 :
  attack.crossover_keys key1 key2 =
    ('(a, b) ← sample2 (length key1);
     lift (child ← for_each (range (a `min` b) (a `max` b)) (copy_slice key1)
                     (replicate (length key1) "0"%char);
           '(child, _) ← for_each (range 0 (a `min` b) ++ range (a `max` b) (length key1))
                           (fill_rest key2) (child, 0);
           Ok child)).
Proof. reflexivity. Qed.

(** The first loop copies the slice of [key1] over the placeholders. *)
Lemma copy_slice_loop (key1 pre post : str) k :
  length pre + k ≤ length key1 →
  for_each (seq (length pre) k) (copy_slice key1) (pre ++ replicate k "0"%char ++ post)
  = Ok (pre ++ take k (drop (length pre) key1) ++ post).
Proof.
  revert pre. induction k as [|k IH]; intros pre Hlen.
  { done. }
  rewrite <- cons_seq, for_each_cons. unfold copy_slice at 2.
  destruct (lookup_lt_is_Some_2 key1 (length pre)) as [c Hc]; [lia|].
  rewrite (getitem_Some _ _ _ Hc), bind_Ok.
  rewrite setitem_ok by (rewrite !length_app, length_replicate; lia).
  rewrite bind_Ok.
  replace (<[length pre:=c]> (pre ++ replicate (S k) "0"%char ++ post))
    with ((pre ++ [c]) ++ replicate k "0"%char ++ post).
  2:{ rewrite insert_app_r_alt, Nat.sub_diag by lia. simpl. by rewrite <- app_assoc. }
  replace (S (length pre)) with (length (pre ++ [c]))
    by (rewrite length_app; simpl; lia).
  rewrite IH by (rewrite length_app; simpl; lia).
  rewrite length_app. simpl. rewrite <- app_assoc. simpl.
  do 2 f_equal. rewrite (drop_S _ _ _ Hc). simpl.
  by replace (length pre + 1) with (S (length pre)) by lia.
Qed.

Lemma skip_placed_inv rest child pos p :
  attack.skip_placed rest child pos = Ok p →
  ∃ k c, p = pos + k ∧ rest !! k = Some c ∧ (c ∉ child)
         ∧ (∀ x, x ∈ take k rest → x ∈ child).
Proof.
  revert pos. induction rest as [|c rest IH]; intros pos; simpl; [done|].
  case_bool_decide as Hc.
  - intros Hp. apply IH in Hp as (k & c' & -> & Hk & Hc' & Hpre).
    exists (S k), c'. split; [lia|]. split; [done|]. split; [done|].
    simpl. intros x [->|Hx]%elem_of_cons; [done|by apply Hpre].
  - intros [= <-]. exists 0, c. split; [lia|]. split; [done|]. split; [done|].
    simpl. intros x Hx. by apply elem_of_nil in Hx.
Qed.

Lemma skip_placed_Ok rest child pos c :
  c ∈ rest → c ∉ child → ∃ p, attack.skip_placed rest child pos = Ok p.
Proof.
  revert pos. induction rest as [|c' rest IH]; intros pos Hin Hc; simpl.
  { by apply elem_of_nil in Hin. }
  case_bool_decide as Hc'; [|by eexists].
  apply elem_of_cons in Hin as [->|Hin]; [done|]. by apply IH.
Qed.

(** Some character of [key2] is still to be placed while a position is
    still to be filled. *)
Lemma crossover_unplaced (key2 used : str) :
  NoDup key2 → length used < length key2 → ∃ c, c ∈ key2 ∧ c ∉ used.
Proof.
  intros Hnd Hlen.
  destruct (decide (Forall (λ c, c ∈ used) key2)) as [Hall|Hsome].
  - exfalso. rewrite Forall_forall in Hall.
    pose proof (submseteq_length _ _ (NoDup_submseteq _ _ Hnd Hall)). lia.
  - apply not_Forall_Exists in Hsome; [|apply _].
    apply Exists_exists in Hsome as (c & Hc & Hn). by exists c.
Qed.

Lemma fill_rest_step key2 i todo st :
  "0"%char ∉ key2 → NoDup key2 →
  crossover_inv key2 (i :: todo) st →
  ∃ st', fill_rest key2 i st = Ok st' ∧ crossover_inv key2 todo st'.
Proof.
  intros H0 Hnd. destruct st as [child pos].
  intros (used & Hlen & Hch & Htodo & Hzero & Hused & Hsub & Hpre).
  cbn [fst snd] in *.
  apply NoDup_cons in Htodo as [Hi Htodo].
  assert (Hchi : child !! i = Some "0"%char) by (apply Hzero; left).
  assert (Hlu : length used < length key2).
  { rewrite <- Hlen, Hch, length_app, length_replicate. simpl. lia. }
  assert (Hin : ∀ x, x ∈ child → x ∈ key2 → x ∈ used).
  { intros x Hx Hk. rewrite Hch in Hx. apply elem_of_app in Hx as [Hx|Hx]; [done|].
    apply elem_of_replicate in Hx as [-> _]. done. }
  destruct (crossover_unplaced key2 used Hnd Hlu) as (c0 & Hc0 & Hc0u).
  assert (Hc0c : c0 ∉ child) by (intros Hx; by apply Hc0u, Hin).
  assert (Hc0r : c0 ∈ drop pos key2).
  { rewrite <- (take_drop pos key2) in Hc0.
    apply elem_of_app in Hc0 as [Hx|Hx]; [|done]. by apply Hpre in Hx. }
  destruct (skip_placed_Ok _ child pos c0 Hc0r Hc0c) as [p Hp].
  destruct (skip_placed_inv _ _ _ _ Hp) as (k & c & -> & Hk & Hc & Hskip).
  rewrite lookup_drop in Hk.
  assert (Hck : c ∈ key2) by (by eapply list_elem_of_lookup_2).
  assert (Hcu : c ∉ used).
  { intros Hx. apply Hc. rewrite Hch. apply elem_of_app. by left. }
  exists (<[i:=c]> child, S (pos + k)). split.
  { unfold fill_rest. rewrite Hp, bind_Ok, (getitem_Some _ _ _ Hk), bind_Ok.
    rewrite setitem_ok by (by eapply lookup_lt_Some). done. }
  exists (c :: used). cbn [fst snd]. split; [by rewrite length_insert|].
  split.
  { rewrite (insert_Permutation _ _ _ _ Hchi). constructor.
    apply (Permutation_cons_inv (a:="0"%char)).
    rewrite <- (delete_Permutation _ _ _ Hchi), Hch. simpl.
    by rewrite <- Permutation_middle. }
  split; [done|]. split.
  { intros j Hj. rewrite list_lookup_insert_ne by (intros ->; done).
    apply Hzero. by right. }
  split; [by constructor|]. split.
  { intros x [->|Hx]%elem_of_cons; [done|by apply Hsub]. }
  intros x Hx. apply elem_of_take in Hx as (j & Hj & Hlt).
  apply elem_of_cons.
  destruct (decide (j < pos)) as [Hjp|Hjp].
  { right. apply Hpre, elem_of_take. by exists j. }
  destruct (decide (j = pos + k)) as [->|Hjk].
  { left. congruence. }
  right. apply Hin; [|by eapply list_elem_of_lookup_2].
  apply Hskip, elem_of_take. exists (j - pos). split; [|lia].
  rewrite lookup_drop. by replace (pos + (j - pos)) with j by lia.
Qed.

Lemma fill_rest_loop key2 todo st :
  "0"%char ∉ key2 → NoDup key2 →
  crossover_inv key2 todo st →
  ∃ st', for_each todo (fill_rest key2) st = Ok st' ∧ crossover_inv key2 [] st'.
Proof.
  intros H0 Hnd. revert st. induction todo as [|i todo IH]; intros st Hinv.
  { by exists st. }
  destruct (fill_rest_step key2 i todo st H0 Hnd Hinv) as (st1 & Hst1 & Hinv1).
  rewrite for_each_cons, Hst1, bind_Ok. by apply IH.
Qed.

Lemma crossover_inv_done key2 st :
  NoDup key2 → crossover_inv key2 [] st → st.1 ≡ₚ key2.
Proof.
  intros Hnd (used & Hlen & Hch & _ & _ & Hused & Hsub & _). simpl in Hch.
  rewrite app_nil_r in Hch. rewrite Hch.
  apply submseteq_length_Permutation; [by apply NoDup_submseteq|].
  by rewrite <- Hch, Hlen.
Qed.

Lemma crossover_inv_start key1 key2 p1 p2 :
  key1 ≡ₚ key2 → NoDup key2 → p1 ≤ p2 ≤ length key1 →
  crossover_inv key2 (range 0 p1 ++ range p2 (length key1))
    (replicate p1 "0"%char ++ take (p2 - p1) (drop p1 key1)
       ++ replicate (length key1 - p2) "0"%char, 0).
Proof.
  intros Hperm Hnd Hp. exists (take (p2 - p1) (drop p1 key1)). simpl.
  assert (Hlt : length (take (p2 - p1) (drop p1 key1)) = p2 - p1).
  { rewrite length_take, length_drop. lia. }
  split.
  { rewrite !length_app, !length_replicate, Hlt, <- Hperm. lia. }
  split.
  { unfold range. rewrite length_app, !length_seq, Nat.sub_0_r, replicate_add.
    rewrite (Permutation_app_comm (replicate p1 _)), <- !app_assoc.
    apply Permutation_app_head, Permutation_app_comm. }
  split.
  { unfold range. apply NoDup_app. split; [apply NoDup_seq|].
    split; [|apply NoDup_seq]. intros x Hx Hy.
    apply elem_of_seq in Hx. apply elem_of_seq in Hy. lia. }
  split.
  { intros i Hi. apply elem_of_app in Hi as [Hi|Hi]; apply elem_of_range in Hi.
    - rewrite lookup_app_l by (rewrite length_replicate; lia).
      apply lookup_replicate_2. lia.
    - rewrite lookup_app_r by (rewrite length_replicate; lia).
      rewrite lookup_app_r by (rewrite length_replicate, Hlt; lia).
      apply lookup_replicate_2. rewrite length_replicate, Hlt. lia. }
  assert (Hsub : take (p2 - p1) (drop p1 key1) `sublist_of` key1).
  { etrans; [apply sublist_take|apply sublist_drop]. }
  split.
  { apply (sublist_NoDup _ key1); [by rewrite Hperm|done]. }
  split.
  { intros c Hc. rewrite <- Hperm. by apply (elem_of_sublist _ _ _ Hc Hsub). }
  intros c Hc. by apply elem_of_nil in Hc.
Qed.

(** [crossover_keys] of two arrangements of the same distinct characters,
    none of them the placeholder, returns when they have at least two
    characters, and returns another arrangement of them. *)
Lemma crossover_keys_Permutation key1 key2 t :
  key1 ≡ₚ key2 → NoDup key2 → "0"%char ∉ key2 → 2 ≤ length key1 →
  ∃ child t', attack.crossover_keys key1 key2 t = Ok (child, t') ∧ child ≡ₚ key2.
Proof.
  intros Hperm Hnd H0 Hn. rewrite crossover_keys_unfold.
  destruct (sample2_Ok (length key1) t Hn) as (a & b & t1 & Hs).
  pose proof (sample2_inv _ _ _ _ _ Hs) as (Ha & Hb & Hab).
  set (p1 := a `min` b). set (p2 := a `max` b).
  assert (Hp : p1 ≤ p2 ≤ length key1) by lia.
  pose proof (copy_slice_loop key1 (replicate p1 "0"%char)
                (replicate (length key1 - p2) "0"%char) (p2 - p1)) as Hloop1.
  rewrite length_replicate in Hloop1.
  replace (replicate p1 "0"%char ++ replicate (p2 - p1) "0"%char ++
           replicate (length key1 - p2) "0"%char)
    with (replicate (length key1) "0"%char) in Hloop1.
  2:{ rewrite <- !replicate_add. f_equal. lia. }
  specialize (Hloop1 ltac:(lia)).
  destruct (fill_rest_loop key2 _ _ H0 Hnd
              (crossover_inv_start key1 key2 p1 p2 Hperm Hnd Hp))
    as ([child pos] & Hloop2 & Hinv).
  exists child, t1. split; [|by apply (crossover_inv_done key2 (child, pos))].
  apply rand_bind_Ok. exists (a, b), t1. split; [done|].
  apply lift_Ok. split; [|done]. cbv beta iota. fold p1 p2.
  change (seq p1 (p2 - p1)) with (range p1 p2) in Hloop1.
  rewrite Hloop1, bind_Ok, Hloop2, bind_Ok. done.
Qed.

Lemma crossover_keys_inv key1 key2 t child t' :
  key1 ≡ₚ key2 → NoDup key2 → "0"%char ∉ key2 →
  attack.crossover_keys key1 key2 t = Ok (child, t') → child ≡ₚ key2.
Proof.
  intros Hperm Hnd H0 Hrun.
  destruct (decide (2 ≤ length key1)) as [Hn|Hn].
  - destruct (crossover_keys_Permutation key1 key2 t Hperm Hnd H0 Hn)
      as (child' & t'' & Hrun' & Hch). congruence.
  - rewrite crossover_keys_unfold in Hrun.
    apply rand_bind_Ok in Hrun as ([a b] & t1 & Hs & _).
    apply sample2_inv in Hs. lia.
Qed.
(** ** hill_climbing_attack *)

Import random.

(** The tracked best score never decreases over an iteration. *)
Lemma hc_iteration_best_score ciphertext key_length st t st' t' :
  attack.hc_iteration ciphertext key_length st t = Ok (st', t') →
  (attack.best_score st <= attack.best_score st')%Q.
Proof.
  unfold attack.hc_iteration. intros H.
  apply rand_bind_Ok in H as (nk & t1 & _ & H).
  apply rand_bind_Ok in H as (np & t2 & _ & H).
  apply rand_bind_Ok in H as (ns & t3 & _ & H).
  destruct (Qltb (attack.current_score st) ns) eqn:Hcur.
  - destruct (Qltb (attack.best_score st) ns) eqn:Hbest.
    + apply rand_ret_Ok in H as [<- _]. simpl.
      apply Qltb_lt in Hbest. by apply Qlt_le_weak.
    + apply rand_ret_Ok in H as [<- _]. simpl. apply Qle_refl.
  - case_bool_decide.
    + apply rand_bind_Ok in H as (ck & t4 & _ & H).
      apply rand_bind_Ok in H as (cp & t5 & _ & H).
      apply rand_bind_Ok in H as (cs & t6 & _ & H).
      apply rand_ret_Ok in H as [<- _]. simpl. apply Qle_refl.
    + apply rand_ret_Ok in H as [<- _]. simpl. apply Qle_refl.
Qed.

(** The tracked best score is non-decreasing over the iterations of a
    run: from any state, running further iterations leaves a best score at
    least as high. *)
Lemma hc_best_score_monotone ciphertext key_length iterations st t st' t' :
  rfor_each iterations (λ _ : nat, attack.hc_iteration ciphertext key_length) st t
    = Ok (st', t') →
  (attack.best_score st <= attack.best_score st')%Q.
Proof.
  intros H.
  apply (rfor_each_inv (λ s, (attack.best_score st <= attack.best_score s)%Q)) in H;
    [done|apply Qle_refl|].
  intros _ s t1 s' t1' _ Hs Hstep.
  eapply Qle_trans; [exact Hs|]. by eapply hc_iteration_best_score.
Qed.

(** *** A run that restarts at a better key *)

(** Runs the first computation of a bind, given its result. *)
Ltac rand_step H := unfold mbind at 1; unfold rand_bind at 1; rewrite H.

Lemma first_key t : attack.generate_random_key 3 (0 :: t) = Ok (lit "123", t).
Proof. reflexivity. Qed.

Lemma neighbour_key t :
  attack.swap_random_positions (lit "123") (0 :: 0 :: t) = Ok (lit "213", t).
Proof. reflexivity. Qed.

Lemma restart_key : attack.generate_random_key 3 [4] = Ok (lit "231", []).
Proof. reflexivity. Qed.

Lemma first_plaintext : cipher.decrypt (lit "ETH") (lit "123") = Ok (lit "ETH").
Proof. vm_compute. reflexivity. Qed.

Lemma neighbour_plaintext : cipher.decrypt (lit "ETH") (lit "213") = Ok (lit "TEH").
Proof. vm_compute. reflexivity. Qed.

Lemma restart_plaintext : cipher.decrypt (lit "ETH") (lit "231") = Ok (lit "THE").
Proof. vm_compute. reflexivity. Qed.

Lemma neighbour_not_better :
  Qltb (score_of (lit "ETH")) (score_of (lit "TEH")) = false.
Proof. vm_compute. reflexivity. Qed.

Lemma restart_better : (score_of (lit "ETH") < score_of (lit "THE"))%Q.
Proof. vm_compute. reflexivity. Qed.

Lemma hc_start_stuck t :
  attack.hc_start (lit "ETH") 3 (0 :: t) = Ok (stuck_state 0, t).
Proof.
  unfold attack.hc_start.
  rewrite (rand_bind_eq _ _ _ _ _ (first_key t)).
  rewrite first_plaintext, lift_bind_eq.
  rewrite evaluate_plaintext_score, lift_bind_eq.
  reflexivity.
Qed.

Lemma hc_iteration_stuck count t :
  S count < 100 →
  attack.hc_iteration (lit "ETH") 3 (stuck_state count) (0 :: 0 :: t)
  = Ok (stuck_state (S count), t).
Proof.
  intros Hcount. unfold attack.hc_iteration, stuck_state.
  cbn [attack.current_key attack.current_score attack.best_score
       attack.best_key attack.best_plaintext attack.current_plaintext
       attack.no_improvement_count].
  rewrite (rand_bind_eq _ _ _ _ _ (neighbour_key t)).
  rewrite neighbour_plaintext, lift_bind_eq.
  rewrite evaluate_plaintext_score, lift_bind_eq.
  rewrite neighbour_not_better.
  rewrite bool_decide_eq_false_2 by (unfold attack.max_no_improvement; lia).
  reflexivity.
Qed.

Lemma hc_iteration_restart :
  attack.hc_iteration (lit "ETH") 3 (stuck_state 99) [0; 0; 4]
  = Ok (restarted_state, []).
Proof.
  unfold attack.hc_iteration, stuck_state.
  cbn [attack.current_key attack.current_score attack.best_score
       attack.best_key attack.best_plaintext attack.current_plaintext
       attack.no_improvement_count].
  rewrite (rand_bind_eq _ _ _ _ _ (neighbour_key [4])).
  rewrite neighbour_plaintext, lift_bind_eq.
  rewrite evaluate_plaintext_score, lift_bind_eq.
  rewrite neighbour_not_better.
  rewrite bool_decide_eq_true_2 by (unfold attack.max_no_improvement; lia).
  rewrite (rand_bind_eq _ _ _ _ _ restart_key).
  rewrite restart_plaintext, lift_bind_eq.
  rewrite evaluate_plaintext_score, lift_bind_eq.
  reflexivity.
Qed.

Lemma hc_loop_stuck k count a t :
  count + k < 100 →
  rfor_each (seq a k) (λ _ : nat, attack.hc_iteration (lit "ETH") 3)
    (stuck_state count) (concat (replicate k [0; 0]) ++ t)
  = Ok (stuck_state (count + k), t).
Proof.
  revert count a. induction k as [|k IH]; intros count a Hk.
  { rewrite Nat.add_0_r. reflexivity. }
  rewrite <- cons_seq, rfor_each_cons. cbv beta.
  change (concat (replicate (S k) [0; 0]) ++ t)
    with (0 :: 0 :: concat (replicate k [0; 0]) ++ t).
  pose proof (hc_iteration_stuck count (concat (replicate k [0; 0]) ++ t)
                ltac:(lia)) as Hstep.
  rand_step Hstep. rewrite IH by lia.
  replace (S count + k) with (count + S k) by lia. reflexivity.
Qed.

Lemma hc_run_restarted :
  attack.hc_run (lit "ETH") 3 100 restart_tape = Ok (restarted_state, []).
Proof.
  unfold attack.hc_run, restart_tape.
  change (0 :: concat (replicate 100 [0; 0]) ++ [4])
    with (0 :: (concat (replicate 99 [0; 0]) ++ [0; 0; 4])).
  pose proof (hc_start_stuck (concat (replicate 99 [0; 0]) ++ [0; 0; 4])) as Hstart.
  rand_step Hstart.
  change (range 0 100) with (seq 0 99 ++ [99]).
  rewrite rfor_each_app.
  pose proof (hc_loop_stuck 99 0 0 [0; 0; 4] ltac:(lia)) as Hloop.
  rand_step Hloop.
  rewrite rfor_each_cons. cbv beta.
  change (0 + 99) with 99.
  rand_step hc_iteration_restart.
  reflexivity.
Qed.

(** C4, the first half fails: on the ciphertext "ETH" with a key of
    length 3 and 100 iterations, when the first key drawn is "123", each
    of the 100 neighbours is "213", and the key drawn at the restart is
    "231", the run ends at the restart key, whose plaintext "THE" was
    evaluated and scores higher than the score returned: the restart
    branch never compares the new key with the best one. *)
Theorem hill_climbing_misses_restart :
  ∃ st,
    attack.hc_run (lit "ETH") 3 100 restart_tape = Ok (st, [])
    ∧ attack.hill_climbing_attack (lit "ETH") 3 100 restart_tape
      = Ok ((attack.best_key st, attack.best_plaintext st, attack.best_score st), [])
    ∧ attack.best_key st = lit "123"
    ∧ attack.best_plaintext st = lit "ETH"
    ∧ attack.current_key st = lit "231"
    ∧ cipher.decrypt (lit "ETH") (lit "231") = Ok (lit "THE")
    ∧ attack.evaluate_plaintext (lit "THE") = Ok (attack.current_score st)
    ∧ (attack.best_score st < attack.current_score st)%Q.
Proof.
  exists restarted_state. split; [exact hc_run_restarted|]. split.
  { unfold attack.hill_climbing_attack.
    rand_step hc_run_restarted. reflexivity. }
  split; [reflexivity|]. split; [reflexivity|]. split; [reflexivity|].
  split; [exact restart_plaintext|].
  split; [apply evaluate_plaintext_score|exact restart_better].
Qed.
(** ** genetic_algorithm_attack *)

Import random.

Lemma rfor_each_Ok {A S} (P : S → Prop) (l : list A) (body : A → S → rand S) s t :
  P s →
  (∀ x s t, x ∈ l → P s → ∃ s' t', body x s t = Ok (s', t') ∧ P s') →
  ∃ s' t', rfor_each l body s t = Ok (s', t') ∧ P s'.
Proof.
  revert s t. induction l as [|x l IH]; intros s t Hs Hbody.
  { exists s, t. split; [by apply rand_ret_Ok|done]. }
  destruct (Hbody x s t) as (s1 & t1 & Hx & Hs1); [left|done|].
  destruct (IH s1 t1 Hs1) as (s2 & t2 & Hrun & Hs2).
  { intros y s' t' Hy. apply Hbody. by right. }
  exists s2, t2. split; [|done].
  rewrite rfor_each_cons. apply rand_bind_Ok. by exists s1, t1.
Qed.

Lemma perm_key_no_placeholder n key : n ≤ 9 → perm_key n key → "0"%char ∉ key.
Proof.
  intros Hn Hp Hin. apply (perm_key_elem _ _ _ Hp) in Hin as (r & Hr & Hc).
  change "0"%char with (digit_char 0) in Hc.
  apply digit_char_inj in Hc; lia.
Qed.

Lemma crossover_keys_perm_key n key1 key2 t child t' :
  n ≤ 9 → perm_key n key1 → perm_key n key2 →
  attack.crossover_keys key1 key2 t = Ok (child, t') → perm_key n child.
Proof.
  intros Hn H1 H2 Hrun. unfold perm_key in *. rewrite <- H2.
  apply (crossover_keys_inv key1 key2 t child t'); [by rewrite H1, H2|..|done].
  - by apply (perm_key_NoDup n).
  - by apply (perm_key_no_placeholder n).
Qed.

Lemma crossover_keys_perm_key_Ok n key1 key2 t :
  2 ≤ n ≤ 9 → perm_key n key1 → perm_key n key2 →
  ∃ child t', attack.crossover_keys key1 key2 t = Ok (child, t').
Proof.
  intros Hn H1 H2.
  destruct (crossover_keys_Permutation key1 key2 t) as (child & t' & Hrun & _).
  - unfold perm_key in *. by rewrite H1, H2.
  - apply (perm_key_NoDup n); [lia|done].
  - apply (perm_key_no_placeholder n); [lia|done].
  - rewrite (perm_key_length _ _ H1). lia.
  - by exists child, t'.
Qed.

Lemma mutate_key_perm_key n key t key' t' :
  perm_key n key → attack.mutate_key key t = Ok (key', t') → perm_key n key'.
Proof.
  intros Hp Hrun. apply swap_random_positions_inv in Hrun.
  unfold perm_key in *. by rewrite Hrun.
Qed.

Lemma mutate_key_perm_key_Ok n key t :
  2 ≤ n → perm_key n key → ∃ key' t', attack.mutate_key key t = Ok (key', t').
Proof.
  intros Hn Hp. apply swap_random_positions_Ok.
  rewrite (perm_key_length _ _ Hp). lia.
Qed.

Lemma generate_random_key_perm_key n t key t' :
  n ≤ 9 → attack.generate_random_key n t = Ok (key, t') → perm_key n key.
Proof.
  intros Hn Hrun. apply permutation_key_perm_key; [done|].
  by eapply generate_random_key_inv.
Qed.

(** The initial population. *)
Lemma ga_start_population n population_size t st t' :
  n ≤ 9 → attack.ga_start n population_size t = Ok (st, t') →
  Forall (perm_key n) (attack.population st).
Proof.
  intros Hn Hrun. unfold attack.ga_start in Hrun.
  apply rand_bind_Ok in Hrun as (pop & t1 & Hloop & Hret).
  apply rand_ret_Ok in Hret as [<- _]. simpl.
  apply (rfor_each_inv (Forall (perm_key n))) in Hloop; [done|constructor|].
  intros _ s t2 s' t2' _ Hs Hstep.
  apply rand_bind_Ok in Hstep as (key & t3 & Hkey & Hret).
  apply rand_ret_Ok in Hret as [<- _].
  apply Forall_app. split; [done|]. constructor; [|constructor].
  by apply (generate_random_key_perm_key n t2 key t3).
Qed.

Lemma ga_start_loop_Ok {A} n (l : list A) population t :
  ∃ population' t',
    rfor_each l (λ _ population,
                   key ← attack.generate_random_key n; mret (population ++ [key]))
      population t = Ok (population', t')
    ∧ length population' = length population + length l.
Proof.
  revert population t. induction l as [|x l IH]; intros population t.
  { exists population, t. split; [by apply rand_ret_Ok|simpl; lia]. }
  destruct (generate_random_key_Ok n t) as (key & t1 & Hkey).
  destruct (IH (population ++ [key]) t1) as (pop & t2 & Hrun & Hlen).
  exists pop, t2. split.
  - rewrite rfor_each_cons. apply rand_bind_Ok. exists (population ++ [key]), t1.
    split; [|done]. apply rand_bind_Ok. exists key, t1. split; [done|].
    by apply rand_ret_Ok.
  - rewrite Hlen, length_app. simpl. lia.
Qed.

Lemma ga_start_Ok n population_size t :
  ∃ st t', attack.ga_start n population_size t = Ok (st, t')
           ∧ length (attack.population st) = population_size.
Proof.
  destruct (ga_start_loop_Ok n (range 0 population_size) [] t)
    as (pop & t1 & Hrun & Hlen).
  exists (attack.GaState pop None None 0), t1. split.
  - unfold attack.ga_start. apply rand_bind_Ok. exists pop, t1.
    split; [done|]. by apply rand_ret_Ok.
  - simpl. rewrite Hlen. unfold range. rewrite length_seq. simpl. lia.
Qed.

(** The evaluation loop of a generation: the keys of the fitness scores
    are the population, in its order. *)
Lemma ga_evaluate_keys ciphertext (l : list str) fitness_scores best fitness_scores' best' :
  for_each l
    (λ key '((fitness_scores, best) : list attack.candidate * (option str * option str * Q)),
       plaintext ← cipher.decrypt ciphertext key;
       score ← attack.evaluate_plaintext plaintext;
       let fitness_scores := fitness_scores ++ [(key, plaintext, score)] in
       if Qltb best.2 score then Ok (fitness_scores, (Some key, Some plaintext, score))
       else Ok (fitness_scores, best))
    (fitness_scores, best) = Ok (fitness_scores', best') →
  (λ item : attack.candidate, item.1.1) <$> fitness_scores'
  = ((λ item : attack.candidate, item.1.1) <$> fitness_scores) ++ l.
Proof.
  revert fitness_scores best. induction l as [|key l IH]; intros fs best Hrun.
  { injection Hrun as <- _. by rewrite app_nil_r. }
  rewrite for_each_cons in Hrun.
  apply res_bind_Ok in Hrun as ([fs1 best1] & Hstep & Hrun).
  apply IH in Hrun. rewrite Hrun. clear Hrun IH.
  apply res_bind_Ok in Hstep as (p & _ & Hstep).
  apply res_bind_Ok in Hstep as (s & _ & Hstep). cbv zeta in Hstep.
  assert (fs1 = fs ++ [(key, p, s)]) as ->
    by (destruct (Qltb best.2 s); by injection Hstep as <- _).
  rewrite fmap_app. simpl. by rewrite <- app_assoc.
Qed.

Lemma ga_evaluate_Ok n ciphertext (l : list str) fitness_scores best :
  1 ≤ n ≤ 9 → Forall (perm_key n) l →
  ∃ st',
    for_each l
      (λ key '((fitness_scores, best) : list attack.candidate * (option str * option str * Q)),
         plaintext ← cipher.decrypt ciphertext key;
         score ← attack.evaluate_plaintext plaintext;
         let fitness_scores := fitness_scores ++ [(key, plaintext, score)] in
         if Qltb best.2 score then Ok (fitness_scores, (Some key, Some plaintext, score))
         else Ok (fitness_scores, best))
      (fitness_scores, best) = Ok st'.
Proof.
  intros Hn Hl. revert fitness_scores best.
  induction Hl as [|key l Hkey Hl IH]; intros fs best.
  { by eexists. }
  destruct (decrypt_total n ciphertext key Hn Hkey) as [p Hp].
  destruct (evaluate_plaintext_total p) as [s Hs].
  rewrite for_each_cons. rewrite Hp, bind_Ok, Hs, bind_Ok. cbv zeta.
  destruct (Qltb best.2 s); rewrite bind_Ok; apply IH.
Qed.

Lemma ga_selected (P : str → Prop) (fitness_scores : list attack.candidate) k l :
  (λ item : attack.candidate, item.1.1) <$> fitness_scores = l →
  Forall P l →
  Forall P ((λ item : attack.candidate, item.1.1) <$>
              take k (sorted_reverse (λ x : attack.candidate, x.2) Qltb fitness_scores)).
Proof.
  intros Hkeys Hl. apply Forall_fmap.
  eapply Forall_take. unfold sorted_reverse. rewrite sorted_Permutation.
  apply Forall_fmap. by rewrite Hkeys.
Qed.

Lemma ga_refill_population n passes selected new_population t population' t' :
  n ≤ 9 → Forall (perm_key n) selected → Forall (perm_key n) new_population →
  attack.ga_refill passes selected new_population t = Ok (population', t') →
  Forall (perm_key n) population'.
Proof.
  intros Hn Hsel. revert new_population t.
  induction passes as [|passes IH]; intros pop t Hpop Hrun; simpl in Hrun.
  { by apply rand_ret_Ok in Hrun as [<- _]. }
  rewrite Forall_forall in Hsel.
  apply rand_bind_Ok in Hrun as (parent1 & t1 & Hp1 & Hrun).
  apply rand_bind_Ok in Hrun as (parent2 & t2 & Hp2 & Hrun).
  apply rand_bind_Ok in Hrun as (child & t3 & Hchild & Hrun).
  apply rand_bind_Ok in Hrun as (u & t4 & _ & Hrun).
  apply rand_bind_Ok in Hrun as (child' & t5 & Hmut & Hrun).
  apply (IH _ _) in Hrun; [done|]. apply Forall_app. split; [done|].
  constructor; [|constructor].
  assert (Hc : perm_key n child).
  { apply (crossover_keys_perm_key n parent1 parent2 t2 child t3); [done|..|done];
      apply Hsel; by eapply choice_inv. }
  destruct (Qltb u 0.1).
  - by apply (mutate_key_perm_key n child t4 child' t5).
  - by apply rand_ret_Ok in Hmut as [<- _].
Qed.

Lemma ga_refill_Ok n passes selected new_population t :
  2 ≤ n ≤ 9 → Forall (perm_key n) selected → (passes ≠ 0 → selected ≠ []) →
  ∃ population' t',
    attack.ga_refill passes selected new_population t = Ok (population', t')
    ∧ length population' = length new_population + passes.
Proof.
  intros Hn Hsel. revert new_population t.
  induction passes as [|passes IH]; intros pop t Hne; simpl.
  { exists pop, t. split; [by apply rand_ret_Ok|lia]. }
  specialize (Hne ltac:(done)). rewrite Forall_forall in Hsel.
  destruct (choice_Ok selected t Hne) as (parent1 & t1 & Hp1).
  destruct (choice_Ok selected t1 Hne) as (parent2 & t2 & Hp2).
  pose proof (Hsel _ (choice_inv _ _ _ _ Hp1)) as H1.
  pose proof (Hsel _ (choice_inv _ _ _ _ Hp2)) as H2.
  destruct (crossover_keys_perm_key_Ok n parent1 parent2 t2 Hn H1 H2)
    as (child & t3 & Hchild).
  assert (Hc : perm_key n child)
    by (apply (crossover_keys_perm_key n parent1 parent2 t2 child t3); (done || lia)).
  destruct (random_Ok t3) as (u & t4 & Hu).
  assert (∃ child' t5, (if Qltb u 0.1 then attack.mutate_key child else mret child) t4
                       = Ok (child', t5)) as (child' & t5 & Hmut).
  { destruct (Qltb u 0.1).
    - apply (mutate_key_perm_key_Ok n); [lia|done].
    - exists child, t4. by apply rand_ret_Ok. }
  destruct (IH (pop ++ [child']) t5) as (pop' & t6 & Hrun & Hlen); [done|].
  exists pop', t6. split.
  - apply rand_bind_Ok. exists parent1, t1. split; [done|].
    apply rand_bind_Ok. exists parent2, t2. split; [done|].
    apply rand_bind_Ok. exists child, t3. split; [done|].
    apply rand_bind_Ok. exists u, t4. split; [done|].
    apply rand_bind_Ok. exists child', t5. split; [done|]. done.
  - rewrite Hlen, length_app. simpl. lia.
Qed.

Lemma ga_generation_population n ciphertext population_size st t st' t' :
  n ≤ 9 → Forall (perm_key n) (attack.population st) →
  attack.ga_generation ciphertext population_size st t = Ok (st', t') →
  Forall (perm_key n) (attack.population st').
Proof.
  intros Hn Hpop Hrun. unfold attack.ga_generation in Hrun.
  apply rand_bind_Ok in Hrun as ([fs best] & t1 & Heval & Hrun).
  apply lift_Ok in Heval as [Heval _]. apply ga_evaluate_keys in Heval.
  simpl in Heval. cbv zeta in Hrun.
  apply rand_bind_Ok in Hrun as (pop & t2 & Hrefill & Hret).
  apply rand_ret_Ok in Hret as [<- _]. simpl.
  apply (ga_refill_population n) in Hrefill; [done..| |];
    by apply (ga_selected _ _ _ (attack.population st)).
Qed.

Lemma ga_generation_Ok n ciphertext population_size st t :
  2 ≤ n ≤ 9 → population_size ≠ 1 →
  Forall (perm_key n) (attack.population st) →
  length (attack.population st) = population_size →
  ∃ st' t', attack.ga_generation ciphertext population_size st t = Ok (st', t')
            ∧ Forall (perm_key n) (attack.population st')
            ∧ length (attack.population st') = population_size.
Proof.
  intros Hn Hsize Hpop Hlen.
  destruct (ga_evaluate_Ok n ciphertext (attack.population st) []
              (attack.ga_best_key st, attack.ga_best_plaintext st, attack.ga_best_score st))
    as ([fs best] & Heval); [lia|done|].
  pose proof (ga_evaluate_keys _ _ _ _ _ _ Heval) as Hkeys. simpl in Hkeys.
  set (fitness_scores := sorted_reverse (λ x : attack.candidate, x.2) Qltb fs).
  set (selected := (λ item : attack.candidate, item.1.1) <$>
                     take (population_size `div` 2) fitness_scores).
  assert (Hsel : Forall (perm_key n) selected)
    by (by apply (ga_selected _ _ _ (attack.population st))).
  assert (Hfs : length fitness_scores = population_size).
  { unfold fitness_scores, sorted_reverse. rewrite sorted_Permutation.
    rewrite <- Hlen, <- Hkeys. by rewrite length_fmap. }
  assert (Hls : length selected = population_size `div` 2).
  { unfold selected. rewrite length_fmap, length_take, Hfs.
    pose proof (Nat.Div0.div_le_upper_bound population_size 2 population_size). lia. }
  destruct (ga_refill_Ok n (population_size - length selected) selected selected t)
    as (pop & t2 & Hrefill & Hlp); [done..| |].
  { intros Hpasses ->. cbn [length] in Hls, Hpasses.
    assert (population_size < 2)
      by (destruct (decide (population_size < 2)); [done|];
          pose proof (Nat.div_str_pos population_size 2 ltac:(lia)); lia).
    lia. }
  assert (Hstep : attack.ga_generation ciphertext population_size st t
                  = Ok (attack.GaState pop best.1.1 best.1.2 best.2, t2)).
  { unfold attack.ga_generation. apply rand_bind_Ok. exists (fs, best), t.
    split; [by apply lift_Ok|]. cbv zeta. fold fitness_scores. fold selected.
    apply rand_bind_Ok. exists pop, t2. split; [done|]. by apply rand_ret_Ok. }
  eexists _, t2. split; [exact Hstep|]. split.
  - by apply (ga_generation_population n _ _ _ _ _ _ ltac:(lia) Hpop Hstep).
  - simpl. rewrite Hlp, Hls.
    pose proof (Nat.Div0.div_le_upper_bound population_size 2 population_size). lia.
Qed.

Lemma ga_run_population n ciphertext population_size generations t st t' :
  n ≤ 9 →
  attack.ga_run ciphertext n population_size generations t = Ok (st, t') →
  Forall (perm_key n) (attack.population st).
Proof.
  intros Hn Hrun. unfold attack.ga_run in Hrun.
  apply rand_bind_Ok in Hrun as (st0 & t0 & Hstart & Hrun).
  apply ga_start_population in Hstart; [|done].
  apply (rfor_each_inv (λ st, Forall (perm_key n) (attack.population st))) in Hrun;
    [done..|].
  intros _ s t1 s' t1' _ Hs Hstep. by eapply ga_generation_population.
Qed.

(** For keys of 2 to 9 columns and a population of none or of at least
    two, the run returns. *)
Lemma ga_run_Ok n ciphertext population_size generations t :
  2 ≤ n ≤ 9 → population_size ≠ 1 →
  ∃ st t', attack.ga_run ciphertext n population_size generations t = Ok (st, t')
           ∧ length (attack.population st) = population_size.
Proof.
  intros Hn Hsize.
  destruct (ga_start_Ok n population_size t) as (st0 & t0 & Hstart & Hlen).
  pose proof (ga_start_population n _ _ _ _ ltac:(lia) Hstart) as Hpop.
  destruct (rfor_each_Ok
              (λ st, Forall (perm_key n) (attack.population st)
                     ∧ length (attack.population st) = population_size)
              (range 0 generations)
              (λ _, attack.ga_generation ciphertext population_size) st0 t0)
    as (st & t' & Hrun & _ & Hlen'); [done| |].
  { intros _ s t1 _ [Hs Hl].
    destruct (ga_generation_Ok n ciphertext population_size s t1 Hn Hsize Hs Hl)
      as (s' & t1' & ? & ? & ?). by exists s', t1'. }
  exists st, t'. split; [|done].
  unfold attack.ga_run. apply rand_bind_Ok. by exists st0, t0.
Qed.

Lemma genetic_algorithm_attack_Ok n ciphertext population_size generations t :
  2 ≤ n ≤ 9 → population_size ≠ 1 →
  ∃ result t',
    attack.genetic_algorithm_attack ciphertext n population_size generations t
    = Ok (result, t').
Proof.
  intros Hn Hsize.
  destruct (ga_run_Ok n ciphertext population_size generations t Hn Hsize)
    as (st & t' & Hrun & _).
  eexists _, t'. unfold attack.genetic_algorithm_attack.
  apply rand_bind_Ok. exists st, t'. split; [done|]. by apply rand_ret_Ok.
Qed.

(** X28. For keys of at most 9 columns the population stays one of
    permutation keys: whenever a run of the genetic algorithm has gone through its
    generations, every individual of the population holds exactly the
    digits 1..key_length, each once; and [crossover_keys] and [mutate_key]
    return such a key when given such keys.  (For 2 to 9 columns the run
    does return, by [ga_run_Ok].) *)
Theorem genetic_population_permutation_keys (key_length : nat) :
  key_length ≤ 9 →
  (∀ ciphertext population_size generations t st t',
     attack.ga_run ciphertext key_length population_size generations t = Ok (st, t') →
     Forall (perm_key key_length) (attack.population st))
  ∧ (∀ key1 key2 t child t',
       perm_key key_length key1 → perm_key key_length key2 →
       attack.crossover_keys key1 key2 t = Ok (child, t') →
       perm_key key_length child)
  ∧ (∀ key t key' t',
       perm_key key_length key →
       attack.mutate_key key t = Ok (key', t') →
       perm_key key_length key').
Proof.
  intros Hn. split; [|split].
  - intros ciphertext population_size generations t st t'.
    by apply ga_run_population.
  - intros key1 key2 t child t'. by apply crossover_keys_perm_key.
  - intros key t key' t'. apply mutate_key_perm_key.
Qed.

Lemma genetic_population_permutation_keys_witness :
  ∃ st t',
    attack.ga_run (lit "HET") 3 4 2 [1; 2; 3; 4; 5; 6; 7; 8; 9; 10] = Ok (st, t')
    ∧ length (attack.population st) = 4
    ∧ Forall (perm_key 3) (attack.population st).
Proof.
  destruct (ga_run_Ok 3 (lit "HET") 4 2 [1; 2; 3; 4; 5; 6; 7; 8; 9; 10]
              ltac:(lia) ltac:(lia)) as (st & t' & Hrun & Hlen).
  exists st, t'. split; [exact Hrun|]. split; [exact Hlen|].
  exact (proj1 (genetic_population_permutation_keys 3 ltac:(lia))
           _ _ _ _ _ _ Hrun).
Defined.

(** With 10 columns every generation fails on its first key. *)
Example genetic_algorithm_attack_long_key :
  attack.genetic_algorithm_attack (lit "HET") 10 2 1 [] = Raise ValueError.
Proof. vm_compute. reflexivity. Qed.
(** * Further properties of the code *)

(** ** cipher.py: the round trip on any text *)

Lemma rstrip_app_replicate c (s : str) m :
  rstrip c (s ++ replicate m c) = rstrip c s.
Proof.
  induction s as [|a s IH]; simpl; [apply rstrip_replicate|].
  by rewrite IH.
Qed.

Lemma decrypt_encrypt_rstrip plaintext key keep_spaces :
  cipher.validate_key key = true → length key ≤ 9 →
  ∃ ciphertext,
    cipher.encrypt plaintext key keep_spaces = Ok ciphertext
    ∧ cipher.decrypt ciphertext key
      = Ok (rstrip "X" (if keep_spaces then plaintext else remove_spaces plaintext)).
Proof.
  intros Hv Hlen.
  destruct (normalize_key_perm key Hv Hlen) as (k & Hk & Hp & H1).
  destruct (decrypt_encrypt plaintext key keep_spaces k (length key) Hk Hp)
    as (c & Henc & Hdec); [lia|].
  exists c. split; [done|]. rewrite Hdec. f_equal.
  unfold laid_out. rewrite rstrip_app_replicate. by destruct keep_spaces.
Qed.

(** X1. For every text and every valid key of at most 9 characters,
    [decrypt] after [encrypt] gives the text back without its trailing
    'X' characters (and without its spaces, unless they are kept): the
    letters 'X' that end a plaintext are taken for padding. *)
Theorem roundtrip_strips_trailing_filler (plaintext key : str) (keep_spaces : bool) :
  cipher.validate_key key = true →
  length key ≤ 9 →
  ∃ ciphertext,
    cipher.encrypt plaintext key keep_spaces = Ok ciphertext
    ∧ cipher.decrypt ciphertext key
      = Ok (rstrip "X" (if keep_spaces then plaintext else remove_spaces plaintext)).
Proof. apply decrypt_encrypt_rstrip. Qed.

Lemma roundtrip_strips_trailing_filler_witness :
  ∃ ciphertext,
    cipher.encrypt (lit "MY FAX") (lit "KEY") true = Ok ciphertext
    ∧ cipher.decrypt ciphertext (lit "KEY") = Ok (lit "MY FA").
Proof.
  apply (roundtrip_strips_trailing_filler (lit "MY FAX") (lit "KEY") true).
  - vm_compute. reflexivity.
  - simpl. lia.
Defined.

(** ** cipher.py: encryption only moves characters *)

Lemma concat_cons_fmap {A B} (g : A → B) (h : A → list B) (l : list A) :
  concat ((λ b, g b :: h b) <$> l) ≡ₚ (g <$> l) ++ concat (h <$> l).
Proof.
  induction l as [|b l IH]; [done|].
  rewrite !fmap_cons. simpl. constructor. rewrite IH.
  rewrite !(assoc (++)). apply Permutation_app_tail, Permutation_app_comm.
Qed.

Lemma concat_transpose {A B C} (f : A → B → C) (la : list A) (lb : list B) :
  concat ((λ a, (λ b, f a b) <$> lb) <$> la)
  ≡ₚ concat ((λ b, (λ a, f a b) <$> la) <$> lb).
Proof.
  induction la as [|a la IH].
  { simpl. induction lb as [|b lb IHb]; [done|]. by rewrite fmap_cons. }
  rewrite fmap_cons. simpl. rewrite IH.
  symmetry. apply (concat_cons_fmap (f a) (λ b, (λ a, f a b) <$> la)).
Qed.

Lemma concat_fmap_Permutation {A B} (f g : A → list B) (l : list A) :
  (∀ x, x ∈ l → f x ≡ₚ g x) → concat (f <$> l) ≡ₚ concat (g <$> l).
Proof.
  induction l as [|x l IH]; intros H; [done|].
  rewrite !fmap_cons. simpl. rewrite (H x) by left.
  apply Permutation_app_head, IH. intros y Hy. apply H. by right.
Qed.

Lemma col_at_Permutation key n :
  perm_key n key → n ≤ 9 → col_at key <$> seq 1 n ≡ₚ seq 0 n.
Proof.
  intros Hp Hn. apply submseteq_length_Permutation.
  - apply NoDup_submseteq.
    + apply NoDup_fmap_2_strong; [|apply NoDup_seq].
      intros r1 r2 Hr1 Hr2 Heq.
      apply elem_of_seq in Hr1. apply elem_of_seq in Hr2.
      destruct (rank_at_surj key n Hp Hn r1) as (j1 & Hj1 & <-); [lia|].
      destruct (rank_at_surj key n Hp Hn r2) as (j2 & Hj2 & <-); [lia|].
      rewrite !(col_at_rank key n Hp Hn) in Heq by done. by subst.
    + intros j Hj. apply list_elem_of_fmap in Hj as (r & -> & Hr).
      apply elem_of_seq in Hr. apply elem_of_seq.
      destruct (index_col_at key n Hp Hn r); lia.
  - by rewrite length_fmap, !length_seq.
Qed.

Lemma encrypt_Permutation plaintext key keep_spaces :
  cipher.validate_key key = true → length key ≤ 9 →
  ∃ ciphertext,
    cipher.encrypt plaintext key keep_spaces = Ok ciphertext
    ∧ ciphertext ≡ₚ laid_out plaintext (length key) keep_spaces.
Proof.
  intros Hv Hlen.
  destruct (normalize_key_perm key Hv Hlen) as (k & Hk & Hp & H1).
  assert (Hn : 1 ≤ length key ≤ 9) by lia.
  eexists. split; [by apply (encrypt_perm_key _ _ _ k (length key))|].
  cbv zeta.
  set (n := length key) in *. set (L := laid_out plaintext n keep_spaces).
  set (R := _ / n).
  assert (HL : length L = R * n) by (apply laid_out_length; lia).
  rewrite (concat_transpose (λ r i, pad_cell L (i * n + col_at k r))).
  trans (concat ((λ i, (λ j, pad_cell L (i * n + j)) <$> seq 0 n) <$> seq 0 R)).
  - apply concat_fmap_Permutation. intros i _.
    rewrite <- (col_at_Permutation k n Hp ltac:(lia)).
    by rewrite <- list_fmap_compose.
  - apply eq_Permutation. etrans; [|apply (pad_cell_self L)].
    rewrite HL, <- concat_rows.
    f_equal. apply list_fmap_ext. intros _ i _.
    symmetry. apply (concat_singletons (λ j, pad_cell L (i * n + j)) 0).
Qed.

(** X2. [encrypt] with a valid key of at most 9 characters only moves
    characters: the ciphertext is a rearrangement of the text (without its
    spaces, unless they are kept) followed by its 'X' padding, and its
    length is the text's length rounded up to a multiple of the key
    length. *)
Theorem encrypt_rearranges_padded_text (plaintext key : str) (keep_spaces : bool) :
  cipher.validate_key key = true →
  length key ≤ 9 →
  let text := if keep_spaces then plaintext else remove_spaces plaintext in
  let n := length key in
  ∃ ciphertext,
    cipher.encrypt plaintext key keep_spaces = Ok ciphertext
    ∧ length ciphertext = (length text + n - 1) / n * n
    ∧ ciphertext ≡ₚ text ++ replicate (length ciphertext - length text) "X"%char.
Proof.
  intros Hv Hlen text n.
  destruct (encrypt_Permutation plaintext key keep_spaces Hv Hlen)
    as (c & Henc & Hperm).
  destruct (normalize_key_perm key Hv Hlen) as (_ & _ & _ & H1).
  assert (Hc : length c = (length text + n - 1) / n * n).
  { rewrite Hperm, laid_out_length by (unfold n; lia).
    unfold text. by destruct keep_spaces. }
  exists c. split; [done|]. split; [done|].
  rewrite Hperm at 1. unfold laid_out. rewrite Hc.
  unfold text. by destruct keep_spaces.
Qed.

Lemma encrypt_rearranges_padded_text_witness :
  ∃ ciphertext,
    cipher.encrypt (lit "ATTACK AT DAWN") (lit "3142") false = Ok ciphertext
    ∧ length ciphertext = 12
    ∧ ciphertext ≡ₚ lit "ATTACKATDAWN" ++ replicate (length ciphertext - 12) "X"%char.
Proof.
  apply (encrypt_rearranges_padded_text (lit "ATTACK AT DAWN") (lit "3142") false).
  - vm_compute. reflexivity.
  - simpl. lia.
Defined.

(** ** cipher.py: a keyword and its numeric form *)

Lemma keyword_as_numeric key :
  cipher.validate_key key = true → length key ≤ 9 →
  ∃ numeric_key,
    cipher.normalize_key key = Ok numeric_key
    ∧ perm_key (length key) numeric_key
    ∧ (∀ plaintext keep_spaces,
         cipher.encrypt plaintext key keep_spaces
         = cipher.encrypt plaintext numeric_key keep_spaces)
    ∧ (∀ ciphertext,
         cipher.decrypt ciphertext key = cipher.decrypt ciphertext numeric_key).
Proof.
  intros Hv Hlen.
  destruct (normalize_key_perm key Hv Hlen) as (k & Hk & Hp & H1).
  assert (Hn : 1 ≤ length key ≤ 9) by lia.
  pose proof (normalize_perm_key _ _ Hn Hp) as Hk'.
  exists k. split; [done|]. split; [done|]. split.
  - intros plaintext keep_spaces.
    rewrite (encrypt_perm_key _ _ _ k (length key) Hk Hp Hn).
    by rewrite (encrypt_perm_key _ _ _ k (length key) Hk' Hp Hn).
  - intros ciphertext.
    rewrite (decrypt_perm_key _ _ k (length key) Hk Hp Hn).
    by rewrite (decrypt_perm_key _ _ k (length key) Hk' Hp Hn).
Qed.

(** X3. A valid key of at most 9 characters and its normal form are the
    same key: the normal form holds the digits 1..n once each, is valid,
    and encrypts and decrypts every text as the key itself does. *)
Theorem keyword_and_numeric_key_agree (key : str) :
  cipher.validate_key key = true →
  length key ≤ 9 →
  ∃ numeric_key,
    cipher.normalize_key key = Ok numeric_key
    ∧ perm_key (length key) numeric_key
    ∧ cipher.validate_key numeric_key = true
    ∧ (∀ plaintext keep_spaces,
         cipher.encrypt plaintext key keep_spaces
         = cipher.encrypt plaintext numeric_key keep_spaces)
    ∧ (∀ ciphertext,
         cipher.decrypt ciphertext key = cipher.decrypt ciphertext numeric_key).
Proof.
  intros Hv Hlen.
  destruct (keyword_as_numeric key Hv Hlen) as (k & Hk & Hp & Henc & Hdec).
  exists k. split; [done|]. split; [done|]. split; [|done].
  destruct (normalize_key_perm key Hv Hlen) as (_ & _ & _ & H1).
  by destruct (validate_numeric (length key) k ltac:(lia) Hp).
Qed.

Lemma keyword_and_numeric_key_agree_witness :
  ∃ numeric_key,
    cipher.normalize_key (lit "SECRET") = Ok numeric_key
    ∧ perm_key 6 numeric_key
    ∧ cipher.validate_key numeric_key = true
    ∧ (∀ plaintext keep_spaces,
         cipher.encrypt plaintext (lit "SECRET") keep_spaces
         = cipher.encrypt plaintext numeric_key keep_spaces)
    ∧ (∀ ciphertext,
         cipher.decrypt ciphertext (lit "SECRET")
         = cipher.decrypt ciphertext numeric_key).
Proof.
  apply (keyword_and_numeric_key_agree (lit "SECRET")).
  - vm_compute. reflexivity.
  - simpl. lia.
Defined.

(** ** cipher.py: the case of a key *)

Lemma is_lower_upper_char c : is_lower (upper_char c) = false.
Proof.
  unfold upper_char. destruct (is_lower c) eqn:Hl; [|done].
  unfold is_lower, code in *. apply andb_true_iff in Hl as [H1 H2].
  apply Nat.leb_le in H1. apply Nat.leb_le in H2.
  rewrite nat_ascii_embedding by lia.
  apply andb_false_iff. left. apply Nat.leb_gt. lia.
Qed.

Lemma upper_char_idem c : upper_char (upper_char c) = upper_char c.
Proof. unfold upper_char at 1. by rewrite is_lower_upper_char. Qed.

Lemma is_alpha_upper_char c : is_alpha (upper_char c) = is_alpha c.
Proof.
  unfold upper_char. destruct (is_lower c) eqn:Hl; [|done].
  unfold is_alpha. rewrite Hl, orb_true_r.
  unfold is_lower, is_upper, code in *. apply andb_true_iff in Hl as [H1 H2].
  apply Nat.leb_le in H1. apply Nat.leb_le in H2.
  rewrite nat_ascii_embedding by lia.
  apply orb_true_iff. left. apply andb_true_iff.
  split; apply Nat.leb_le; lia.
Qed.

Lemma upper_char_digit c : is_digit c = true → upper_char c = c.
Proof.
  intros Hd. unfold upper_char.
  pose proof (digit_not_alpha c Hd) as Ha. unfold is_alpha in Ha.
  apply orb_false_iff in Ha as [_ ->]. done.
Qed.

Lemma is_digit_upper_char c : is_digit (upper_char c) = is_digit c.
Proof.
  unfold upper_char. destruct (is_lower c) eqn:Hl; [|done].
  unfold is_lower, is_digit, code in *. apply andb_true_iff in Hl as [H1 H2].
  apply Nat.leb_le in H1. apply Nat.leb_le in H2.
  rewrite nat_ascii_embedding by lia.
  transitivity false; [|symmetry]; apply andb_false_iff; right;
    apply Nat.leb_gt; lia.
Qed.

Lemma upper_idem (s : str) : upper (upper s) = upper s.
Proof.
  unfold upper. rewrite <- list_fmap_compose. apply list_fmap_ext.
  intros _ c _. apply upper_char_idem.
Qed.

Lemma upper_nil (s : str) : upper s = [] ↔ s = [].
Proof. by destruct s. Qed.

Lemma isdigit_upper s : isdigit (upper s) = isdigit s.
Proof.
  unfold isdigit. f_equal.
  - f_equal. apply bool_decide_ext, upper_nil.
  - unfold upper. induction s as [|c s IH]; [done|].
    rewrite fmap_cons. simpl. by rewrite is_digit_upper_char, IH.
Qed.

Lemma isalpha_upper s : isalpha (upper s) = isalpha s.
Proof.
  unfold isalpha. f_equal.
  - f_equal. apply bool_decide_ext, upper_nil.
  - unfold upper. induction s as [|c s IH]; [done|].
    rewrite fmap_cons. simpl. by rewrite is_alpha_upper_char, IH.
Qed.

Lemma upper_digits s : isdigit s = true → upper s = s.
Proof.
  intros Hd. apply isdigit_Forall in Hd as [_ Hd].
  unfold upper. induction Hd as [|c s Hc _ IH]; [done|].
  by rewrite fmap_cons, IH, upper_char_digit.
Qed.

Lemma keyword_to_numeric_upper keyword :
  cipher.keyword_to_numeric (upper keyword) = cipher.keyword_to_numeric keyword.
Proof.
  rewrite !keyword_to_numeric_unfold.
  assert (Himap : imap (λ i char, (upper_char char, i)) (upper keyword)
                  = imap (λ i char, (upper_char char, i)) keyword).
  { unfold upper. rewrite imap_fmap. apply imap_ext.
    intros i c _. simpl. by rewrite upper_char_idem. }
  rewrite Himap. unfold upper. by rewrite length_fmap.
Qed.

Lemma normalize_key_upper key :
  cipher.normalize_key (upper key) = cipher.normalize_key key.
Proof.
  destruct (isdigit key) eqn:Hd; [by rewrite upper_digits|].
  unfold cipher.normalize_key, cipher.validate_key.
  rewrite isdigit_upper, isalpha_upper, Hd, keyword_to_numeric_upper.
  by rewrite (bool_decide_ext _ _ (upper_nil key)).
Qed.

(** X4. Keys of ASCII characters are case-insensitive: such a key and its
    uppercase form have the same normal form (or are both rejected), and
    [encrypt] and [decrypt] give the same result with either, on every
    text. *)
Theorem key_case_is_ignored (key text : str) (keep_spaces : bool) :
  isascii key = true →
  cipher.validate_key (upper key) = cipher.validate_key key
  ∧ cipher.normalize_key (upper key) = cipher.normalize_key key
  ∧ cipher.encrypt text (upper key) keep_spaces = cipher.encrypt text key keep_spaces
  ∧ cipher.decrypt text (upper key) = cipher.decrypt text key.
Proof.
  intros _. split; [|split; [apply normalize_key_upper|split]].
  - destruct (isdigit key) eqn:Hd; [by rewrite upper_digits|].
    unfold cipher.validate_key.
    rewrite isdigit_upper, isalpha_upper, Hd.
    by rewrite (bool_decide_ext _ _ (upper_nil key)).
  - unfold cipher.encrypt. by rewrite normalize_key_upper.
  - unfold cipher.decrypt. by rewrite normalize_key_upper.
Qed.

Lemma key_case_is_ignored_witness :
  cipher.validate_key (upper (lit "Secret")) = cipher.validate_key (lit "Secret")
  ∧ cipher.normalize_key (upper (lit "Secret")) = cipher.normalize_key (lit "Secret")
  ∧ cipher.encrypt (lit "ATTACK AT DAWN") (upper (lit "Secret")) false
    = cipher.encrypt (lit "ATTACK AT DAWN") (lit "Secret") false
  ∧ cipher.decrypt (lit "ATTACK AT DAWN") (upper (lit "Secret"))
    = cipher.decrypt (lit "ATTACK AT DAWN") (lit "Secret").
Proof.
  apply (key_case_is_ignored (lit "Secret") (lit "ATTACK AT DAWN") false).
  reflexivity.
Defined.

(** ** cipher.py: which keys raise *)

Lemma invalid_key_raises key :
  cipher.validate_key key = false →
  cipher.normalize_key key = Raise ValueError.
Proof. intros Hv. unfold cipher.normalize_key. by rewrite Hv. Qed.

Lemma encrypt_total key plaintext keep_spaces :
  cipher.validate_key key = true → length key ≤ 9 →
  ∃ ciphertext, cipher.encrypt plaintext key keep_spaces = Ok ciphertext.
Proof.
  intros Hv Hlen.
  destruct (decrypt_encrypt_rstrip plaintext key keep_spaces Hv Hlen)
    as (c & Hc & _). by exists c.
Qed.

Lemma decrypt_valid_total key ciphertext :
  cipher.validate_key key = true → length key ≤ 9 →
  ∃ plaintext, cipher.decrypt ciphertext key = Ok plaintext.
Proof.
  intros Hv Hlen.
  destruct (normalize_key_perm key Hv Hlen) as (k & Hk & Hp & H1).
  eexists. by apply (decrypt_perm_key _ _ k (length key)); [| |lia].
Qed.

(** X5. On a key of at most 9 characters [encrypt] and [decrypt] raise
    exactly when [validate_key] rejects the key, and then [ValueError]:
    with a valid key they return on every text, the empty one included,
    and never fail on an index or a division. *)
Theorem cipher_raises_on_invalid_keys_only (key text : str) (keep_spaces : bool) :
  length key ≤ 9 →
  if cipher.validate_key key
  then (∃ ciphertext, cipher.encrypt text key keep_spaces = Ok ciphertext)
       ∧ (∃ plaintext, cipher.decrypt text key = Ok plaintext)
  else cipher.encrypt text key keep_spaces = Raise ValueError
       ∧ cipher.decrypt text key = Raise ValueError.
Proof.
  intros Hlen. destruct (cipher.validate_key key) eqn:Hv.
  - split; [by apply encrypt_total|by apply decrypt_valid_total].
  - unfold cipher.encrypt, cipher.decrypt.
    by rewrite (invalid_key_raises key Hv).
Qed.

Lemma cipher_raises_on_invalid_keys_only_witness :
  cipher.encrypt (lit "HELLO") (lit "1224") false = Raise ValueError
  ∧ cipher.decrypt (lit "HELLO") (lit "1224") = Raise ValueError.
Proof.
  apply (cipher_raises_on_invalid_keys_only (lit "1224") (lit "HELLO") false).
  simpl. lia.
Defined.

(** ** cipher.py: get_key_permutations *)

Lemma selections_length {A} (l : list A) : length (selections l) = length l.
Proof. induction l as [|x l IH]; [done|]. simpl. by rewrite length_fmap, IH. Qed.

Lemma bind_length_const {A B} (f : A → list B) (l : list A) m :
  (∀ x, x ∈ l → length (f x) = m) → length (l ≫= f) = length l * m.
Proof.
  induction l as [|x l IH]; intros H; [done|].
  rewrite bind_cons, length_app, (H x), IH by (left || (intros; apply H; by right)).
  simpl. lia.
Qed.

Lemma permutations_n_length {A} n (l : list A) :
  length l = n → length (permutations_n n l) = fact n.
Proof.
  revert l. induction n as [|n IH]; intros l Hl; [done|]. simpl.
  rewrite (bind_length_const _ _ (fact n)).
  - rewrite selections_length, Hl. simpl. lia.
  - intros [x r] Hx. rewrite length_fmap. apply IH. simpl.
    apply selections_Permutation in Hx. rewrite Hx in Hl. simpl in Hl. lia.
Qed.

Lemma get_key_permutations_eq n :
  n ≤ 9 → cipher.get_key_permutations n = permutations (digit_char <$> seq 1 n).
Proof. apply key_perms_eq. Qed.

(** X6. For a length of at most 9, [get_key_permutations] returns the
    n! numeric keys of that length, each once, in ascending order of the
    strings; for a length from 1 on all of them are valid keys. *)
Theorem get_key_permutations_lists_all_keys (n : nat) :
  n ≤ 9 →
  let keys := cipher.get_key_permutations n in
  length keys = fact n
  ∧ NoDup keys
  ∧ StronglySorted str_lt keys
  ∧ (∀ key, key ∈ keys ↔ perm_key n key)
  ∧ (1 ≤ n → Forall (λ key, cipher.validate_key key = true) keys).
Proof.
  intros Hn keys. unfold keys. rewrite get_key_permutations_eq by done.
  assert (Hsorted : StronglySorted str_lt (permutations (digit_char <$> seq 1 n))).
  { apply permutations_n_sorted. by apply digits_sorted. }
  split; [|split; [|split; [done|split]]].
  - unfold permutations. rewrite permutations_n_length by done.
    by rewrite length_fmap, length_seq.
  - apply (StronglySorted_NoDup str_lt); [|done].
    intros k. apply lex_lt_irrefl. unfold char_lt. lia.
  - intros key. apply permutations_elem.
  - intros H1. apply Forall_forall. intros key Hkey.
    apply permutations_elem in Hkey.
    by destruct (validate_numeric n key ltac:(lia) Hkey).
Qed.

Lemma get_key_permutations_lists_all_keys_witness :
  let keys := cipher.get_key_permutations 3 in
  length keys = 6
  ∧ NoDup keys
  ∧ StronglySorted str_lt keys
  ∧ (∀ key, key ∈ keys ↔ perm_key 3 key)
  ∧ (1 ≤ 3 → Forall (λ key, cipher.validate_key key = true) keys).
Proof. apply (get_key_permutations_lists_all_keys 3). lia. Defined.

(** ** cipher.py: visualize_encryption *)

Lemma column_order_loop key n m r0 (column_order : list nat) :
  perm_key n key → n ≤ 9 → r0 + m = n →
  for_each (seq (S r0) m)
    (λ col_num column_order,
       col_idx ← index key (str_of_nat col_num);
       Ok (column_order ++ [col_idx]))
    column_order
  = Ok (column_order ++ (col_at key <$> seq (S r0) m)).
Proof.
  intros Hp Hn. revert r0 column_order.
  induction m as [|m IH]; intros r0 co Hr.
  { simpl. by rewrite app_nil_r. }
  rewrite <- cons_seq, for_each_cons.
  destruct (index_col_at key n Hp Hn (S r0)) as [Hidx _]; [lia|].
  rewrite Hidx, !bind_Ok, IH by lia.
  rewrite fmap_cons. by rewrite <- (assoc (++)).
Qed.

Lemma visualize_encryption_eq plaintext key numeric_key :
  cipher.normalize_key key = Ok numeric_key →
  perm_key (length key) numeric_key → 1 ≤ length key ≤ 9 →
  let n := length key in
  let L := laid_out plaintext n false in
  let R := (length (remove_spaces plaintext) + n - 1) / n in
  cipher.visualize_encryption plaintext key
  = Ok (cipher.Visualization
          ((λ i, (λ j, pad_cell L (i * n + j)) <$> seq 0 n) <$> seq 0 R)
          numeric_key (col_at numeric_key <$> seq 1 n) R n).
Proof.
  intros Hk Hp Hn n L R. unfold cipher.visualize_encryption.
  rewrite Hk, bind_Ok. cbv zeta.
  rewrite (perm_key_length _ _ Hp). fold n.
  rewrite ceil_div_ok, bind_Ok by (unfold n; lia). fold R.
  rewrite (column_order_loop numeric_key n n 0 []) by (done || unfold n; lia).
  rewrite bind_Ok. done.
Qed.

Lemma matrix_column (L : str) n R c :
  c < n →
  (λ row : str, default "X"%char (row !! c))
    <$> ((λ i, (λ j, pad_cell L (i * n + j)) <$> seq 0 n) <$> seq 0 R)
  = (λ i, pad_cell L (i * n + c)) <$> seq 0 R.
Proof.
  intros Hc. rewrite <- list_fmap_compose. apply list_fmap_ext.
  intros _ i _. simpl. by rewrite tab_lookup.
Qed.

(** X7. For a valid key of at most 9 characters [visualize_encryption]
    returns the picture of [encrypt] without [keep_spaces]: the matrix
    holds the padded text row by row, in rows as long as the key; the
    column order is a rearrangement of the column numbers 0..n-1; and the
    columns of the matrix, read in that order, are the ciphertext. *)
Theorem visualize_encryption_shows_encrypt (plaintext key : str) :
  cipher.validate_key key = true →
  length key ≤ 9 →
  ∃ v ciphertext,
    cipher.visualize_encryption plaintext key = Ok v
    ∧ cipher.encrypt plaintext key false = Ok ciphertext
    ∧ cipher.normalize_key key = Ok (cipher.key v)
    ∧ cipher.num_cols v = length key
    ∧ length (cipher.matrix v) = cipher.num_rows v
    ∧ Forall (λ row, length row = length key) (cipher.matrix v)
    ∧ concat (cipher.matrix v)
      = remove_spaces plaintext
        ++ replicate (length ciphertext - length (remove_spaces plaintext)) "X"%char
    ∧ cipher.column_order v ≡ₚ seq 0 (length key)
    ∧ ciphertext
      = concat ((λ c, (λ row : str, default "X"%char (row !! c)) <$> cipher.matrix v)
                  <$> cipher.column_order v).
Proof.
  intros Hv Hlen.
  destruct (normalize_key_perm key Hv Hlen) as (k & Hk & Hp & H1).
  assert (Hn : 1 ≤ length key ≤ 9) by lia.
  eexists _, _. split; [by apply (visualize_encryption_eq _ _ k)|].
  split; [by apply (encrypt_perm_key _ _ _ k (length key))|].
  cbv zeta. cbn [cipher.key cipher.num_cols cipher.matrix cipher.num_rows
                 cipher.column_order negb].
  set (n := length key) in *. set (L := laid_out plaintext n false).
  set (R := _ / n).
  assert (HL : length L = R * n) by (apply laid_out_length; lia).
  split; [done|]. split; [done|].
  split; [by rewrite length_fmap, length_seq|]. split.
  { apply Forall_fmap, Forall_forall. intros i _. simpl.
    by rewrite length_fmap, length_seq. }
  split.
  { trans L.
    - etrans; [|apply (pad_cell_self L)]. rewrite HL, <- concat_rows.
      f_equal. apply list_fmap_ext. intros _ i _.
      symmetry. apply (concat_singletons (λ j, pad_cell L (i * n + j)) 0).
    - unfold L, laid_out. simpl negb. cbv iota. do 2 f_equal. fold R.
      rewrite length_concat, <- list_fmap_compose.
      rewrite (list_fmap_ext _ (λ _, R) (seq 1 n))
        by (intros; simpl; by rewrite length_fmap, length_seq).
      rewrite tab_const, sum_list_replicate. lia. }
  split; [by apply col_at_Permutation; [|lia]|].
  rewrite <- list_fmap_compose. f_equal. apply list_fmap_ext.
  intros ? r Hr. simpl. apply list_elem_of_lookup_2, elem_of_seq in Hr.
  symmetry. apply matrix_column.
  destruct (index_col_at k n Hp ltac:(lia) r); lia.
Qed.

Lemma visualize_encryption_shows_encrypt_witness :
  ∃ v ciphertext,
    cipher.visualize_encryption (lit "WE ARE FOUND") (lit "ZEBRA") = Ok v
    ∧ cipher.encrypt (lit "WE ARE FOUND") (lit "ZEBRA") false = Ok ciphertext
    ∧ cipher.normalize_key (lit "ZEBRA") = Ok (cipher.key v)
    ∧ cipher.num_cols v = 5
    ∧ length (cipher.matrix v) = cipher.num_rows v
    ∧ Forall (λ row, length row = 5) (cipher.matrix v)
    ∧ concat (cipher.matrix v)
      = lit "WEAREFOUND" ++ replicate (length ciphertext - 10) "X"%char
    ∧ cipher.column_order v ≡ₚ seq 0 5
    ∧ ciphertext
      = concat ((λ c, (λ row : str, default "X"%char (row !! c)) <$> cipher.matrix v)
                  <$> cipher.column_order v).
Proof.
  apply (visualize_encryption_shows_encrypt (lit "WE ARE FOUND") (lit "ZEBRA")).
  - vm_compute. reflexivity.
  - simpl. lia.
Defined.
(** ** cipher.py: keyword_to_numeric ranks alphabetically *)

Lemma imap_positions_sorted {A B} (f : A → B) (l : list A) k :
  StronglySorted (λ a b : B * nat, a.2 < b.2) (imap (λ i c, (f c, k + i)) l).
Proof.
  revert k. induction l as [|c l IH]; intros k; [constructor|].
  rewrite imap_cons.
  rewrite (imap_ext _ (λ i c, (f c, S k + i))) by (intros; simpl; f_equal; lia).
  constructor; [apply IH|].
  apply Forall_forall. intros [b i] Hin.
  apply elem_of_lookup_imap in Hin as (i' & c' & [= -> ->] & _). simpl. lia.
Qed.

Lemma concat_singleton_lookup {A} (l : list (list A)) i c :
  Forall (λ x, length x = 1) l → l !! i = Some [c] → concat l !! i = Some c.
Proof.
  intros Hl. revert i. induction Hl as [|x l Hx _ IH]; intros i Hi; [done|].
  destruct x as [|x0 [|??]]; try done. simpl.
  destruct i as [|i]; [by injection Hi as ->|]. by apply IH.
Qed.

Lemma code_lt_asym (a b : ascii) :
  bool_decide (code a < code b) = true → bool_decide (code b < code a) = false.
Proof.
  intros H. apply bool_decide_eq_true in H. apply bool_decide_eq_false. lia.
Qed.

Lemma code_lt_cotrans (a b c : ascii) :
  bool_decide (code a < code b) = true →
  bool_decide (code a < code c) = true ∨ bool_decide (code c < code b) = true.
Proof.
  intros H. apply bool_decide_eq_true in H.
  destruct (decide (code a < code c)); [left|right]; apply bool_decide_eq_true; lia.
Qed.

Lemma keyword_to_numeric_ranks keyword :
  length keyword ≤ 9 →
  ∃ numeric_key,
    cipher.keyword_to_numeric keyword = Ok numeric_key
    ∧ ∀ i j a b,
        keyword !! i = Some a → keyword !! j = Some b →
        (rank_at numeric_key i < rank_at numeric_key j
         ↔ code (upper_char a) < code (upper_char b)
           ∨ (code (upper_char a) = code (upper_char b) ∧ i < j)).
Proof.
  intros Hlen. rewrite keyword_to_numeric_unfold.
  set (ltb := λ a b : ascii, bool_decide (code a < code b)).
  set (items := imap (λ i char, (upper_char char, i)) keyword).
  set (ps := sorted fst ltb items).
  assert (Hperm : ps ≡ₚ items) by apply sorted_Permutation.
  assert (Hps : ps.*2 ≡ₚ seq 0 (length keyword)).
  { rewrite Hperm. unfold items. rewrite fmap_imap.
    rewrite <- (list_fmap_id (seq 0 (length keyword))).
    rewrite <- (imap_seq_0 keyword id).
    apply eq_Permutation. by apply imap_ext. }
  assert (Hsorted : StronglySorted
            (sorted_by fst ltb (λ a b : ascii * nat, a.2 < b.2)) ps).
  { apply sorted_stable; [apply code_lt_asym|apply code_lt_cotrans|].
    apply (imap_positions_sorted upper_char keyword 0). }
  destruct (place_ranks ps 0 (replicate (length keyword) (lit "0")))
    as (a' & Hrun & Hlen' & Hset & _).
  { rewrite Hps. apply NoDup_seq. }
  { intros i Hi. rewrite Hps in Hi. apply elem_of_seq in Hi.
    rewrite length_replicate. lia. }
  rewrite length_replicate in Hlen'.
  assert (Hpslen : length ps = length keyword).
  { rewrite Hperm. unfold items. by rewrite length_imap. }
  assert (Hsingle : Forall (λ x : str, length x = 1) a').
  { apply Forall_lookup. intros i x Hx.
    assert (Hi : i ∈ ps.*2).
    { rewrite Hps. apply elem_of_seq. apply lookup_lt_Some in Hx. lia. }
    apply list_elem_of_fmap in Hi as (p & -> & Hp).
    apply list_elem_of_lookup in Hp as (r & Hr).
    rewrite (Hset r p Hr) in Hx. injection Hx as <-.
    apply lookup_lt_Some in Hr.
    rewrite str_of_nat_digit by lia. done. }
  assert (Hrank : ∀ i a, keyword !! i = Some a →
            ∃ r, ps !! r = Some (upper_char a, i)
                 ∧ rank_at (concat a') i = S r).
  { intros i a Hi.
    assert (Hin : (upper_char a, i) ∈ ps).
    { rewrite Hperm. unfold items. apply elem_of_lookup_imap. by exists i, a. }
    apply list_elem_of_lookup in Hin as (r & Hr). exists r. split; [done|].
    pose proof (Hset r _ Hr) as Ha. simpl in Ha.
    pose proof (lookup_lt_Some _ _ _ Hr) as Hlt.
    rewrite str_of_nat_digit in Ha by lia.
    unfold rank_at. rewrite (concat_singleton_lookup _ _ _ Hsingle Ha). simpl.
    apply digit_value_char. lia. }
  exists (concat a'). split.
  { rewrite <- (bind_Ok a' (λ a, Ok (concat a))). f_equal. rewrite <- Hrun.
    f_equal. }
  intros i j a b Hi Hj.
  destruct (Hrank i a Hi) as (ri & Hri & ->).
  destruct (Hrank j b Hj) as (rj & Hrj & ->).
  assert (Hlt : ∀ r1 r2 (p1 p2 : ascii * nat),
            ps !! r1 = Some p1 → ps !! r2 = Some p2 → r1 < r2 →
            code p1.1 < code p2.1 ∨ (¬ code p2.1 < code p1.1 ∧ p1.2 < p2.2)).
  { intros r1 r2 p1 p2 H1 H2 H12.
    destruct (StronglySorted_lookup _ _ _ _ _ _ Hsorted H1 H2 H12) as [H|[H H']].
    - left. by apply bool_decide_eq_true in H.
    - right. split; [by apply bool_decide_eq_false in H|done]. }
  split.
  - intros Hr. destruct (Hlt ri rj _ _ Hri Hrj ltac:(lia)) as [H|[H H']];
      simpl in *; lia.
  - intros Hab. destruct (decide (ri < rj)) as [|Hge]; [lia|]. exfalso.
    destruct (decide (ri = rj)) as [->|Hne].
    + rewrite Hri in Hrj. injection Hrj as Hc ->. rewrite Hc in Hab. lia.
    + destruct (Hlt rj ri _ _ Hrj Hri ltac:(lia)) as [H|[H H']];
        simpl in *; lia.
Qed.

(** X8. [keyword_to_numeric] on a keyword of at most 9 ASCII characters
    numbers the columns in alphabetical order, letter case ignored, equal
    letters from left to right: the rank at one position is below the rank
    at another exactly when its letter comes first in the alphabet, or is
    the same letter further left. *)
Theorem keyword_ranks_are_alphabetical (keyword : str) :
  isascii keyword = true →
  length keyword ≤ 9 →
  ∃ numeric_key,
    cipher.keyword_to_numeric keyword = Ok numeric_key
    ∧ perm_key (length keyword) numeric_key
    ∧ ∀ i j a b,
        keyword !! i = Some a → keyword !! j = Some b →
        (rank_at numeric_key i < rank_at numeric_key j
         ↔ code (upper_char a) < code (upper_char b)
           ∨ (code (upper_char a) = code (upper_char b) ∧ i < j)).
Proof.
  intros _ Hlen.
  destruct (keyword_to_numeric_ranks keyword Hlen) as (k & Hk & Hranks).
  destruct (keyword_to_numeric_perm keyword Hlen) as (k' & Hk' & Hp).
  exists k. split; [done|]. split; [|done]. congruence.
Qed.

Lemma keyword_ranks_are_alphabetical_witness :
  ∃ numeric_key,
    cipher.keyword_to_numeric (lit "Letter") = Ok numeric_key
    ∧ perm_key 6 numeric_key
    ∧ ∀ i j a b,
        lit "Letter" !! i = Some a → lit "Letter" !! j = Some b →
        (rank_at numeric_key i < rank_at numeric_key j
         ↔ code (upper_char a) < code (upper_char b)
           ∨ (code (upper_char a) = code (upper_char b) ∧ i < j)).
Proof.
  apply (keyword_ranks_are_alphabetical (lit "Letter")); [reflexivity|].
  simpl. lia.
Defined.

Example keyword_to_numeric_letter :
  cipher.keyword_to_numeric (lit "Letter") = Ok (lit "315624").
Proof. vm_compute. reflexivity. Qed.
(** ** scoring.py: the ranges of the scores *)

Lemma of_nat_nonneg n : (0 <= of_nat n)%Q.
Proof. unfold of_nat. change 0%Q with (inject_Z 0). rewrite <- Zle_Qle. lia. Qed.

Lemma of_nat_pos n : n ≠ 0 → (0 < of_nat n)%Q.
Proof.
  intros Hn. unfold of_nat. change 0%Q with (inject_Z 0). rewrite <- Zlt_Qlt. lia.
Qed.

Lemma of_nat_le a b : a ≤ b → (of_nat a <= of_nat b)%Q.
Proof. intros H. unfold of_nat. rewrite <- Zle_Qle. lia. Qed.

Lemma Qsquare_nonneg (y : Q) : (0 <= y * y)%Q.
Proof.
  destruct (Qlt_le_dec y 0) as [H|H].
  - assert (Heq : (y * y == (- y) * (- y))%Q) by ring.
    rewrite Heq. apply Qmult_le_0_compat; lra.
  - by apply Qmult_le_0_compat.
Qed.

Lemma ratio_bounds count total :
  total ≠ 0 → count ≤ total →
  (0 <= of_nat count / of_nat total <= 1)%Q.
Proof.
  intros Ht Hc. pose proof (of_nat_pos total Ht) as Hpos. split.
  - apply Qle_shift_div_l; [done|]. rewrite Qmult_0_l. apply of_nat_nonneg.
  - apply Qle_shift_div_r; [done|]. rewrite Qmult_1_l. by apply of_nat_le.
Qed.

Lemma score_ngrams_bounds n table text :
  1 ≤ n →
  ∃ v, scoring.score_ngrams n table text = Ok v ∧ (0 <= v <= 1)%Q.
Proof.
  intros Hn. unfold scoring.score_ngrams.
  case_bool_decide as Hlen; [by eexists|].
  match goal with |- context [for_each ?l ?f ?s] =>
    destruct (for_each_inv (λ st : nat * nat, st.1 ≤ st.2) l f s)
      as ([count total] & -> & Hle) end; [simpl; lia| |].
  - intros i [count total] Hi Hle. unfold range in Hi. apply elem_of_seq in Hi.
    destruct (all_alpha_total (upper text) i n) as [b ->].
    { unfold upper in *. rewrite length_fmap in *. lia. }
    rewrite bind_Ok. destruct b; [|by eexists].
    case_bool_decide; eexists; (split; [done|]); simpl in *; lia.
  - rewrite bind_Ok. case_bool_decide as Ht; [by eexists|].
    rewrite div_ok by (by apply of_nat_nonzero).
    eexists. split; [done|]. by apply ratio_bounds.
Qed.

Lemma chi_squared_nonneg text :
  ∃ v, scoring.chi_squared text = Ok v
       ∧ match v with
         | scoring.Fin q => (0 <= q)%Q ∧ Exists (λ c, is_alpha c = true) text
         | scoring.Inf => Forall (λ c, is_alpha c = false) text
         end.
Proof.
  unfold scoring.chi_squared. case_bool_decide as Hnil.
  { eexists. split; [done|]. subst. constructor. }
  assert (Hletters : ∀ s : str,
            length (filter (λ c, is_alpha c = true) (upper s)) = 0
            ↔ Forall (λ c, is_alpha c = false) s).
  { intros s. unfold upper. induction s as [|c s IH]; [done|].
    rewrite fmap_cons, filter_cons, is_alpha_upper_char, Forall_cons.
    destruct (is_alpha c) eqn:Hc.
    - rewrite decide_True by done. simpl. split; [done|]. by intros [? _].
    - rewrite decide_False by done. rewrite IH.
      split; [by intros ?|by intros [_ ?]]. }
  case_bool_decide as Hcnt.
  { eexists. split; [done|]. by apply Hletters. }
  match goal with |- context [for_each ?l ?f ?s] =>
    destruct (for_each_inv (λ chi_sq, (0 <= chi_sq)%Q) l f s)
      as (v & -> & Hv) end; [done| |].
  - intros letter chi_sq Hin Hchi.
    pose proof english_freq_total as Hf. rewrite Forall_forall in Hf.
    destruct (Hf letter Hin) as [f Hfl].
    unfold subscript. rewrite Hfl, bind_Ok.
    rewrite div_ok, bind_Ok by done.
    destruct (Qltb 0 _) eqn:Hlt; [|by eexists].
    apply Qltb_lt in Hlt. rewrite div_ok.
    2:{ intros Hz. rewrite Hz in Hlt. by apply Qlt_irrefl in Hlt. }
    rewrite bind_Ok. eexists. split; [done|].
    rewrite <- (Qplus_0_r 0). apply Qplus_le_compat; [done|].
    apply Qle_shift_div_l; [done|]. rewrite Qmult_0_l.
    match goal with |- (0 <= ?x ^ 2)%Q => change (x ^ 2)%Q with (x * x)%Q end.
    apply Qsquare_nonneg.
  - rewrite bind_Ok. eexists. split; [done|]. split; [done|].
    destruct (decide (Exists (λ c, is_alpha c = true) text)) as [|Hno]; [done|].
    exfalso. apply Hcnt, Hletters, Forall_forall. intros c Hc.
    destruct (is_alpha c) eqn:Halpha; [|done].
    exfalso. apply Hno, Exists_exists. by exists c.
Qed.

Lemma score_letter_frequency_bounds text :
  ∃ v, scoring.score_letter_frequency text = Ok v ∧ (0 <= v <= 1)%Q.
Proof.
  unfold scoring.score_letter_frequency.
  destruct (chi_squared_nonneg text) as ([q|] & -> & Hq); rewrite bind_Ok.
  - destruct Hq as [Hq _]. rewrite div_ok, bind_Ok by done.
    eexists. split; [done|]. unfold max_.
    assert (Hdiv : (0 <= q / 500)%Q).
    { apply Qle_shift_div_l; [done|]. by rewrite Qmult_0_l. }
    destruct (Qltb 0 (1 - q / 500)) eqn:Hlt.
    + apply Qltb_lt in Hlt. split; [by apply Qlt_le_weak|]. lra.
    + split; [apply Qle_refl|done].
  - eexists. split; [done|]. split; [apply Qle_refl|done].
Qed.

Lemma score_text_bounds text :
  ∃ v, scoring.score_text text = Ok v
       ∧ (0 <= v <= 100)%Q
       ∧ (length text < 2 → v = 0%Q).
Proof.
  unfold scoring.score_text.
  destruct (bool_decide (text = []) || bool_decide (length text < 2)) eqn:Hshort.
  { eexists. split; [done|]. split; [|done]. split; [apply Qle_refl|done]. }
  apply orb_false_iff in Hshort as [_ Hlen]. apply bool_decide_eq_false in Hlen.
  destruct (score_letter_frequency_bounds text) as (f & -> & Hf). rewrite bind_Ok.
  unfold scoring.score_bigrams, scoring.score_trigrams, scoring.score_quadgrams.
  destruct (score_ngrams_bounds 2 scoring.COMMON_BIGRAMS text) as (b & -> & Hb);
    [lia|].
  rewrite bind_Ok.
  destruct (score_ngrams_bounds 3 scoring.COMMON_TRIGRAMS text) as (t & -> & Ht);
    [lia|].
  rewrite bind_Ok.
  destruct (score_ngrams_bounds 4 scoring.COMMON_QUADGRAMS text) as (q & -> & Hq);
    [lia|].
  rewrite bind_Ok. eexists. split; [done|]. split; [|lia].
  cbv zeta. lra.
Qed.

(** X9. [score_text] never raises and its value lies between 0 and 100;
    it is 0 on every text of fewer than 2 characters.  (Floats are exact
    rationals here.) *)
Theorem score_text_range (text : str) :
  ∃ score,
    scoring.score_text text = Ok score
    ∧ (0 <= score <= 100)%Q
    ∧ (length text < 2 → score = 0%Q).
Proof. apply score_text_bounds. Qed.

(** X10. The four component scores never raise and lie between 0 and 1:
    the letter-frequency score and the shares of common bigrams, trigrams
    and quadgrams. *)
Theorem component_scores_range (text : str) :
  (∃ v, scoring.score_letter_frequency text = Ok v ∧ (0 <= v <= 1)%Q)
  ∧ (∃ v, scoring.score_bigrams text = Ok v ∧ (0 <= v <= 1)%Q)
  ∧ (∃ v, scoring.score_trigrams text = Ok v ∧ (0 <= v <= 1)%Q)
  ∧ (∃ v, scoring.score_quadgrams text = Ok v ∧ (0 <= v <= 1)%Q).
Proof.
  split; [apply score_letter_frequency_bounds|].
  split; [|split]; apply score_ngrams_bounds; lia.
Qed.

(** X11. On a text of ASCII characters [chi_squared] never raises.  It is
    infinite exactly on the texts without a letter (the empty text among
    them); on every other text it is a finite number that is not
    negative. *)
Theorem chi_squared_infinite_without_letters (text : str) :
  isascii text = true →
  ∃ v,
    scoring.chi_squared text = Ok v
    ∧ match v with
      | scoring.Fin q => (0 <= q)%Q ∧ Exists (λ c, is_alpha c = true) text
      | scoring.Inf => Forall (λ c, is_alpha c = false) text
      end.
Proof. intros _. apply chi_squared_nonneg. Qed.

Lemma chi_squared_infinite_without_letters_witness :
  ∃ v,
    scoring.chi_squared (lit "12 345") = Ok v
    ∧ match v with
      | scoring.Fin q =>
          (0 <= q)%Q ∧ Exists (λ c, is_alpha c = true) (lit "12 345")
      | scoring.Inf => Forall (λ c, is_alpha c = false) (lit "12 345")
      end.
Proof.
  apply (chi_squared_infinite_without_letters (lit "12 345")). reflexivity.
Defined.

(** ** dictionary.py: the range of the coverage *)

Lemma score_text_by_dictionary_bounds text :
  ∃ v, dictionary.score_text_by_dictionary text = Ok v ∧ (0 <= v <= 1)%Q.
Proof.
  unfold dictionary.score_text_by_dictionary.
  case_bool_decide as Hnil.
  { eexists. split; [done|]. split; [apply Qle_refl|done]. }
  case_bool_decide as Hfound.
  { eexists. split; [done|]. split; [apply Qle_refl|done]. }
  assert (Hlen : length (upper text) ≠ 0).
  { unfold upper. rewrite length_fmap. by destruct text. }
  match goal with |- context [for_each ?l ?f ?s] =>
    destruct (for_each_inv (λ cov, length cov = length (upper text)) l f s)
      as (cov & -> & Hcov) end.
  - by rewrite length_replicate.
  - intros [[w s] e] cov Hin Hcov.
    unfold sorted_reverse in Hin. rewrite sorted_Permutation in Hin.
    apply (find_words_in_text_elems (upper text) 2) in Hin as (_ & He & _).
    destruct (negb _); [|by exists cov].
    apply (for_each_inv (λ cov, length cov = length (upper text))); [done|].
    intros k cov' Hk Hcov'. apply elem_of_range in Hk.
    rewrite setitem_ok by lia. eexists. split; [done|].
    by rewrite length_insert.
  - rewrite bind_Ok, div_ok by (by apply of_nat_nonzero).
    eexists. split; [done|]. apply ratio_bounds; [done|].
    rewrite <- Hcov. apply length_filter.
Qed.

(** X12. [score_text_by_dictionary] never raises and returns a share
    between 0 and 1. *)
Theorem score_text_by_dictionary_range (text : str) :
  ∃ coverage,
    dictionary.score_text_by_dictionary text = Ok coverage
    ∧ (0 <= coverage <= 1)%Q.
Proof. apply score_text_by_dictionary_bounds. Qed.

(** ** attack.py: evaluate_plaintext *)

Lemma evaluate_plaintext_product plaintext :
  ∃ base coverage score,
    scoring.score_text plaintext = Ok base
    ∧ dictionary.score_text_by_dictionary plaintext = Ok coverage
    ∧ attack.evaluate_plaintext plaintext = Ok score
    ∧ score = (base * (1 + coverage * 0.5))%Q
    ∧ (0 <= score <= 150)%Q.
Proof.
  destruct (score_text_bounds plaintext) as (b & Hb & Hbr & _).
  destruct (score_text_by_dictionary_bounds plaintext) as (d & Hd & Hdr).
  assert (Hprod : (0 <= b * (1 + d * 0.5) <= 150)%Q) by nra.
  exists b, d, (b * (1 + d * 0.5))%Q.
  split; [done|]. split; [done|]. split; [|done].
  unfold attack.evaluate_plaintext. rewrite Hb, bind_Ok, Hd, bind_Ok.
  unfold scoring.score_with_dictionary. rewrite Hb, !bind_Ok.
  do 2 f_equal. unfold min_.
  destruct (Qltb 150 _) eqn:Hlt; [|done].
  apply Qltb_lt in Hlt. lra.
Qed.

(** X13. [evaluate_plaintext] never raises; its value lies between 0 and
    150 and is the product [score_text * (1 + coverage * 0.5)] itself:
    with a base score of at most 100 and a coverage of at most 1 the cap
    of 150 never cuts anything off. *)
Theorem evaluate_plaintext_is_uncapped (plaintext : str) :
  ∃ base coverage score,
    scoring.score_text plaintext = Ok base
    ∧ dictionary.score_text_by_dictionary plaintext = Ok coverage
    ∧ attack.evaluate_plaintext plaintext = Ok score
    ∧ score = (base * (1 + coverage * 0.5))%Q
    ∧ (0 <= score <= 150)%Q.
Proof. apply evaluate_plaintext_product. Qed.
(** ** attack.py: the key lengths the heuristic attacks can use *)

Import random.

Lemma rand_bind_Raise {A B} (m : rand A) (f : A → rand B) t e :
  m t = Raise e → (m ≫= f) t = Raise e.
Proof. intros H. unfold mbind, rand_bind. by rewrite H. Qed.

Lemma validate_key_zero key : "0"%char ∈ key → cipher.validate_key key = false.
Proof.
  intros H0. destruct (cipher.validate_key key) eqn:Hv; [exfalso|done].
  apply validate_key_iff in Hv as [_ [[_ Hval]|Ha]].
  - assert (Hin : 0 ∈ digit_value <$> key).
    { apply list_elem_of_fmap. by exists "0"%char. }
    apply Hval in Hin. lia.
  - rewrite Forall_forall in Ha. by apply Ha in H0.
Qed.

Lemma permutation_key_unusable n key :
  n = 0 ∨ 10 ≤ n → permutation_key n key → cipher.validate_key key = false.
Proof.
  intros Hn (digits & Hperm & ->). destruct Hn as [->|Hn].
  - apply Permutation_nil_r in Hperm as ->. done.
  - apply validate_key_zero.
    assert (Hin : 10 ∈ digits) by (rewrite Hperm; apply elem_of_seq; lia).
    apply list_elem_of_split in Hin as (l1 & l2 & ->).
    rewrite fmap_app, concat_app, fmap_cons. simpl.
    apply elem_of_app. right. right. left.
Qed.

Lemma decrypt_unusable n ciphertext key :
  n = 0 ∨ 10 ≤ n → permutation_key n key →
  cipher.decrypt ciphertext key = Raise ValueError.
Proof.
  intros Hn Hkey. unfold cipher.decrypt.
  by rewrite (invalid_key_raises key (permutation_key_unusable n key Hn Hkey)).
Qed.

(** *** hill_climbing_attack *)

Lemma hc_start_Ok n ciphertext t :
  1 ≤ n ≤ 9 →
  ∃ st t', attack.hc_start ciphertext n t = Ok (st, t')
           ∧ hc_consistent ciphertext n st
           ∧ attack.no_improvement_count st = 0.
Proof.
  intros Hn. destruct (generate_random_key_Ok n t) as (key & t1 & Hkey).
  pose proof (generate_random_key_perm_key n t key t1 ltac:(lia) Hkey) as Hp.
  destruct (decrypt_total n ciphertext key Hn Hp) as [p Hdec].
  destruct (evaluate_plaintext_total p) as [s Hs].
  eexists _, t1. split.
  { unfold attack.hc_start. rewrite (rand_bind_eq _ _ _ _ _ Hkey).
    rewrite Hdec, lift_bind_eq, Hs, lift_bind_eq. reflexivity. }
  done.
Qed.

Lemma hc_iteration_Ok n ciphertext st t :
  2 ≤ n ≤ 9 → hc_consistent ciphertext n st →
  ∃ st' t', attack.hc_iteration ciphertext n st t = Ok (st', t')
            ∧ hc_consistent ciphertext n st'.
Proof.
  intros Hn [(Hcur & Hcd & Hce) Hbest].
  destruct (swap_random_positions_Ok (attack.current_key st) t)
    as (nk & t1 & Hswap).
  { rewrite (perm_key_length _ _ Hcur). lia. }
  assert (Hnk : perm_key n nk).
  { apply swap_random_positions_inv in Hswap. unfold perm_key in *.
    by rewrite Hswap. }
  destruct (decrypt_total n ciphertext nk ltac:(lia) Hnk) as [np Hnp].
  destruct (evaluate_plaintext_total np) as [ns Hns].
  unfold attack.hc_iteration. rewrite (rand_bind_eq _ _ _ _ _ Hswap).
  rewrite Hnp, lift_bind_eq, Hns, lift_bind_eq.
  destruct (Qltb (attack.current_score st) ns).
  - destruct (Qltb (attack.best_score st) ns); eexists _, t1; by split.
  - case_bool_decide.
    + destruct (generate_random_key_Ok n t1) as (key & t2 & Hkey).
      pose proof (generate_random_key_perm_key n t1 key t2 ltac:(lia) Hkey) as Hp.
      destruct (decrypt_total n ciphertext key ltac:(lia) Hp) as [p Hdec].
      destruct (evaluate_plaintext_total p) as [s Hs].
      rewrite (rand_bind_eq _ _ _ _ _ Hkey).
      rewrite Hdec, lift_bind_eq, Hs, lift_bind_eq.
      eexists _, t2. by split.
    + eexists _, t1. by split.
Qed.

Lemma hc_run_Ok n ciphertext max_iterations t :
  2 ≤ n ≤ 9 →
  ∃ st t', attack.hc_run ciphertext n max_iterations t = Ok (st, t')
           ∧ hc_consistent ciphertext n st.
Proof.
  intros Hn.
  destruct (hc_start_Ok n ciphertext t) as (st0 & t0 & Hstart & Hst0 & _); [lia|].
  destruct (rfor_each_Ok (hc_consistent ciphertext n) (range 0 max_iterations)
              (λ _, attack.hc_iteration ciphertext n) st0 t0 Hst0)
    as (st & t' & Hrun & Hst).
  { intros _ s t1 _ Hs. by apply hc_iteration_Ok. }
  exists st, t'. split; [|done].
  unfold attack.hc_run. by rewrite (rand_bind_eq _ _ _ _ _ Hstart).
Qed.

Lemma hill_climbing_attack_Ok n ciphertext max_iterations t :
  2 ≤ n ≤ 9 →
  ∃ key plaintext score t',
    attack.hill_climbing_attack ciphertext n max_iterations t
    = Ok ((key, plaintext, score), t')
    ∧ consistent ciphertext n key plaintext score.
Proof.
  intros Hn.
  destruct (hc_run_Ok n ciphertext max_iterations t Hn) as (st & t' & Hrun & _ & Hbest).
  eexists _, _, _, t'. split; [|exact Hbest].
  unfold attack.hill_climbing_attack. by rewrite (rand_bind_eq _ _ _ _ _ Hrun).
Qed.

(** X14. For a key length from 2 to 9 [hill_climbing_attack] returns on
    every ciphertext, for every number of iterations and whatever the
    random draws; the key it returns holds the digits 1..key_length once
    each, the plaintext is the decryption of the ciphertext with that key,
    and the score is the evaluation of that plaintext. *)
Theorem hill_climbing_returns_a_consistent_triple
    (ciphertext : str) (key_length max_iterations : nat) (t : tape) :
  2 ≤ key_length ≤ 9 →
  ∃ key plaintext score t',
    attack.hill_climbing_attack ciphertext key_length max_iterations t
    = Ok ((key, plaintext, score), t')
    ∧ perm_key key_length key
    ∧ cipher.decrypt ciphertext key = Ok plaintext
    ∧ attack.evaluate_plaintext plaintext = Ok score.
Proof. apply hill_climbing_attack_Ok. Qed.

Lemma hill_climbing_returns_a_consistent_triple_witness :
  ∃ key plaintext score t',
    attack.hill_climbing_attack (lit "EHT UQCI KRBWO NOFX") 4 1000 [3; 1; 4; 1; 5] 
    = Ok ((key, plaintext, score), t')
    ∧ perm_key 4 key
    ∧ cipher.decrypt (lit "EHT UQCI KRBWO NOFX") key = Ok plaintext
    ∧ attack.evaluate_plaintext plaintext = Ok score.
Proof.
  apply (hill_climbing_returns_a_consistent_triple _ 4 1000 [3; 1; 4; 1; 5]). lia.
Defined.

Lemma hc_start_unusable n ciphertext t :
  n = 0 ∨ 10 ≤ n → attack.hc_start ciphertext n t = Raise ValueError.
Proof.
  intros Hn. destruct (generate_random_key_Ok n t) as (key & t1 & Hkey).
  pose proof (generate_random_key_inv n t key t1 Hkey) as Hp.
  unfold attack.hc_start. rewrite (rand_bind_eq _ _ _ _ _ Hkey).
  by rewrite (decrypt_unusable n ciphertext key Hn Hp).
Qed.

Lemma sample2_short n t : n < 2 → sample2 n t = Raise ValueError.
Proof. intros Hn. unfold sample2. by rewrite bool_decide_eq_true_2. Qed.

Lemma hill_climbing_attack_raises n ciphertext max_iterations t :
  n = 0 ∨ 10 ≤ n ∨ (n = 1 ∧ 1 ≤ max_iterations) →
  attack.hill_climbing_attack ciphertext n max_iterations t = Raise ValueError.
Proof.
  intros Hn. unfold attack.hill_climbing_attack. apply rand_bind_Raise.
  unfold attack.hc_run.
  destruct (decide (n = 0 ∨ 10 ≤ n)) as [Hbad|Hone].
  { apply rand_bind_Raise. by apply hc_start_unusable. }
  destruct Hn as [?|[?|[-> Hit]]]; [lia..|].
  destruct (hc_start_Ok 1 ciphertext t) as (st0 & t0 & Hstart & [(Hcur & _) _] & _);
    [lia|].
  rewrite (rand_bind_eq _ _ _ _ _ Hstart).
  unfold range. destruct max_iterations as [|k]; [lia|].
  rewrite Nat.sub_0_r, <- cons_seq, rfor_each_cons.
  apply rand_bind_Raise. unfold attack.hc_iteration, attack.swap_random_positions.
  do 2 apply rand_bind_Raise.
  apply sample2_short. rewrite (perm_key_length _ _ Hcur). lia.
Qed.

(** X15. Outside the key lengths 2..9 [hill_climbing_attack] raises
    [ValueError] on every ciphertext and whatever the random draws: for a
    key length of 0 or of 10 and more on its first decryption (the key it
    draws is none that [validate_key] accepts), and for a key length of 1
    as soon as it makes one iteration (no two positions to swap). *)
Theorem hill_climbing_raises_outside_2_to_9
    (ciphertext : str) (key_length max_iterations : nat) (t : tape) :
  key_length = 0 ∨ 10 ≤ key_length ∨ (key_length = 1 ∧ 1 ≤ max_iterations) →
  attack.hill_climbing_attack ciphertext key_length max_iterations t
  = Raise ValueError.
Proof. apply hill_climbing_attack_raises. Qed.

Lemma hill_climbing_raises_outside_2_to_9_witness :
  attack.hill_climbing_attack (lit "EHT UQCI KRBWO NOFX") 10 1000 []
  = Raise ValueError.
Proof.
  apply (hill_climbing_raises_outside_2_to_9 _ 10 1000 []). right. left. lia.
Defined.
(** *** genetic_algorithm_attack *)

Import random.

Lemma rfor_each_app_Ok {A S} (l1 l2 : list A) (body : A → S → rand S) s t r :
  rfor_each (l1 ++ l2) body s t = Ok r →
  ∃ s1 t1, rfor_each l1 body s t = Ok (s1, t1) ∧ rfor_each l2 body s1 t1 = Ok r.
Proof.
  rewrite rfor_each_app. destruct r as [s' t']. intros H.
  apply rand_bind_Ok in H as (s1 & t1 & H1 & H2). by exists s1, t1.
Qed.

Lemma ga_evaluate_best n ciphertext (l : list str) fitness_scores best
    fitness_scores' best' :
  1 ≤ n ≤ 9 → Forall (perm_key n) l → ga_best_consistent ciphertext n best →
  for_each l
    (λ key '((fitness_scores, best) : list attack.candidate * (option str * option str * Q)),
       plaintext ← cipher.decrypt ciphertext key;
       score ← attack.evaluate_plaintext plaintext;
       let fitness_scores := fitness_scores ++ [(key, plaintext, score)] in
       if Qltb best.2 score then Ok (fitness_scores, (Some key, Some plaintext, score))
       else Ok (fitness_scores, best))
    (fitness_scores, best) = Ok (fitness_scores', best') →
  ga_best_consistent ciphertext n best'
  ∧ (best.2 <= best'.2)%Q
  ∧ Forall (λ key, ∃ plaintext score,
              cipher.decrypt ciphertext key = Ok plaintext
              ∧ attack.evaluate_plaintext plaintext = Ok score
              ∧ (score <= best'.2)%Q) l.
Proof.
  intros Hn Hl. revert fitness_scores best.
  induction Hl as [|key l Hkey Hl IH]; intros fs best Hbest Hrun.
  { injection Hrun as _ <-. split; [done|]. split; [apply Qle_refl|constructor]. }
  rewrite for_each_cons in Hrun.
  apply res_bind_Ok in Hrun as ([fs1 best1] & Hstep & Hrun).
  apply res_bind_Ok in Hstep as (p & Hp & Hstep).
  apply res_bind_Ok in Hstep as (s & Hs & Hstep). cbv zeta in Hstep.
  assert (Hbest1 : ga_best_consistent ciphertext n best1
                   ∧ (best.2 <= best1.2)%Q ∧ (s <= best1.2)%Q).
  { destruct (Qltb best.2 s) eqn:Hlt; injection Hstep as _ <-.
    - apply Qltb_lt in Hlt. split; [done|]. split; [by apply Qlt_le_weak|].
      apply Qle_refl.
    - apply Qltb_ge in Hlt. split; [done|]. split; [apply Qle_refl|done]. }
  destruct Hbest1 as (Hc1 & Hle1 & Hs1).
  destruct (IH fs1 best1 Hc1 Hrun) as (Hc & Hle & Hall).
  split; [done|]. split; [by eapply Qle_trans|].
  constructor; [|done]. exists p, s. split; [done|]. split; [done|].
  by eapply Qle_trans.
Qed.

Lemma ga_generation_best n ciphertext population_size st t st' t' :
  1 ≤ n ≤ 9 → Forall (perm_key n) (attack.population st) →
  ga_best_consistent ciphertext n
    (attack.ga_best_key st, attack.ga_best_plaintext st, attack.ga_best_score st) →
  attack.ga_generation ciphertext population_size st t = Ok (st', t') →
  ga_best_consistent ciphertext n
    (attack.ga_best_key st', attack.ga_best_plaintext st', attack.ga_best_score st')
  ∧ (attack.ga_best_score st <= attack.ga_best_score st')%Q
  ∧ Forall (λ key, ∃ plaintext score,
              cipher.decrypt ciphertext key = Ok plaintext
              ∧ attack.evaluate_plaintext plaintext = Ok score
              ∧ (score <= attack.ga_best_score st')%Q) (attack.population st).
Proof.
  intros Hn Hpop Hbest Hrun. unfold attack.ga_generation in Hrun.
  apply rand_bind_Ok in Hrun as ([fs best] & t1 & Heval & Hrun).
  apply lift_Ok in Heval as [Heval _].
  apply (ga_evaluate_best n) in Heval; [|done..].
  cbv zeta in Hrun.
  apply rand_bind_Ok in Hrun as (pop & t2 & _ & Hret).
  apply rand_ret_Ok in Hret as [<- _]. simpl in *.
  by destruct best as [[??]?].
Qed.

Lemma ga_run_best n ciphertext population_size generations t st t' :
  1 ≤ n ≤ 9 →
  attack.ga_run ciphertext n population_size generations t = Ok (st, t') →
  ga_best_consistent ciphertext n
    (attack.ga_best_key st, attack.ga_best_plaintext st, attack.ga_best_score st).
Proof.
  intros Hn Hrun. unfold attack.ga_run in Hrun.
  apply rand_bind_Ok in Hrun as (st0 & t0 & Hstart & Hrun).
  pose proof (ga_start_population n _ _ _ _ ltac:(lia) Hstart) as Hpop.
  assert (Hst0 : ga_best_consistent ciphertext n
            (attack.ga_best_key st0, attack.ga_best_plaintext st0,
             attack.ga_best_score st0)).
  { unfold attack.ga_start in Hstart.
    apply rand_bind_Ok in Hstart as (pop & t1 & _ & Hret).
    by apply rand_ret_Ok in Hret as [<- _]. }
  apply (rfor_each_inv
           (λ st, Forall (perm_key n) (attack.population st)
                  ∧ ga_best_consistent ciphertext n
                      (attack.ga_best_key st, attack.ga_best_plaintext st,
                       attack.ga_best_score st))) in Hrun; [by destruct Hrun|done|].
  intros _ s t1 s' t1' _ [Hs Hb] Hstep. split.
  - by apply (ga_generation_population n _ _ _ _ _ _ ltac:(lia) Hs Hstep).
  - by destruct (ga_generation_best n _ _ _ _ _ _ Hn Hs Hb Hstep).
Qed.

(** X16. For a key length from 2 to 9 and a population size other than 1,
    [genetic_algorithm_attack] returns on every ciphertext, for every
    number of generations and whatever the random draws.  What it returns
    is either a key that holds the digits 1..key_length once each, with
    the decryption under that key and its score, or, when no individual
    ever scored above 0, the triple (None, None, 0). *)
Theorem genetic_algorithm_returns_a_consistent_triple
    (ciphertext : str) (key_length population_size generations : nat) (t : tape) :
  2 ≤ key_length ≤ 9 →
  population_size ≠ 1 →
  ∃ best t',
    attack.genetic_algorithm_attack ciphertext key_length population_size generations t
    = Ok (best, t')
    ∧ match best with
      | (Some key, Some plaintext, score) =>
          perm_key key_length key
          ∧ cipher.decrypt ciphertext key = Ok plaintext
          ∧ attack.evaluate_plaintext plaintext = Ok score
      | (None, None, score) => score = 0%Q
      | _ => False
      end.
Proof.
  intros Hn Hsize.
  destruct (ga_run_Ok key_length ciphertext population_size generations t Hn Hsize)
    as (st & t' & Hrun & _).
  pose proof (ga_run_best key_length _ _ _ _ _ _ ltac:(lia) Hrun) as Hbest.
  eexists _, t'. split.
  { unfold attack.genetic_algorithm_attack.
    rewrite (rand_bind_eq _ _ _ _ _ Hrun). reflexivity. }
  exact Hbest.
Qed.

Lemma genetic_algorithm_returns_a_consistent_triple_witness :
  ∃ best t',
    attack.genetic_algorithm_attack (lit "EHT UQCI KRBWO NOFX") 4 100 500 [2; 7; 1; 8]
    = Ok (best, t')
    ∧ match best with
      | (Some key, Some plaintext, score) =>
          perm_key 4 key
          ∧ cipher.decrypt (lit "EHT UQCI KRBWO NOFX") key = Ok plaintext
          ∧ attack.evaluate_plaintext plaintext = Ok score
      | (None, None, score) => score = 0%Q
      | _ => False
      end.
Proof.
  apply (genetic_algorithm_returns_a_consistent_triple _ 4 100 500 [2; 7; 1; 8]);
    lia.
Defined.

Lemma ga_evaluate_monotone ciphertext (l : list str) fitness_scores best
    fitness_scores' best' :
  for_each l
    (λ key '((fitness_scores, best) : list attack.candidate * (option str * option str * Q)),
       plaintext ← cipher.decrypt ciphertext key;
       score ← attack.evaluate_plaintext plaintext;
       let fitness_scores := fitness_scores ++ [(key, plaintext, score)] in
       if Qltb best.2 score then Ok (fitness_scores, (Some key, Some plaintext, score))
       else Ok (fitness_scores, best))
    (fitness_scores, best) = Ok (fitness_scores', best') →
  (best.2 <= best'.2)%Q.
Proof.
  revert fitness_scores best. induction l as [|key l IH]; intros fs0 b0 Hrun.
  { injection Hrun as _ <-. apply Qle_refl. }
  rewrite for_each_cons in Hrun.
  apply res_bind_Ok in Hrun as ([fs1 best1] & Hstep & Hrun).
  apply res_bind_Ok in Hstep as (p & _ & Hstep).
  apply res_bind_Ok in Hstep as (sc & _ & Hstep). cbv zeta in Hstep.
  apply IH in Hrun. eapply Qle_trans; [|exact Hrun].
  destruct (Qltb b0.2 sc) eqn:Hlt; injection Hstep as _ <-.
  - apply Qltb_lt in Hlt. by apply Qlt_le_weak.
  - apply Qle_refl.
Qed.

Lemma rfor_each_best_monotone ciphertext population_size (l : list nat) st t st' t' :
  rfor_each l (λ _ : nat, attack.ga_generation ciphertext population_size) st t
  = Ok (st', t') →
  (attack.ga_best_score st <= attack.ga_best_score st')%Q.
Proof.
  intros Hrun.
  apply (rfor_each_inv (λ s, (attack.ga_best_score st <= attack.ga_best_score s)%Q))
    in Hrun; [done|apply Qle_refl|].
  intros _ s t1 s' t1' _ Hs Hstep. eapply Qle_trans; [exact Hs|].
  unfold attack.ga_generation in Hstep.
  apply rand_bind_Ok in Hstep as ([fs best] & t2 & Heval & Hstep).
  apply lift_Ok in Heval as [Heval _]. cbv zeta in Hstep.
  apply rand_bind_Ok in Hstep as (pop & t3 & _ & Hret).
  apply rand_ret_Ok in Hret as [<- _]. simpl.
  by apply ga_evaluate_monotone in Heval.
Qed.

Lemma ga_run_dominates n ciphertext population_size generations t st t' g :
  1 ≤ n ≤ 9 → g < generations →
  attack.ga_run ciphertext n population_size generations t = Ok (st, t') →
  ∃ st_g t_g,
    attack.ga_run ciphertext n population_size g t = Ok (st_g, t_g)
    ∧ Forall (λ key, ∃ plaintext score,
                cipher.decrypt ciphertext key = Ok plaintext
                ∧ attack.evaluate_plaintext plaintext = Ok score
                ∧ (score <= attack.ga_best_score st)%Q) (attack.population st_g).
Proof.
  intros Hn Hg Hrun. unfold attack.ga_run in Hrun.
  apply rand_bind_Ok in Hrun as (st0 & t0 & Hstart & Hrun).
  assert (Hsplit : range 0 generations
                   = range 0 g ++ [g] ++ range (S g) generations).
  { unfold range. rewrite !Nat.sub_0_r.
    replace generations with (g + S (generations - S g)) at 1 by lia.
    by rewrite seq_app. }
  rewrite Hsplit in Hrun.
  apply rfor_each_app_Ok in Hrun as (st_g & t_g & Hg1 & Hrun).
  apply rfor_each_app_Ok in Hrun as (st_g1 & t_g1 & Hg2 & Hrest).
  assert (Hrun_g : attack.ga_run ciphertext n population_size g t = Ok (st_g, t_g)).
  { unfold attack.ga_run. by rewrite (rand_bind_eq _ _ _ _ _ Hstart). }
  exists st_g, t_g. split; [done|].
  pose proof (ga_run_population n _ _ _ _ _ _ ltac:(lia) Hrun_g) as Hpop.
  pose proof (ga_run_best n _ _ _ _ _ _ Hn Hrun_g) as Hbest.
  simpl in Hg2. apply rand_bind_Ok in Hg2 as (s1 & t1 & Hgen & Hret).
  apply rand_ret_Ok in Hret as [-> ->].
  destruct (ga_generation_best n _ _ _ _ _ _ Hn Hpop Hbest Hgen) as (_ & _ & Hall).
  apply rfor_each_best_monotone in Hrest.
  eapply Forall_impl; [exact Hall|]. intros key (p & s & Hp & Hs & Hle).
  exists p, s. split; [done|]. split; [done|]. by eapply Qle_trans.
Qed.

(** X17. The best score that the genetic algorithm tracks is the maximum
    over everything it evaluated: when a run of [generations] rounds with
    a key length of at most 9 returns, its best score is at least the
    score of every individual of the population of every round (the
    population of round [g] is that of the run cut after [g] rounds, on
    the same draws). *)
Theorem genetic_best_score_dominates_every_individual
    (ciphertext : str) (key_length population_size generations g : nat)
    (t t' : tape) (st : attack.ga_state) :
  1 ≤ key_length ≤ 9 →
  g < generations →
  attack.ga_run ciphertext key_length population_size generations t = Ok (st, t') →
  ∃ st_g t_g,
    attack.ga_run ciphertext key_length population_size g t = Ok (st_g, t_g)
    ∧ Forall (λ key, ∃ plaintext score,
                cipher.decrypt ciphertext key = Ok plaintext
                ∧ attack.evaluate_plaintext plaintext = Ok score
                ∧ (score <= attack.ga_best_score st)%Q) (attack.population st_g).
Proof. apply ga_run_dominates. Qed.

Lemma genetic_best_score_dominates_every_individual_witness :
  ∃ st t' st_g t_g,
    attack.ga_run (lit "EHT UQCI KRBWO NOFX") 4 6 3 [5; 9; 2; 6] = Ok (st, t')
    ∧ attack.ga_run (lit "EHT UQCI KRBWO NOFX") 4 6 1 [5; 9; 2; 6] = Ok (st_g, t_g)
    ∧ Forall (λ key, ∃ plaintext score,
                cipher.decrypt (lit "EHT UQCI KRBWO NOFX") key = Ok plaintext
                ∧ attack.evaluate_plaintext plaintext = Ok score
                ∧ (score <= attack.ga_best_score st)%Q) (attack.population st_g).
Proof.
  destruct (ga_run_Ok 4 (lit "EHT UQCI KRBWO NOFX") 6 3 [5; 9; 2; 6]
              ltac:(lia) ltac:(lia)) as (st & t' & Hrun & _).
  destruct (genetic_best_score_dominates_every_individual
              _ 4 6 3 1 _ _ _ ltac:(lia) ltac:(lia) Hrun)
    as (st_g & t_g & Hg & Hall).
  exists st, t', st_g, t_g. split; [exact Hrun|]. split; [exact Hg|exact Hall].
Defined.

(** *** When the genetic algorithm raises *)

Lemma ga_start_keys n population_size t st t' :
  attack.ga_start n population_size t = Ok (st, t') →
  Forall (permutation_key n) (attack.population st).
Proof.
  intros Hrun. unfold attack.ga_start in Hrun.
  apply rand_bind_Ok in Hrun as (pop & t1 & Hloop & Hret).
  apply rand_ret_Ok in Hret as [<- _]. simpl.
  apply (rfor_each_inv (Forall (permutation_key n))) in Hloop; [done|constructor|].
  intros _ s t2 s' t2' _ Hs Hstep.
  apply rand_bind_Ok in Hstep as (key & t3 & Hkey & Hret).
  apply rand_ret_Ok in Hret as [<- _].
  apply Forall_app. split; [done|]. constructor; [|constructor].
  by apply (generate_random_key_inv n t2 key t3).
Qed.

Lemma first_generation n ciphertext population_size generations t :
  1 ≤ generations →
  ∃ st0 t0,
    attack.ga_start n population_size t = Ok (st0, t0)
    ∧ length (attack.population st0) = population_size
    ∧ ∀ e, attack.ga_generation ciphertext population_size st0 t0 = Raise e →
           attack.genetic_algorithm_attack ciphertext n population_size generations t
           = Raise e.
Proof.
  intros Hg. destruct (ga_start_Ok n population_size t) as (st0 & t0 & Hstart & Hlen).
  exists st0, t0. split; [done|]. split; [done|]. intros e Hgen.
  unfold attack.genetic_algorithm_attack. apply rand_bind_Raise.
  unfold attack.ga_run. rewrite (rand_bind_eq _ _ _ _ _ Hstart).
  unfold range. destruct generations as [|k]; [lia|].
  rewrite Nat.sub_0_r, <- cons_seq, rfor_each_cons.
  by apply rand_bind_Raise.
Qed.

Lemma ga_generation_unusable n ciphertext population_size st t :
  n = 0 ∨ 10 ≤ n → attack.population st ≠ [] →
  Forall (permutation_key n) (attack.population st) →
  attack.ga_generation ciphertext population_size st t = Raise ValueError.
Proof.
  intros Hn Hne Hpop. unfold attack.ga_generation. apply rand_bind_Raise.
  destruct (attack.population st) as [|key pop]; [done|].
  apply Forall_cons in Hpop as [Hkey _].
  rewrite for_each_cons, (decrypt_unusable n _ _ Hn Hkey). reflexivity.
Qed.

Lemma ga_generation_refill n ciphertext population_size st t :
  1 ≤ n ≤ 9 → Forall (perm_key n) (attack.population st) →
  length (attack.population st) = population_size →
  ∃ selected : list str,
    length selected = population_size `div` 2
    ∧ Forall (perm_key n) selected
    ∧ ∀ e, attack.ga_refill (population_size - length selected) selected selected t
           = Raise e →
           attack.ga_generation ciphertext population_size st t = Raise e.
Proof.
  intros Hn Hpop Hlen.
  destruct (ga_evaluate_Ok n ciphertext (attack.population st) []
              (attack.ga_best_key st, attack.ga_best_plaintext st, attack.ga_best_score st))
    as ([fs best] & Heval); [lia|done|].
  pose proof (ga_evaluate_keys _ _ _ _ _ _ Heval) as Hkeys. simpl in Hkeys.
  set (fitness_scores := sorted_reverse (λ x : attack.candidate, x.2) Qltb fs).
  set (selected := (λ item : attack.candidate, item.1.1) <$>
                     take (population_size `div` 2) fitness_scores).
  exists selected. split.
  { unfold selected, fitness_scores, sorted_reverse.
    rewrite length_fmap, length_take, sorted_Permutation.
    rewrite <- (length_fmap (λ item : attack.candidate, item.1.1)), Hkeys, Hlen.
    pose proof (Nat.Div0.div_le_upper_bound population_size 2 population_size). lia. }
  split; [by apply (ga_selected _ _ _ (attack.population st))|].
  intros e Hrefill. unfold attack.ga_generation.
  etrans; [apply rand_bind_eq, lift_Ok; split; [exact Heval|reflexivity]|].
  cbv beta iota zeta. fold fitness_scores. fold selected.
  by apply rand_bind_Raise.
Qed.

Lemma choice_nil {A} t : choice (@nil A) t = Raise IndexError.
Proof. reflexivity. Qed.

Lemma genetic_algorithm_attack_raises n ciphertext population_size generations t :
  1 ≤ generations →
  ((n = 0 ∨ 10 ≤ n) → 1 ≤ population_size →
   attack.genetic_algorithm_attack ciphertext n population_size generations t
   = Raise ValueError)
  ∧ (1 ≤ n ≤ 9 → population_size = 1 →
     attack.genetic_algorithm_attack ciphertext n population_size generations t
     = Raise IndexError)
  ∧ (n = 1 → 2 ≤ population_size →
     attack.genetic_algorithm_attack ciphertext n population_size generations t
     = Raise ValueError).
Proof.
  intros Hg.
  destruct (first_generation n ciphertext population_size generations t Hg)
    as (st0 & t0 & Hstart & Hlen & Hraise).
  split; [|split].
  - intros Hn Hsize. apply Hraise. apply (ga_generation_unusable n); [done| |].
    + intros Hnil. rewrite Hnil in Hlen. simpl in Hlen. lia.
    + by eapply ga_start_keys.
  - intros Hn ->. apply Hraise.
    pose proof (ga_start_population n _ _ _ _ ltac:(lia) Hstart) as Hpop.
    destruct (ga_generation_refill n ciphertext 1 st0 t0 Hn Hpop Hlen)
      as (selected & Hsel & _ & Hrefill).
    apply Hrefill. change (1 `div` 2) with 0 in Hsel.
    destruct selected; [|done]. simpl. apply rand_bind_Raise, choice_nil.
  - intros -> Hsize. apply Hraise.
    pose proof (ga_start_population 1 _ _ _ _ ltac:(lia) Hstart) as Hpop.
    destruct (ga_generation_refill 1 ciphertext population_size st0 t0
                ltac:(lia) Hpop Hlen) as (selected & Hsel & Hkeys & Hrefill).
    apply Hrefill.
    pose proof (Nat.div_str_pos population_size 2 ltac:(lia)) as Hpos.
    pose proof (Nat.div_lt population_size 2 ltac:(lia) ltac:(lia)) as Hlt.
    assert (Hne : selected ≠ []).
    { intros ->. cbn [length] in Hsel. lia. }
    assert (Hpasses : population_size - length selected ≠ 0)
      by (rewrite Hsel; lia).
    destruct (population_size - length selected) as [|passes]; [done|].
    simpl.
    destruct (choice_Ok selected t0 Hne) as (parent1 & t1 & Hp1).
    destruct (choice_Ok selected t1 Hne) as (parent2 & t2 & Hp2).
    rewrite (rand_bind_eq _ _ _ _ _ Hp1), (rand_bind_eq _ _ _ _ _ Hp2).
    apply rand_bind_Raise. unfold attack.crossover_keys.
    apply rand_bind_Raise, sample2_short.
    rewrite Forall_forall in Hkeys.
    rewrite (perm_key_length 1 parent1); [lia|].
    apply Hkeys. by eapply choice_inv.
Qed.

(** X18. When it runs at least one generation,
    [genetic_algorithm_attack] raises, on every ciphertext and whatever
    the random draws: [ValueError] for a key length of 0 or of 10 and more
    with a population that is not empty (the keys it draws are none that
    [validate_key] accepts); [IndexError] for a population of one, which
    leaves no parent to choose from; and [ValueError] for a key length of
    1 with a larger population (no two points for the crossover). *)
Theorem genetic_algorithm_raises
    (ciphertext : str) (key_length population_size generations : nat) (t : tape) :
  1 ≤ generations →
  ((key_length = 0 ∨ 10 ≤ key_length) → 1 ≤ population_size →
   attack.genetic_algorithm_attack ciphertext key_length population_size generations t
   = Raise ValueError)
  ∧ (1 ≤ key_length ≤ 9 → population_size = 1 →
     attack.genetic_algorithm_attack ciphertext key_length population_size generations t
     = Raise IndexError)
  ∧ (key_length = 1 → 2 ≤ population_size →
     attack.genetic_algorithm_attack ciphertext key_length population_size generations t
     = Raise ValueError).
Proof. apply genetic_algorithm_attack_raises. Qed.

Lemma genetic_algorithm_raises_witness :
  attack.genetic_algorithm_attack (lit "EHT UQCI KRBWO NOFX") 10 100 500 []
  = Raise ValueError
  ∧ attack.genetic_algorithm_attack (lit "EHT UQCI KRBWO NOFX") 5 1 500 []
    = Raise IndexError.
Proof.
  destruct (genetic_algorithm_raises (lit "EHT UQCI KRBWO NOFX") 10 100 500 []
              ltac:(lia)) as (Hlong & _ & _).
  destruct (genetic_algorithm_raises (lit "EHT UQCI KRBWO NOFX") 5 1 500 []
              ltac:(lia)) as (_ & Hone & _).
  split; [apply Hlong; lia|apply Hone; lia].
Defined.
(** ** attack.py: smart_attack *)

Import random.

Lemma sorted_of_sorted {A K} (key : A → K) (ltb : K → K → bool) (l : list A) :
  StronglySorted (λ a b, ltb (key b) (key a) = false) l → sorted key ltb l = l.
Proof.
  induction 1 as [|x l Hl IH Hx]; [done|].
  simpl. rewrite IH. destruct l as [|y l]; [done|].
  apply Forall_cons in Hx as [Hy _]. simpl. by rewrite Hy.
Qed.

Lemma StronglySorted_take {A} (R : A → A → Prop) (l : list A) k :
  StronglySorted R l → StronglySorted R (take k l).
Proof.
  intros Hl. rewrite <- (take_drop k l) in Hl.
  by apply StronglySorted_app_1_l in Hl.
Qed.

Lemma brute_force_attack_descending ciphertext m :
  m ≤ 9 →
  StronglySorted (λ a b : attack.candidate, Qltb a.2 b.2 = false)
    (attack.brute_force_attack ciphertext m).
Proof.
  intros Hm. eapply StronglySorted_impl; [|by apply brute_force_attack_sorted].
  intros a b [Hlt|[Heq _]]; apply Qltb_ge.
  - by apply Qlt_le_weak.
  - rewrite Heq. apply Qle_refl.
Qed.

Lemma rand_ret_bind_eq {A B} (a : A) (f : A → rand B) t :
  (mret (M:=rand) a ≫= f) t = f a t.
Proof. reflexivity. Qed.

Lemma smart_attack_brute_force ciphertext min_key_length max_key_length t :
  max_key_length ≤ 7 →
  attack.smart_attack ciphertext min_key_length max_key_length t
  = Ok (if bool_decide (min_key_length ≤ 7)
        then attack.found <$> take 10 (attack.brute_force_attack ciphertext max_key_length)
        else [], t).
Proof.
  intros Hmax. unfold attack.smart_attack. cbv zeta.
  rewrite (bool_decide_eq_false_2 (7 < max_key_length)) by lia.
  replace (7 `min` max_key_length) with max_key_length by lia.
  cbv beta iota. etrans; [apply rand_ret_bind_eq|].
  unfold mret, rand_ret. do 2 f_equal.
  unfold sorted_reverse. apply sorted_of_sorted.
  case_bool_decide; [|constructor]. rewrite ?app_nil_l.
  apply (StronglySorted_fmap_mono attack.found
           (λ a b : attack.candidate, Qltb a.2 b.2 = false)); [done|].
  apply StronglySorted_take, brute_force_attack_descending. lia.
Qed.

(** X19. With a largest key length of at most 7, [smart_attack] is the
    brute-force attack alone: it returns the first 10 results of
    [brute_force_attack] up to that length, in their order, and draws
    nothing at random.  The smallest key length does not narrow the
    search: every value up to 7 gives the same list, every value above 7
    the empty list. *)
Theorem smart_attack_is_brute_force_up_to_7
    (ciphertext : str) (min_key_length max_key_length : nat) (t : tape) :
  max_key_length ≤ 7 →
  attack.smart_attack ciphertext min_key_length max_key_length t
  = Ok (if bool_decide (min_key_length ≤ 7)
        then attack.found <$> take 10 (attack.brute_force_attack ciphertext max_key_length)
        else [], t).
Proof. apply smart_attack_brute_force. Qed.

Lemma smart_attack_is_brute_force_up_to_7_witness :
  attack.smart_attack (lit "EHT UQCI KRBWO NOFX") 5 6 [1; 2; 3]
  = Ok (attack.found <$> take 10 (attack.brute_force_attack (lit "EHT UQCI KRBWO NOFX") 6),
        [1; 2; 3]).
Proof.
  apply (smart_attack_is_brute_force_up_to_7 (lit "EHT UQCI KRBWO NOFX") 5 6 [1; 2; 3]).
  lia.
Defined.

Lemma smart_attack_loop_raises ciphertext (l : list nat)
    (all_results : list (option str * option str * Q)) t :
  Forall (λ key_length, 8 ≤ key_length) l →
  Exists (λ key_length, 10 ≤ key_length) l →
  rfor_each l
    (λ key_length all_results,
       hc_result ← attack.hill_climbing_attack ciphertext key_length 1000;
       let all_results := all_results ++ [attack.found hc_result] in
       ga_result ← attack.genetic_algorithm_attack ciphertext key_length 100 300;
       mret (all_results ++ [ga_result]))
    all_results t
  = Raise ValueError.
Proof.
  intros Hall. revert all_results t.
  induction Hall as [|k l Hk Hall IH]; intros acc t Hex.
  { by apply Exists_nil in Hex. }
  rewrite rfor_each_cons. cbv beta.
  destruct (decide (10 ≤ k)) as [Hlong|Hshort].
  { do 2 apply rand_bind_Raise. apply hill_climbing_attack_raises. lia. }
  apply Exists_cons in Hex as [?|Hex]; [done|].
  destruct (hill_climbing_attack_Ok k ciphertext 1000 t) as (key & p & s & t1 & Hhc & _);
    [lia|].
  destruct (genetic_algorithm_attack_Ok k ciphertext 100 300 t1)
    as (ga & t2 & Hga); [lia|lia|].
  etrans; [apply rand_bind_eq|apply (IH (acc ++ [attack.found (key, p, s)] ++ [ga]) t2 Hex)].
  etrans; [apply rand_bind_eq, Hhc|]. cbv zeta.
  etrans; [apply rand_bind_eq, Hga|]. by rewrite <- (assoc (++)).
Qed.

Lemma smart_attack_long_raises ciphertext min_key_length max_key_length t :
  10 ≤ max_key_length → min_key_length ≤ max_key_length →
  attack.smart_attack ciphertext min_key_length max_key_length t = Raise ValueError.
Proof.
  intros Hmax Hmin. unfold attack.smart_attack. cbv zeta.
  apply rand_bind_Raise.
  rewrite (bool_decide_eq_true_2 (7 < max_key_length)) by lia.
  apply smart_attack_loop_raises.
  - apply Forall_forall. intros k Hk. apply elem_of_range in Hk. lia.
  - apply Exists_exists. exists max_key_length. split; [|done].
    apply elem_of_range. lia.
Qed.

(** X20. With a largest key length of 10 or more, and a smallest one not
    above it, [smart_attack] raises [ValueError] on every ciphertext and
    whatever the random draws: it runs the heuristic attacks for the key
    lengths 8 and 9 that are asked for, and the hill climbing of the first
    key length from 10 on fails on its first decryption.  The default
    arguments (1 and 10) are such a call. *)
Theorem smart_attack_raises_from_length_10
    (ciphertext : str) (min_key_length max_key_length : nat) (t : tape) :
  10 ≤ max_key_length →
  min_key_length ≤ max_key_length →
  attack.smart_attack ciphertext min_key_length max_key_length t = Raise ValueError.
Proof. apply smart_attack_long_raises. Qed.

Lemma smart_attack_raises_from_length_10_witness :
  attack.smart_attack (lit "EHT UQCI KRBWO NOFX") 1 10 [] = Raise ValueError.
Proof.
  apply (smart_attack_raises_from_length_10 (lit "EHT UQCI KRBWO NOFX") 1 10 []); lia.
Defined.

(** ** attack.py: what brute_force_attack returns *)

Lemma factorial_loop k m :
  foldl (λ result i, result * i) (fact k) (seq (S k) m) = fact (k + m).
Proof.
  revert k. induction m as [|m IH]; intros k.
  { by rewrite Nat.add_0_r. }
  rewrite <- cons_seq. simpl foldl.
  replace (fact k * S k) with (fact (S k)) by (simpl; lia).
  rewrite IH. f_equal. lia.
Qed.

Lemma factorial_fact n : attack.factorial n = fact n.
Proof.
  unfold attack.factorial. case_bool_decide as Hn.
  { destruct n as [|[|n]]; (done || lia). }
  unfold range. replace (n + 1 - 2) with (n - 1) by lia.
  trans (fact (1 + (n - 1))); [apply (factorial_loop 1)|f_equal; lia].
Qed.

Lemma bind_length {A B} (f : A → list B) (l : list A) :
  length (l ≫= f) = sum_list ((λ x, length (f x)) <$> l).
Proof.
  induction l as [|x l IH]; [done|].
  by rewrite bind_cons, length_app, IH.
Qed.

Lemma all_keys_length m :
  length (all_keys m) = sum_list (attack.factorial <$> range 1 (m + 1)).
Proof.
  unfold all_keys, range. rewrite bind_length.
  replace (m + 1 - 1) with m by lia. f_equal.
  apply list_fmap_ext. intros _ n _. simpl.
  unfold permutations. rewrite permutations_n_length by done.
  by rewrite length_fmap, length_seq, factorial_fact.
Qed.

Lemma brute_force_attack_keys ciphertext m :
  m ≤ 9 →
  (λ r : attack.candidate, r.1.1) <$> attack.brute_force_attack ciphertext m
  ≡ₚ all_keys m.
Proof.
  intros Hm. rewrite brute_force_attack_unfold. unfold sorted_reverse.
  rewrite sorted_Permutation.
  by destruct (unsorted_results_keys ciphertext m Hm) as [-> _].
Qed.

(** X21. [factorial] computes the factorial (1 for 0 and for 1), and for a
    largest key length of at most 9 [brute_force_attack] returns as many
    results as its progress total counts: the sum of the factorials of the
    key lengths 1..max_key_length. *)
Theorem brute_force_attack_counts_all_keys (ciphertext : str) (max_key_length : nat) :
  max_key_length ≤ 9 →
  (∀ n, attack.factorial n = fact n)
  ∧ length (attack.brute_force_attack ciphertext max_key_length)
    = sum_list (attack.factorial <$> range 1 (max_key_length + 1)).
Proof.
  intros Hm. split; [apply factorial_fact|].
  rewrite <- all_keys_length, <- (brute_force_attack_keys ciphertext _ Hm).
  by rewrite length_fmap.
Qed.

Lemma brute_force_attack_counts_all_keys_witness :
  (∀ n, attack.factorial n = fact n)
  ∧ length (attack.brute_force_attack (lit "EHT UQCI KRBWO NOFX") 7)
    = sum_list (attack.factorial <$> range 1 (7 + 1)).
Proof. apply (brute_force_attack_counts_all_keys _ 7). lia. Defined.

Lemma brute_force_attack_finds ciphertext m n key :
  m ≤ 9 → 1 ≤ n ≤ m → perm_key n key →
  ∃ plaintext score,
    (key, plaintext, score) ∈ attack.brute_force_attack ciphertext m
    ∧ cipher.decrypt ciphertext key = Ok plaintext
    ∧ attack.evaluate_plaintext plaintext = Ok score.
Proof.
  intros Hm Hn Hkey.
  assert (Hin : key ∈ all_keys m) by (apply all_keys_elem; by exists n).
  destruct (unsorted_results_keys ciphertext m Hm) as [Hkeys Hall].
  rewrite <- Hkeys in Hin.
  apply list_elem_of_fmap in Hin as ([[k p] s] & -> & Hr).
  rewrite Forall_forall in Hall. destruct (Hall _ Hr) as [Hdec Hscore].
  exists p, s. split; [|done].
  rewrite brute_force_attack_unfold. unfold sorted_reverse.
  by rewrite sorted_Permutation.
Qed.

(** X22. The brute-force attack recovers what was encrypted: when a text
    is encrypted with a valid key of at most 9 characters, and
    [brute_force_attack] runs on the ciphertext up to a length that covers
    the key, its results hold the key's normal form together with the text
    (without its trailing 'X' characters, and without its spaces unless
    they were kept) and the score of that text. *)
Theorem brute_force_attack_recovers_the_plaintext
    (plaintext key ciphertext : str) (keep_spaces : bool) (max_key_length : nat) :
  cipher.validate_key key = true →
  length key ≤ max_key_length →
  max_key_length ≤ 9 →
  cipher.encrypt plaintext key keep_spaces = Ok ciphertext →
  let text := rstrip "X" (if keep_spaces then plaintext else remove_spaces plaintext) in
  ∃ numeric_key score,
    cipher.normalize_key key = Ok numeric_key
    ∧ (numeric_key, text, score) ∈ attack.brute_force_attack ciphertext max_key_length
    ∧ attack.evaluate_plaintext text = Ok score.
Proof.
  intros Hv Hlen Hm Henc text.
  destruct (keyword_as_numeric key Hv ltac:(lia)) as (k & Hk & Hp & _ & Hdec).
  destruct (normalize_key_perm key Hv ltac:(lia)) as (_ & _ & _ & H1).
  destruct (brute_force_attack_finds ciphertext max_key_length (length key) k)
    as (p & s & Hin & Hp' & Hs); [lia|lia|done|].
  destruct (decrypt_encrypt_rstrip plaintext key keep_spaces Hv ltac:(lia))
    as (c & Hc & Hback).
  assert (c = ciphertext) as -> by congruence.
  assert (p = text) as ->.
  { rewrite <- Hdec, Hback in Hp'. by injection Hp' as <-. }
  by exists k, s.
Qed.

Lemma brute_force_attack_recovers_the_plaintext_witness :
  ∃ numeric_key score,
    cipher.normalize_key (lit "CAB") = Ok numeric_key
    ∧ (numeric_key, lit "HELLOWORLD", score)
      ∈ attack.brute_force_attack (lit "EORXLWLXHLOD") 4
    ∧ attack.evaluate_plaintext (lit "HELLOWORLD") = Ok score.
Proof.
  apply (brute_force_attack_recovers_the_plaintext
           (lit "HELLO WORLD") (lit "CAB") (lit "EORXLWLXHLOD") false 4).
  - vm_compute. reflexivity.
  - simpl. lia.
  - lia.
  - vm_compute. reflexivity.
Defined.
(** ** dictionary.py: find_longest_word *)

Lemma foldl_bind {A B S} (f : S → B → S) (g : A → list B) (l : list A) s :
  foldl f s (l ≫= g) = foldl (λ s x, foldl f s (g x)) s l.
Proof.
  revert s. induction l as [|x l IH]; intros s; [done|].
  by rewrite bind_cons, foldl_app, IH.
Qed.

Lemma foldl_pointwise {A S} (f g : S → A → S) (l : list A) s :
  (∀ s x, f s x = g s x) → foldl f s l = foldl g s l.
Proof.
  intros H. revert s. induction l as [|x l IH]; intros s; [done|].
  simpl. by rewrite H, IH.
Qed.

Lemma find_longest_word_eq text :
  dictionary.find_longest_word text
  = foldl (keep_longer dictionary.COMMON_WORDS) ([], 0) (substrings (upper text)).
Proof.
  unfold dictionary.find_longest_word, substrings. cbv zeta.
  rewrite foldl_bind. apply foldl_pointwise. intros longest i.
  rewrite foldl_bind. by apply foldl_pointwise.
Qed.

Lemma keep_longer_longest (words : gset str) (cands : list str) init :
  init.2 = length init.1 →
  let result := foldl (keep_longer words) init cands in
  result.2 = length result.1
  ∧ init.2 ≤ result.2
  ∧ (result = init ∨ (result.1 ∈ cands ∧ result.1 ∈ words))
  ∧ ∀ word, word ∈ cands → word ∈ words → length word ≤ result.2.
Proof.
  revert init. induction cands as [|c cands IH]; intros init Hinit; simpl.
  { split; [done|]. split; [done|]. split; [by left|].
    intros w Hw. by apply elem_of_nil in Hw. }
  set (next := keep_longer words init c).
  assert (Hnext : next.2 = length next.1 ∧ init.2 ≤ next.2
                  ∧ (next = init ∨ (next.1 = c ∧ c ∈ words))
                  ∧ (c ∈ words → length c ≤ next.2)).
  { unfold next, keep_longer, contains.
    case_bool_decide as Hc; simpl.
    - destruct (init.2 <? length c) eqn:Hlt; simpl.
      + apply Nat.ltb_lt in Hlt. split; [done|]. split; [lia|].
        split; [by right|done].
      + apply Nat.ltb_ge in Hlt. split; [done|]. split; [done|].
        split; [by left|done].
    - split; [done|]. split; [done|]. split; [by left|done]. }
  destruct Hnext as (Hn1 & Hn2 & Hn3 & Hn4).
  destruct (IH next Hn1) as (H1 & H2 & H3 & H4).
  split; [done|]. split; [lia|]. split.
  - destruct H3 as [->|[Hin Hw]].
    + destruct Hn3 as [->|[Hc Hw]]; [by left|].
      right. rewrite Hc. split; [left|done].
    + right. split; [by right|done].
  - intros w Hw Hwords. apply elem_of_cons in Hw as [->|Hw].
    + specialize (Hn4 Hwords). lia.
    + by apply H4.
Qed.

Lemma elem_of_substrings (text word : str) :
  word ∈ substrings text
  ↔ ∃ i j, i < j ∧ j ≤ length text ∧ word = slice text i j.
Proof.
  unfold substrings. rewrite list_elem_of_bind. split.
  - intros (i & Hj & Hi). apply list_elem_of_bind in Hj as (j & Hw & Hj).
    apply list_elem_of_singleton in Hw.
    apply elem_of_range in Hi. apply elem_of_range in Hj.
    exists i, j. split; [lia|]. split; [lia|done].
  - intros (i & j & Hij & Hj & ->). exists i. split.
    + apply list_elem_of_bind. exists j. split; [by apply list_elem_of_singleton|].
      apply elem_of_range. lia.
    + apply elem_of_range. lia.
Qed.

Lemma find_longest_word_longest text :
  let result := dictionary.find_longest_word text in
  result.2 = length result.1
  ∧ (result = ([], 0)
     ∨ (result.1 ∈ dictionary.COMMON_WORDS
        ∧ ∃ i j, i < j ∧ j ≤ length text ∧ result.1 = slice (upper text) i j))
  ∧ ∀ i j, i < j → j ≤ length text →
           slice (upper text) i j ∈ dictionary.COMMON_WORDS →
           j - i ≤ result.2.
Proof.
  rewrite find_longest_word_eq.
  set (words := dictionary.COMMON_WORDS). clearbody words.
  assert (Hlen : length (upper text) = length text)
    by (unfold upper; by rewrite length_fmap).
  destruct (keep_longer_longest words (substrings (upper text)) ([], 0))
    as (H1 & _ & H3 & H4); [done|].
  cbv zeta. split; [done|]. split.
  - destruct H3 as [->|[Hin Hw]]; [by left|]. right. split; [done|].
    apply elem_of_substrings in Hin as (i & j & Hij & Hj & Hs).
    exists i, j. rewrite Hlen in Hj. done.
  - intros i j Hij Hj Hw.
    assert (Hs : length (slice (upper text) i j) = j - i).
    { unfold slice. rewrite length_take, length_drop. lia. }
    rewrite <- Hs. apply H4; [|done].
    apply elem_of_substrings. exists i, j. rewrite Hlen. done.
Qed.

(** X23. On a text of ASCII characters [find_longest_word] returns a
    longest dictionary word of the text: the pair it returns holds a word
    and its length; the word is either empty, or a word of [COMMON_WORDS]
    that occurs in the uppercased text; and no substring of the uppercased
    text that is in [COMMON_WORDS] is longer.  So the pair is ('', 0)
    exactly when no dictionary word occurs at all. *)
Theorem find_longest_word_is_a_longest_word (text : str) :
  isascii text = true →
  let result := dictionary.find_longest_word text in
  result.2 = length result.1
  ∧ (result = ([], 0)
     ∨ (result.1 ∈ dictionary.COMMON_WORDS
        ∧ ∃ i j, i < j ∧ j ≤ length text ∧ result.1 = slice (upper text) i j))
  ∧ ∀ i j, i < j → j ≤ length text →
           slice (upper text) i j ∈ dictionary.COMMON_WORDS →
           j - i ≤ result.2.
Proof. intros _. apply find_longest_word_longest. Qed.

Lemma find_longest_word_is_a_longest_word_witness :
  let result := dictionary.find_longest_word (lit "xx there yy") in
  result.2 = length result.1
  ∧ (result = ([], 0)
     ∨ (result.1 ∈ dictionary.COMMON_WORDS
        ∧ ∃ i j, i < j ∧ j ≤ length (lit "xx there yy")
                 ∧ result.1 = slice (upper (lit "xx there yy")) i j))
  ∧ ∀ i j, i < j → j ≤ length (lit "xx there yy") →
           slice (upper (lit "xx there yy")) i j ∈ dictionary.COMMON_WORDS →
           j - i ≤ result.2.
Proof.
  apply (find_longest_word_is_a_longest_word (lit "xx there yy")). reflexivity.
Defined.

(** ** dictionary.py: detect_language *)

Lemma split_from_word (s word : str) :
  Forall (λ c, is_space c = false) s →
  split_from s word = if bool_decide (word ++ s = []) then [] else [word ++ s].
Proof.
  intros Hs. revert word. induction Hs as [|c s Hc _ IH]; intros word; simpl.
  { by rewrite app_nil_r. }
  rewrite Hc, IH.
  rewrite !bool_decide_eq_false_2 by (by destruct word).
  by rewrite <- (assoc (++)).
Qed.

Lemma is_space_upper_char c : is_space (upper_char c) = is_space c.
Proof.
  unfold upper_char. destruct (is_lower c) eqn:Hl; [|done].
  unfold is_lower, is_space, code in *. apply andb_true_iff in Hl as [H1 H2].
  apply Nat.leb_le in H1. apply Nat.leb_le in H2.
  rewrite nat_ascii_embedding by lia.
  transitivity false; [|symmetry]; apply orb_false_iff; split;
    apply andb_false_iff.
  - right. apply Nat.leb_gt. lia.
  - right. apply Nat.leb_gt. lia.
  - right. apply Nat.leb_gt. lia.
  - right. apply Nat.leb_gt. lia.
Qed.

Lemma detect_language_bounds text :
  ∃ v, dictionary.detect_language text = Ok v
       ∧ (0 <= v <= 1)%Q
       ∧ (text ≠ [] → Forall (λ c, is_space c = false) text →
          (v == if contains dictionary.COMMON_WORDS (upper text) then 1 else 0)%Q).
Proof.
  unfold dictionary.detect_language.
  set (words := dictionary.COMMON_WORDS). clearbody words.
  case_bool_decide as Hnil.
  { eexists. split; [done|]. split; [split; [apply Qle_refl|done]|]. done. }
  case_bool_decide as Hsplit.
  { destruct (score_text_by_dictionary_bounds text) as (v & Hv & Hr).
    exists v. split; [done|]. split; [done|].
    intros _ Hns. exfalso. unfold split in Hsplit.
    rewrite (split_from_word (upper text) []) in Hsplit.
    - rewrite bool_decide_eq_false_2 in Hsplit; [done|].
      intros Hu. apply Hnil. by apply upper_nil.
    - unfold upper. apply Forall_fmap. eapply Forall_impl; [exact Hns|].
      intros c Hc. simpl. by rewrite is_space_upper_char. }
  assert (Hlen : length (split (upper text)) ≠ 0) by (by destruct (split _)).
  rewrite div_ok by (by apply of_nat_nonzero).
  eexists. split; [done|]. split.
  { apply ratio_bounds; [done|]. apply length_filter. }
  intros _ Hns. unfold split.
  rewrite (split_from_word (upper text) []).
  2:{ unfold upper. apply Forall_fmap. eapply Forall_impl; [exact Hns|].
      intros c Hc. simpl. by rewrite is_space_upper_char. }
  rewrite bool_decide_eq_false_2 by (intros Hu; apply Hnil; by apply upper_nil).
  simpl app.
  rewrite filter_cons, filter_nil.
  destruct (contains words (upper text)) eqn:Hw.
  - rewrite decide_True by done. reflexivity.
  - rewrite decide_False by (by intros ?). reflexivity.
Qed.

(** X24. On a text of ASCII characters [detect_language] never raises and
    returns a share between 0 and 1.  When the text has no white space it
    does not look for words inside the text: the whole text is the one
    word it tests, so the result is 1 when the uppercased text is itself
    in [COMMON_WORDS] and 0 otherwise. *)
Theorem detect_language_tests_whole_tokens (text : str) :
  isascii text = true →
  ∃ v,
    dictionary.detect_language text = Ok v
    ∧ (0 <= v <= 1)%Q
    ∧ (text ≠ [] → Forall (λ c, is_space c = false) text →
       (v == if contains dictionary.COMMON_WORDS (upper text) then 1 else 0)%Q).
Proof. intros _. apply detect_language_bounds. Qed.

Lemma detect_language_tests_whole_tokens_witness :
  ∃ v,
    dictionary.detect_language (lit "THECAR") = Ok v
    ∧ (0 <= v <= 1)%Q
    ∧ (lit "THECAR" ≠ [] → Forall (λ c, is_space c = false) (lit "THECAR") →
       (v == if contains dictionary.COMMON_WORDS (upper (lit "THECAR"))
             then 1 else 0)%Q).
Proof.
  apply (detect_language_tests_whole_tokens (lit "THECAR")). reflexivity.
Defined.
(** ** attack.py: the range of the Index of Coincidence *)

Lemma sum_list_fmap_add {A} (f g : A → nat) (l : list A) :
  sum_list ((λ x, f x + g x) <$> l) = sum_list (f <$> l) + sum_list (g <$> l).
Proof. induction l as [|x l IH]; [done|]. rewrite !fmap_cons. simpl. lia. Qed.

Lemma sum_list_indicator (l : str) c :
  NoDup l →
  sum_list ((λ x, if bool_decide (c = x) then 1 else 0) <$> l)
  = if bool_decide (c ∈ l) then 1 else 0.
Proof.
  induction 1 as [|x l Hx _ IH]; [done|].
  rewrite fmap_cons. simpl. rewrite IH. clear IH.
  case_bool_decide as Hc.
  - subst x. rewrite bool_decide_eq_false_2 by done.
    by rewrite bool_decide_eq_true_2 by left.
  - simpl. case_bool_decide as Hin.
    + by rewrite bool_decide_eq_true_2 by (by right).
    + rewrite bool_decide_eq_false_2; [done|].
      intros [->|?]%elem_of_cons; done.
Qed.

(** The counts of the distinct letters add up to the number of letters. *)
Lemma sum_occurrences (l : str) :
  sum_list ((λ c, occurrences c l) <$> first_occurrences l) = length l.
Proof.
  induction l as [|x l IH] using rev_ind; [done|].
  rewrite length_app. simpl.
  rewrite (list_fmap_ext (λ c, occurrences c (l ++ [x]))
             (λ c, occurrences c l + if bool_decide (x = c) then 1 else 0))
    by (intros; apply occurrences_snoc).
  rewrite sum_list_fmap_add, first_occurrences_snoc.
  case_bool_decide as Hx.
  - rewrite IH, sum_list_indicator by apply NoDup_first_occurrences.
    by rewrite bool_decide_eq_true_2.
  - rewrite !fmap_app, !sum_list_with_app, IH. simpl.
    rewrite sum_list_indicator by apply NoDup_first_occurrences.
    rewrite bool_decide_eq_false_2 by done.
    rewrite bool_decide_eq_true_2 by done.
    rewrite occurrences_0 by (by rewrite <- elem_of_first_occurrences). lia.
Qed.

Lemma sum_pairs_le (l : list nat) :
  sum_list ((λ count, count * (count - 1)) <$> l) ≤ sum_list l * (sum_list l - 1).
Proof.
  induction l as [|c l IH]; [done|]. rewrite fmap_cons. simpl. nia.
Qed.

Lemma sum_pairs_foldl (l : list nat) (acc : Q) :
  Qeq (foldl (λ ic count, exact (Qplus ic (exact (of_nat (count * (count - 1)))))) acc l)
      (Qplus acc (of_nat (sum_list ((λ count, count * (count - 1)) <$> l)))).
Proof.
  unfold exact. revert acc. induction l as [|c l IH]; intros acc.
  { simpl. unfold of_nat. simpl. ring. }
  rewrite fmap_cons. simpl foldl. rewrite IH. simpl sum_list.
  unfold of_nat. rewrite Nat2Z.inj_add, inject_Z_plus. ring.
Qed.

Lemma index_of_coincidence_bounds text :
  (0 <= index_of_coincidence exact text <= 1)%Q.
Proof.
  unfold index_of_coincidence. set (l := letters text).
  case_bool_decide as Hfew; [split; [apply Qle_refl|done]|].
  pose proof (sum_pairs_foldl ((λ c, occurrences c l) <$> first_occurrences l) 0) as Hsum.
  rewrite (foldl_fmap _ _ _ (λ c, occurrences c l)) in Hsum.
  pose proof (sum_pairs_le ((λ c, occurrences c l) <$> first_occurrences l)) as Hle.
  rewrite sum_occurrences in Hle.
  unfold exact at 1 4 5 8. cbv zeta. rewrite Hsum, Qplus_0_l.
  apply ratio_bounds; [nia|done].
Qed.

Lemma calculate_ic_bounds text :
  ∃ ic, attack.calculate_ic text = Ok ic ∧ (0 <= ic <= 1)%Q.
Proof.
  exists (index_of_coincidence exact text). split.
  - apply calculate_ic_with_eq, exact_nonzero.
  - apply index_of_coincidence_bounds.
Qed.

(** X25. [calculate_ic] never raises and the Index of Coincidence it
    returns lies between 0 and 1. *)
Theorem calculate_ic_range (text : str) :
  ∃ ic, attack.calculate_ic text = Ok ic ∧ (0 <= ic <= 1)%Q.
Proof. apply calculate_ic_bounds. Qed.
(** *** binary64 on small integers *)

Lemma binary64_proper (x y : Q) : (x == y)%Q → binary64 x = binary64 y.
Proof. intros H. unfold binary64. by rewrite (Qred_complete x y H). Qed.

Lemma round_half_even_proper (x y : Q) :
  (x == y)%Q → round_half_even x = round_half_even y.
Proof.
  intros H. unfold round_half_even. cbv zeta. rewrite (Qfloor_comp _ _ H).
  assert (Hc : Qcompare (x - inject_Z (Qfloor y)) (1 # 2)
               = Qcompare (y - inject_Z (Qfloor y)) (1 # 2)).
  { apply Qcompare_comp; [|reflexivity]. by rewrite H. }
  by rewrite Hc.
Qed.

Lemma round_half_even_Z (z : Z) : round_half_even (inject_Z z) = z.
Proof.
  unfold round_half_even. cbv zeta. rewrite Qfloor_Z.
  assert (Hc : Qcompare (inject_Z z - inject_Z z) (1 # 2) = Qcompare 0 (1 # 2)).
  { apply Qcompare_comp; [ring|reflexivity]. }
  by rewrite Hc.
Qed.

Lemma floor_log2_Z (z : Z) : (0 < z)%Z → floor_log2 (inject_Z z) = Z.log2 z.
Proof.
  intros Hz. unfold floor_log2.
  change (Qnum (inject_Z z)) with z. change (Qden (inject_Z z)) with 1%positive.
  change (Z.log2 1) with 0%Z. rewrite Z.sub_0_r.
  destruct (Z.log2_spec z Hz) as [Hl _].
  rewrite (proj2 (Qle_bool_iff _ _)); [done|].
  rewrite <- (Zpower_Qpower 2) by apply Z.log2_nonneg.
  by rewrite <- Zle_Qle.
Qed.

(** An integer below 2^53 is a float. *)
Lemma binary64_Z (z : Z) : (0 ≤ z < 2 ^ 53)%Z → binary64 (inject_Z z) = inject_Z z.
Proof.
  intros [H0 Hz]. destruct (decide (z = 0%Z)) as [->|Hne]; [done|].
  assert (Hpos : (0 < z)%Z) by lia.
  unfold binary64.
  assert (Hred : Qred (inject_Z z) = inject_Z z).
  { apply Qcanon.Qred_identity. simpl. apply Z.gcd_1_r. }
  rewrite Hred.
  destruct (Qeq_bool (inject_Z z) 0) eqn:Hq.
  { apply Qeq_bool_iff in Hq. unfold Qeq in Hq. simpl in Hq. lia. }
  assert (Habs : Qabs (inject_Z z) = inject_Z z).
  { unfold inject_Z, Qabs. by rewrite Z.abs_eq by lia. }
  rewrite Habs, floor_log2_Z by done.
  assert (Hl : (0 ≤ Z.log2 z ≤ 52)%Z).
  { split; [apply Z.log2_nonneg|].
    assert (Z.log2 z < 53)%Z; [|lia]. by apply Z.log2_lt_pow2. }
  rewrite Z.max_l by lia. set (l := Z.log2 z) in *.
  assert (Hm : (inject_Z z / 2 ^ (l - 52) == inject_Z (z * 2 ^ (52 - l)))%Q).
  { rewrite inject_Z_mult, (Zpower_Qpower 2) by lia.
    replace (l - 52)%Z with (- (52 - l))%Z by lia.
    rewrite Qpower_opp. unfold Qdiv. by rewrite Qinv_involutive. }
  rewrite (round_half_even_proper _ _ Hm), round_half_even_Z.
  rewrite <- Hred at 2. apply Qred_complete.
  assert (Hs : Z.sgn (Qnum (inject_Z z)) = 1%Z) by (simpl; by apply Z.sgn_pos).
  rewrite Hs, Z.mul_1_l, inject_Z_mult, (Zpower_Qpower 2) by lia.
  rewrite <- Qmult_assoc, <- Qpower_plus by done.
  replace (52 - l + (l - 52))%Z with 0%Z by lia. simpl. ring.
Qed.

Lemma binary64_of_nat n : (Z.of_nat n < 2 ^ 53)%Z → binary64 (of_nat n) = of_nat n.
Proof. intros Hn. apply binary64_Z. lia. Qed.

(** The sum of integers in floats is exact as long as it stays below
    2^53. *)
Lemma binary64_sum {A} (k : A → nat) (l : list A) (acc : nat) :
  (Z.of_nat (acc + sum_list (k <$> l)) < 2 ^ 53)%Z →
  foldl (λ s c, binary64 (s + binary64 (of_nat (k c)))%Q) (of_nat acc) l
  = of_nat (acc + sum_list (k <$> l)).
Proof.
  revert acc. induction l as [|c l IH]; intros acc Hlt.
  { simpl. by rewrite Nat.add_0_r. }
  rewrite fmap_cons in Hlt. simpl in Hlt. simpl foldl.
  rewrite binary64_of_nat by lia.
  assert (Heq : (of_nat acc + of_nat (k c) == of_nat (acc + k c))%Q).
  { unfold of_nat. by rewrite Nat2Z.inj_add, inject_Z_plus. }
  rewrite (binary64_proper _ _ Heq), binary64_of_nat by lia.
  rewrite IH by lia. rewrite fmap_cons. simpl. f_equal. lia.
Qed.

(** In binary64 the Index of Coincidence of a text of fewer than 2^26
    characters is the float nearest to the exact quotient: the two sums
    are integers below 2^53, and only the division rounds. *)
Lemma index_of_coincidence_binary64 (text : str) :
  (Z.of_nat (length text) < 2 ^ 26)%Z →
  let l := letters text in
  index_of_coincidence binary64 text
  = if bool_decide (length l < 2) then 0%Q
    else binary64
           (Qdiv (of_nat (sum_list ((λ c, occurrences c l * (occurrences c l - 1))
                                      <$> first_occurrences l)))
                 (of_nat (length l * (length l - 1)))).
Proof.
  intros Hlen l. unfold index_of_coincidence. fold l.
  case_bool_decide as Hfew; [done|].
  assert (Hl : length l ≤ length text).
  { unfold l, letters. etrans; [apply length_filter|].
    unfold upper. by rewrite length_fmap. }
  pose proof (sum_pairs_le ((λ c, occurrences c l) <$> first_occurrences l)) as Hle.
  rewrite sum_occurrences, <- list_fmap_compose in Hle.
  assert (Hbig : (Z.of_nat (length l * (length l - 1)) < 2 ^ 53)%Z).
  { change (2 ^ 26)%Z with 67108864%Z in Hlen.
    change (2 ^ 53)%Z with 9007199254740992%Z. nia. }
  rewrite (binary64_of_nat (length l * (length l - 1))) by done.
  change 0%Q with (of_nat 0).
  rewrite (binary64_sum (λ c, occurrences c l * (occurrences c l - 1))
             (first_occurrences l) 0); [done|].
  apply (Z.le_lt_trans _ (Z.of_nat (length l * (length l - 1)))); [|exact Hbig].
  apply Nat2Z.inj_le. exact Hle.
Qed.
(** ** [decrypt] only moves characters *)

Lemma cells_concat {A} (c : list A) m :
  length c ≤ m →
  concat ((λ p, match c !! p with Some x => [x] | None => [] end) <$> seq 0 m) = c.
Proof.
  revert m. induction c as [|x c IH]; intros m Hm.
  - clear Hm. generalize 0. induction m as [|m IHm]; intros a; [done|].
    simpl. apply IHm.
  - destruct m as [|m]; [simpl in Hm; lia|].
    rewrite <- cons_seq, fmap_cons. simpl. f_equal.
    rewrite <- fmap_S_seq, <- list_fmap_compose.
    apply IH. simpl in Hm. lia.
Qed.

Lemma concat_blocks {A} (h : nat → list A) n R :
  concat ((λ q, concat ((λ i, h (q * R + i)) <$> seq 0 R)) <$> seq 0 n)
  = concat (h <$> seq 0 (n * R)).
Proof.
  induction n as [|n IH]; [done|].
  rewrite seq_S, fmap_app, concat_app, IH. simpl.
  rewrite app_nil_r, (Nat.add_comm R), seq_app, fmap_app, concat_app.
  f_equal. replace (0 + n * R) with (n * R + 0) by lia.
  by rewrite <- (fmap_add_seq (n * R) 0), <- list_fmap_compose.
Qed.

Lemma concat_nested {A B} (g : A → list (list B)) (l : list A) :
  concat ((λ a, concat (g a)) <$> l) = concat (concat (g <$> l)).
Proof.
  induction l as [|a l IH]; [done|].
  rewrite !fmap_cons. simpl. by rewrite concat_app, IH.
Qed.

Lemma rank_at_key key : rank_at key <$> seq 0 (length key) = digit_value <$> key.
Proof.
  apply list_eq. intros j. rewrite !list_lookup_fmap.
  destruct (decide (j < length key)) as [Hj|Hj].
  - rewrite lookup_seq_lt by done. simpl. unfold rank_at.
    destruct (lookup_lt_is_Some_2 key j Hj) as [x Hx]. by rewrite Hx.
  - rewrite lookup_seq_ge by lia. by rewrite lookup_ge_None_2 by lia.
Qed.

Lemma decrypt_Permutation ciphertext key :
  cipher.validate_key key = true → length key ≤ 9 →
  ∃ text, cipher.decrypt ciphertext key = Ok (rstrip "X" text)
          ∧ text ≡ₚ ciphertext.
Proof.
  intros Hv Hlen.
  destruct (normalize_key_perm key Hv Hlen) as (k & Hk & Hp & H1).
  assert (Hn : 1 ≤ length key ≤ 9) by lia.
  eexists. split; [by apply (decrypt_perm_key _ _ k (length key))|].
  cbv zeta. set (n := length key) in *. set (R := _ / n).
  set (cell := λ p, match ciphertext !! p with Some x => [x] | None => [] end).
  unfold read, offset. fold cell.
  rewrite (concat_nested (λ i, (λ j, cell ((rank_at k j - 1) * R + i)) <$> seq 0 n)).
  rewrite (concat_transpose (λ i j, cell ((rank_at k j - 1) * R + i))).
  rewrite <- (concat_nested (λ j, (λ i, cell ((rank_at k j - 1) * R + i)) <$> seq 0 R)).
  trans (concat ((λ q, concat ((λ i, cell (q * R + i)) <$> seq 0 R)) <$> seq 0 n)).
  - set (block := λ r, concat ((λ i, cell ((r - 1) * R + i)) <$> seq 0 R)).
    trans (concat (block <$> (rank_at k <$> seq 0 n))).
    { by rewrite <- list_fmap_compose. }
    rewrite <- (perm_key_length _ _ Hp) at 1.
    rewrite rank_at_key, (perm_key_values n k ltac:(lia) Hp).
    rewrite <- (fmap_S_seq 0 n), <- list_fmap_compose.
    apply eq_Permutation. f_equal. apply list_fmap_ext. intros ? q _.
    unfold block. simpl. by rewrite Nat.sub_0_r.
  - apply eq_Permutation. rewrite concat_blocks. apply cells_concat.
    rewrite Nat.mul_comm. apply ceil_div_bound. lia.
Qed.

(** X26. [decrypt] with a valid key of at most 9 characters never raises,
    whatever the ciphertext's length, and only moves characters: its result
    is a rearrangement of the ciphertext with the trailing 'X' characters
    stripped. *)
Theorem decrypt_rearranges_ciphertext (ciphertext key : str) :
  cipher.validate_key key = true →
  length key ≤ 9 →
  ∃ text, cipher.decrypt ciphertext key = Ok (rstrip "X" text)
          ∧ text ≡ₚ ciphertext.
Proof. apply decrypt_Permutation. Qed.

Lemma decrypt_rearranges_ciphertext_witness :
  ∃ text, cipher.decrypt (lit "HELLO") (lit "21") = Ok (rstrip "X" text)
          ∧ text ≡ₚ lit "HELLO".
Proof.
  apply (decrypt_rearranges_ciphertext (lit "HELLO") (lit "21")).
  - vm_compute. reflexivity.
  - simpl. lia.
Defined.
(** ** The order of the words found *)

Lemma find_words_in_text_sorted (text : str) (min_length : nat) :
  StronglySorted (λ a b : str * nat * nat,
                    a.1.2 < b.1.2 ∨ (a.1.2 = b.1.2 ∧ a.2 < b.2))
                 (dictionary.find_words_in_text text min_length).
Proof.
  unfold dictionary.find_words_in_text.
  set (words := dictionary.COMMON_WORDS). clearbody words.
  apply (StronglySorted_bind _ lt); [apply range_sorted| |].
  - intros i _.
    apply (StronglySorted_bind _ lt); [apply range_sorted| |].
    + intros j _. case_match; repeat constructor.
    + intros j1 j2 x y _ _ Hlt Hx Hy.
      destruct (contains words (slice (upper text) i j1));
        [|by apply elem_of_nil in Hx].
      destruct (contains words (slice (upper text) i j2));
        [|by apply elem_of_nil in Hy].
      apply list_elem_of_singleton in Hx as ->.
      apply list_elem_of_singleton in Hy as ->. right. done.
  - intros i1 i2 x y _ _ Hlt Hx Hy.
    apply list_elem_of_bind in Hx as (j1 & Hx & _).
    apply list_elem_of_bind in Hy as (j2 & Hy & _).
    destruct (contains words (slice (upper text) i1 j1));
      [|by apply elem_of_nil in Hx].
    destruct (contains words (slice (upper text) i2 j2));
      [|by apply elem_of_nil in Hy].
    apply list_elem_of_singleton in Hx as ->.
    apply list_elem_of_singleton in Hy as ->. left. done.
Qed.

(** X27. [find_words_in_text] lists the words it finds by start position,
    and the words of one start position by end position, the shorter word
    first. *)
Theorem find_words_in_text_in_reading_order (text : str) (min_length : nat) :
  StronglySorted (λ a b : str * nat * nat,
                    a.1.2 < b.1.2 ∨ (a.1.2 = b.1.2 ∧ a.2 < b.2))
                 (dictionary.find_words_in_text text min_length).
Proof. apply find_words_in_text_sorted. Qed.
(** ** Keys of 10 and more columns *)

Import random.

Lemma permutations_pieces n (p : list str) :
  p ∈ permutations (str_of_nat <$> range 1 (n + 1)) →
  permutation_key n (concat p).
Proof.
  intros Hp. apply permutations_elem in Hp.
  unfold range in Hp. replace (n + 1 - 1) with n in Hp by lia.
  apply Permutation_map_inv in Hp as (digits & -> & Hd).
  exists digits. split; [by symmetry|done].
Qed.

Lemma attempt_unusable n ciphertext key :
  10 ≤ n → permutation_key n key → attempt ciphertext key = [].
Proof.
  intros Hn Hkey. unfold attempt.
  by rewrite (decrypt_unusable n ciphertext key (or_intror Hn) Hkey).
Qed.

Lemma bind_all_nil {A B} (f : A → list B) (l : list A) :
  (∀ x, x ∈ l → f x = []) → l ≫= f = [].
Proof.
  induction l as [|x l IH]; intros H; [done|].
  rewrite bind_cons, (H x) by left. apply IH. intros y Hy. apply H. by right.
Qed.

Lemma unsorted_results_long ciphertext m :
  9 ≤ m → unsorted_results ciphertext m = unsorted_results ciphertext 9.
Proof.
  intros Hm. unfold unsorted_results.
  replace (range 1 (m + 1)) with (range 1 (9 + 1) ++ range 10 (m + 1)).
  - rewrite bind_app. rewrite <- (app_nil_r (range 1 (9 + 1) ≫= _)) at 2.
    f_equal. apply bind_all_nil. intros n Hn. apply elem_of_range in Hn.
    apply bind_all_nil. intros key Hkey.
    apply list_elem_of_fmap in Hkey as (p & -> & Hp).
    apply (attempt_unusable n); [lia|by apply permutations_pieces].
  - unfold range. rewrite <- seq_app. f_equal. lia.
Qed.

Lemma brute_force_attack_long ciphertext m :
  9 ≤ m →
  attack.brute_force_attack ciphertext m = attack.brute_force_attack ciphertext 9.
Proof.
  intros Hm. by rewrite !brute_force_attack_unfold, unsorted_results_long.
Qed.

Lemma brute_force_attack_valid_keys ciphertext m key plaintext score :
  (key, plaintext, score) ∈ attack.brute_force_attack ciphertext m →
  cipher.validate_key key = true.
Proof.
  intros Hin.
  destruct (decide (m ≤ 9)) as [Hm|Hm];
    [|rewrite brute_force_attack_long in Hin by lia].
  all: assert (Hk : key ∈ (λ r : attack.candidate, r.1.1)
                        <$> attack.brute_force_attack ciphertext (m `min` 9))
    by (apply list_elem_of_fmap; exists (key, plaintext, score);
        split; [done|]; first [by rewrite Nat.min_l by lia
                              |by rewrite Nat.min_r by lia]).
  all: rewrite brute_force_attack_keys in Hk by lia.
  all: apply all_keys_elem in Hk as (n & Hn & Hp).
  all: by destruct (validate_numeric n key ltac:(lia) Hp).
Qed.

(** C5. From a largest key length of 10 on, [brute_force_attack] returns
    the triples of the key lengths 1 to 9 and nothing more: every key it
    builds for 10 or more columns joins the decimal numbers 1..key_length
    into a string that [validate_key] rejects, [decrypt] raises, and the
    [except] branch drops the key.  None of the permutation keys of the
    lengths 10..max_key_length is in the result. *)
Theorem brute_force_attack_skips_long_keys (ciphertext : str) (max_key_length : nat) :
  10 ≤ max_key_length →
  attack.brute_force_attack ciphertext max_key_length
  = attack.brute_force_attack ciphertext 9
  ∧ length (attack.brute_force_attack ciphertext max_key_length)
    = sum_list (attack.factorial <$> range 1 10)
  ∧ ∀ key_length key plaintext score,
      10 ≤ key_length → permutation_key key_length key →
      (key, plaintext, score) ∉ attack.brute_force_attack ciphertext max_key_length.
Proof.
  intros Hm. split; [apply brute_force_attack_long; lia|]. split.
  - rewrite brute_force_attack_long by lia.
    rewrite <- (length_fmap (λ r : attack.candidate, r.1.1)).
    rewrite brute_force_attack_keys by lia. apply all_keys_length.
  - intros key_length key plaintext score Hn Hkey Hin.
    apply brute_force_attack_valid_keys in Hin.
    by rewrite (permutation_key_unusable key_length key (or_intror Hn) Hkey) in Hin.
Qed.

Lemma brute_force_attack_skips_long_keys_witness :
  attack.brute_force_attack (lit "EHT UQCI KRBWO NOFX") 10
  = attack.brute_force_attack (lit "EHT UQCI KRBWO NOFX") 9
  ∧ length (attack.brute_force_attack (lit "EHT UQCI KRBWO NOFX") 10)
    = sum_list (attack.factorial <$> range 1 10)
  ∧ ∀ key_length key plaintext score,
      10 ≤ key_length → permutation_key key_length key →
      (key, plaintext, score)
      ∉ attack.brute_force_attack (lit "EHT UQCI KRBWO NOFX") 10.
Proof.
  apply (brute_force_attack_skips_long_keys (lit "EHT UQCI KRBWO NOFX") 10). lia.
Defined.

(** C2. For a key length of 10 or more the population of
    [genetic_algorithm_attack] holds no valid key.  The keys that
    [generate_random_key] returns join the decimal numbers 1..key_length:
    [validate_key] rejects every one of them, and the first generation
    raises [ValueError] when it decrypts its first individual. *)
Theorem genetic_population_invalid_from_length_10
    (ciphertext : str) (key_length population_size generations : nat) (t : tape) :
  10 ≤ key_length →
  1 ≤ population_size →
  1 ≤ generations →
  (∃ st t',
     attack.ga_start key_length population_size t = Ok (st, t')
     ∧ length (attack.population st) = population_size
     ∧ Forall (λ key, permutation_key key_length key
                      ∧ cipher.validate_key key = false
                      ∧ cipher.decrypt ciphertext key = Raise ValueError)
              (attack.population st))
  ∧ attack.genetic_algorithm_attack ciphertext key_length population_size generations t
    = Raise ValueError.
Proof.
  intros Hn Hsize Hgen. split.
  - destruct (ga_start_Ok key_length population_size t) as (st & t' & Hstart & Hlen).
    exists st, t'. split; [done|]. split; [done|].
    eapply Forall_impl; [by eapply ga_start_keys|].
    intros key Hkey. split; [done|]. split.
    + by apply (permutation_key_unusable key_length); [right|].
    + by apply (decrypt_unusable key_length); [right|].
  - destruct (genetic_algorithm_attack_raises key_length ciphertext population_size
                generations t Hgen) as (H & _ & _).
    apply H; [by right|done].
Qed.

Lemma genetic_population_invalid_from_length_10_witness :
  (∃ st t',
     attack.ga_start 10 100 [] = Ok (st, t')
     ∧ length (attack.population st) = 100
     ∧ Forall (λ key, permutation_key 10 key
                      ∧ cipher.validate_key key = false
                      ∧ cipher.decrypt (lit "EHT UQCI KRBWO NOFX") key
                        = Raise ValueError)
              (attack.population st))
  ∧ attack.genetic_algorithm_attack (lit "EHT UQCI KRBWO NOFX") 10 100 500 []
    = Raise ValueError.
Proof.
  apply (genetic_population_invalid_from_length_10
           (lit "EHT UQCI KRBWO NOFX") 10 100 500 []); lia.
Defined.
